(** * Red-black tree of gotomicro/ego-kit ([internal/tree/red_black_tree.go])

    A shallow embedding of the pointer-based red-black tree and the
    verification of its specification.

    The Go program manipulates heap-allocated [RBNode] structs linked by
    [left], [right] and [parent] pointers.  The embedding keeps that shape:
    the heap is an arena (a list of nodes addressed by index), a pointer is an
    optional address ([None] is Go's [nil]), every assignment of the source is
    an in-place update of one cell, and every [for] loop is a fuel-indexed
    [Fixpoint] whose result says whether the loop finished, ran out of fuel or
    dereferenced [nil]. *)

From Stdlib Require Import ZArith Lia List.
From stdpp Require Import base tactics option list sets numbers sorting.

Open Scope Z_scope.

(** ** Results of possibly failing, possibly looping code *)

Inductive result (A : Type) : Type :=
| Done (a : A)      (* the call returned [a] *)
| Panic             (* nil pointer dereference *)
| OutOfFuel.        (* the loop did not finish within the fuel *)
Arguments Done {A} a.
Arguments Panic {A}.
Arguments OutOfFuel {A}.

Definition rbind {A B} (m : result A) (f : A -> result B) : result B :=
  match m with
  | Done a => f a
  | Panic => Panic
  | OutOfFuel => OutOfFuel
  end.

Notation "'let!' x ':=' m 'in' k" := (rbind m (fun x => k))
  (at level 10, x name, m at level 200, k at level 200).

(** Go's [int] on the 64-bit targets: two's complement wrap-around. *)
Definition wrap_int (z : Z) : Z := (z + 2 ^ 63) mod 2 ^ 64 - 2 ^ 63.

(** ** Data model *)

Abbreviation addr := nat (only parsing).
Abbreviation ptr := (option nat) (only parsing).

(** [const ( Red = false; Black = true )] *)
Abbreviation Red := false (only parsing).
Abbreviation Black := true (only parsing).

(** [var ErrRBTreeSameRBNode = errors.New(...)]; a Go [error] is [nil] or an
    error value. *)
Inductive error : Type := ErrRBTreeSameRBNode.

(** Ghost log of the calls to the rebalancing procedures; it is written by
    them and read by nothing. *)
Inductive call : Type :=
| CallFixAfterAdd (x : ptr)
| CallFixAfterDelete (x : ptr)
| CallRotateLeft (node : ptr)
| CallRotateRight (node : ptr).

(** The zero value that Go gives every type. *)
Class ZeroValue (A : Type) : Type := zero_value : A.

(** [ekit.Comparator[T]], a [func(src T, dst T) int]: negative when
    [src < dst], zero when they are equal, positive when [src > dst]. *)
Class Comparator (T : Type) : Type := compare : T -> T -> Z.

(** The comparator is a strict total order, as section 6 of the specification
    requires: its sign is antisymmetric and transitive, and keys that compare
    equal compare alike with every other key. *)
Class ComparatorLaws (T : Type) `{!Comparator T} : Prop := {
  compare_antisym : forall a b : T, compare a b < 0 <-> compare b a > 0;
  compare_trans : forall a b c : T,
    compare a b < 0 -> compare b c < 0 -> compare a c < 0;
  compare_eq_lt : forall a b c : T,
    compare a b = 0 -> compare b c < 0 -> compare a c < 0;
  compare_eq_gt : forall a b c : T,
    compare a b = 0 -> compare b c > 0 -> compare a c > 0
}.

Section Model.

Context {K V : Type} `{!ZeroValue K, !ZeroValue V, !Comparator K}.

(** [type RBNode[T any, V any] struct] *)
Record RBNode : Type := mkRBNode {
  color : bool;
  Key : K;
  Value : V;
  left : ptr;
  right : ptr;
  parent : ptr
}.

(** [RBNode[T, V]{}] *)
Definition zeroNode : RBNode := mkRBNode false zero_value zero_value None None None.

Definition with_color (c : bool) (n : RBNode) : RBNode :=
  mkRBNode c (Key n) (Value n) (left n) (right n) (parent n).
Definition with_Key (k : K) (n : RBNode) : RBNode :=
  mkRBNode (color n) k (Value n) (left n) (right n) (parent n).
Definition with_Value (v : V) (n : RBNode) : RBNode :=
  mkRBNode (color n) (Key n) v (left n) (right n) (parent n).
Definition with_left (p : ptr) (n : RBNode) : RBNode :=
  mkRBNode (color n) (Key n) (Value n) p (right n) (parent n).
Definition with_right (p : ptr) (n : RBNode) : RBNode :=
  mkRBNode (color n) (Key n) (Value n) (left n) p (parent n).
Definition with_parent (p : ptr) (n : RBNode) : RBNode :=
  mkRBNode (color n) (Key n) (Value n) (left n) (right n) p.

(** The arena of allocated nodes.  A Go pointer always refers to a live
    object, so an address outside the arena corresponds to no Go state; it
    reads as the zero node and writes to it are dropped. *)
Local Abbreviation heap := (list RBNode) (only parsing).

Definition deref (h : heap) (a : addr) : RBNode := default zeroNode (h !! a).

Definition alloc (h : heap) (n : RBNode) : heap * addr := (h ++ [n], length h).

(** [type RBTree[T any, V any] struct { root; compare; size }] together with
    the heap its nodes live in. *)
Record state : Type := mkState {
  heap_of : heap;
  root : ptr;
  size : Z;
  calls : list call
}.

Definition set_heap (st : state) (h : heap) : state :=
  mkState h (root st) (size st) (calls st).
Definition set_root (st : state) (p : ptr) : state :=
  mkState (heap_of st) p (size st) (calls st).
Definition set_size (st : state) (z : Z) : state :=
  mkState (heap_of st) (root st) z (calls st).
Definition log (st : state) (c : call) : state :=
  mkState (heap_of st) (root st) (size st) (c :: calls st).

(** A field assignment [p.f = v] through a non-nil pointer. *)
Definition store (st : state) (a : addr) (f : RBNode -> RBNode) : state :=
  set_heap st (alter f a (heap_of st)).

(** [NewRBTree]: the empty tree, in a heap that may already hold objects. *)
Definition NewRBTree (h : heap) : state := mkState h None 0 [].

(** [NewRBNode(key, value)] *)
Definition NewRBNode (st : state) (key : K) (value : V) : state * ptr :=
  let (h, a) := alloc (heap_of st) (mkRBNode Red key value None None None) in
  (set_heap st h, Some a).

Definition Root (st : state) : ptr := root st.
Definition Size (st : state) : Z := size st.

(** ** Nil-safe accessors *)

Definition getColor (h : heap) (node : ptr) : bool :=
  match node with
  | None => Black
  | Some a => color (deref h a)
  end.

Definition setColor (st : state) (node : ptr) (c : bool) : state :=
  match node with
  | None => st
  | Some a => store st a (with_color c)
  end.

Definition getParent (h : heap) (node : ptr) : ptr :=
  match node with
  | None => None
  | Some a => parent (deref h a)
  end.

Definition getLeft (h : heap) (node : ptr) : ptr :=
  match node with
  | None => None
  | Some a => left (deref h a)
  end.

Definition getRight (h : heap) (node : ptr) : ptr :=
  match node with
  | None => None
  | Some a => right (deref h a)
  end.

Definition getBrother (h : heap) (node : ptr) : ptr :=
  match node with
  | None => None
  | Some _ =>
      if decide (node = getLeft h (getParent h node))
      then getRight h (getParent h node)
      else getLeft h (getParent h node)
  end.

Definition getUncle (h : heap) (node : ptr) : ptr :=
  match node with
  | None => None
  | Some _ => getBrother h (getParent h node)
  end.

Definition getGrandParent (h : heap) (node : ptr) : ptr :=
  match node with
  | None => None
  | Some _ => getParent h (getParent h node)
  end.

Definition SetValue (st : state) (node : ptr) (v : V) : state :=
  match node with
  | None => st
  | Some a => store st a (with_Value v)
  end.

(** ** Rotations *)

Definition rotateLeft (st0 : state) (node : ptr) : state :=
  let st := log st0 (CallRotateLeft node) in
  match node with
  | None => st
  | Some n =>
      match right (deref (heap_of st) n) with
      | None => st
      | Some r =>
          let rl := left (deref (heap_of st) r) in
          let st := store st n (with_right rl) in
          let st := match rl with
                    | Some c => store st c (with_parent (Some n))
                    | None => st
                    end in
          let np := parent (deref (heap_of st) n) in
          let st := store st r (with_parent np) in
          let st := match np with
                    | None => set_root st (Some r)
                    | Some p =>
                        if decide (left (deref (heap_of st) p) = Some n)
                        then store st p (with_left (Some r))
                        else store st p (with_right (Some r))
                    end in
          let st := store st r (with_left (Some n)) in
          store st n (with_parent (Some r))
      end
  end.

Definition rotateRight (st0 : state) (node : ptr) : state :=
  let st := log st0 (CallRotateRight node) in
  match node with
  | None => st
  | Some n =>
      match left (deref (heap_of st) n) with
      | None => st
      | Some l =>
          let lr := right (deref (heap_of st) l) in
          let st := store st n (with_left lr) in
          let st := match lr with
                    | Some c => store st c (with_parent (Some n))
                    | None => st
                    end in
          let np := parent (deref (heap_of st) n) in
          let st := store st l (with_parent np) in
          let st := match np with
                    | None => set_root st (Some l)
                    | Some p =>
                        if decide (right (deref (heap_of st) p) = Some n)
                        then store st p (with_right (Some l))
                        else store st p (with_left (Some l))
                    end in
          let st := store st l (with_right (Some n)) in
          store st n (with_parent (Some l))
      end
  end.

(** ** Search *)

Fixpoint getRBNode_loop (fuel : nat) (h : heap) (key : K) (node : ptr)
  : result ptr :=
  match node with
  | None => Done None
  | Some a =>
      match fuel with
      | O => OutOfFuel
      | S fuel' =>
          let cmp := compare key (Key (deref h a)) in
          if cmp <? 0 then getRBNode_loop fuel' h key (left (deref h a))
          else if cmp >? 0 then getRBNode_loop fuel' h key (right (deref h a))
          else Done (Some a)
      end
  end.

Definition getRBNode (fuel : nat) (st : state) (key : K) : result ptr :=
  getRBNode_loop fuel (heap_of st) key (root st).

Definition Find (fuel : nat) (st : state) (key : K) : result ptr :=
  getRBNode fuel st key.

(** ** Insertion *)

Definition fixUncleRed (st : state) (x y : ptr) : state * ptr :=
  let st := setColor st (getParent (heap_of st) x) Black in
  let st := setColor st y Black in
  let st := setColor st (getGrandParent (heap_of st) x) Red in
  (st, getGrandParent (heap_of st) x).

Definition fixAddLeftBlack (st : state) (x : ptr) : state * ptr :=
  let '(st, x) :=
    if decide (x = getRight (heap_of st) (getParent (heap_of st) x))
    then let x := getParent (heap_of st) x in (rotateLeft st x, x)
    else (st, x) in
  let st := setColor st (getParent (heap_of st) x) Black in
  let st := setColor st (getGrandParent (heap_of st) x) Red in
  let st := rotateRight st (getGrandParent (heap_of st) x) in
  (st, x).

Definition fixAddRightBlack (st : state) (x : ptr) : state * ptr :=
  let '(st, x) :=
    if decide (x = getLeft (heap_of st) (getParent (heap_of st) x))
    then let x := getParent (heap_of st) x in (rotateRight st x, x)
    else (st, x) in
  let st := setColor st (getParent (heap_of st) x) Black in
  let st := setColor st (getGrandParent (heap_of st) x) Red in
  let st := rotateLeft st (getGrandParent (heap_of st) x) in
  (st, x).

(** The loop condition of [fixAfterAdd]. *)
Definition fixAfterAdd_cond (st : state) (x : ptr) : bool :=
  bool_decide (x <> None) && bool_decide (x <> root st)
  && negb (getColor (heap_of st) (getParent (heap_of st) x)).

(** One iteration of the loop body of [fixAfterAdd]. *)
Definition fixAfterAdd_body (st : state) (x : ptr) : state * ptr :=
  let y := getUncle (heap_of st) x in
  if negb (getColor (heap_of st) y) then fixUncleRed st x y
  else if decide (getParent (heap_of st) x
                  = getLeft (heap_of st) (getGrandParent (heap_of st) x))
       then fixAddLeftBlack st x
       else fixAddRightBlack st x.

Fixpoint fixAfterAdd_loop (fuel : nat) (st : state) (x : ptr)
  : result state :=
  if fixAfterAdd_cond st x then
    match fuel with
    | O => OutOfFuel
    | S fuel' =>
        let (st', x') := fixAfterAdd_body st x in
        fixAfterAdd_loop fuel' st' x'
    end
  else Done st.

Definition fixAfterAdd (fuel : nat) (st0 : state) (x : ptr) : result state :=
  let st := log st0 (CallFixAfterAdd x) in
  match x with
  | None => Panic
  | Some a =>
      let st := store st a (with_color Red) in
      let! st := fixAfterAdd_loop fuel st x in
      Done (setColor st (root st) Black)
  end.

(** The descent of [addNode]: [Done None] is the early
    [return ErrRBTreeSameRBNode], [Done (Some (parent, cmp))] the values of
    the two variables when the loop exits. *)
Fixpoint addNode_loop (fuel : nat) (h : heap) (key : K)
    (t : ptr) (parent : addr) (cmp : Z) : result (option (addr * Z)) :=
  match t with
  | None => Done (Some (parent, cmp))
  | Some a =>
      match fuel with
      | O => OutOfFuel
      | S fuel' =>
          let cmp := compare key (Key (deref h a)) in
          if cmp <? 0 then addNode_loop fuel' h key (left (deref h a)) a cmp
          else if cmp >? 0
               then addNode_loop fuel' h key (right (deref h a)) a cmp
               else Done None
      end
  end.

Definition addNode (fuel : nat) (st : state) (node : ptr)
  : result (state * option error) :=
  match node with
  | None => Panic
  | Some na =>
      let t := root st in
      let st :=
        match root st with
        | None =>
            let (st', p) := NewRBNode st (Key (deref (heap_of st) na))
                                         (Value (deref (heap_of st) na)) in
            set_root st' p
        | Some _ => st
        end in
      let (h, dummy) := alloc (heap_of st) zeroNode in
      let st := set_heap st h in
      let! r := addNode_loop fuel (heap_of st) (Key (deref (heap_of st) na))
                        t dummy 0 in
      match r with
      | None => Done (st, Some ErrRBTreeSameRBNode)
      | Some (parent, cmp) =>
          let (h, tempNode) :=
            alloc (heap_of st)
                  (mkRBNode Red (Key (deref (heap_of st) na))
                            (Value (deref (heap_of st) na))
                            None None (Some parent)) in
          let st := set_heap st h in
          let st := if cmp <? 0
                    then store st parent (with_left (Some tempNode))
                    else store st parent (with_right (Some tempNode)) in
          let st := set_size st (wrap_int (size st + 1)) in
          let! st := fixAfterAdd fuel st (Some tempNode) in
          Done (st, None)
      end
  end.

Definition Add (fuel : nat) (st : state) (node : ptr)
  : result (state * option error) :=
  addNode fuel st node.

(** ** Deletion *)

Fixpoint leftmost_loop (fuel : nat) (h : heap) (p : addr) : result addr :=
  match left (deref h p) with
  | None => Done p
  | Some l =>
      match fuel with
      | O => OutOfFuel
      | S fuel' => leftmost_loop fuel' h l
      end
  end.

Fixpoint climb_loop (fuel : nat) (h : heap) (p ch : ptr) : result ptr :=
  match p with
  | None => Done p
  | Some pa =>
      if decide (ch = right (deref h pa)) then
        match fuel with
        | O => OutOfFuel
        | S fuel' => climb_loop fuel' h (parent (deref h pa)) p
        end
      else Done p
  end.

Definition getSuccessor (fuel : nat) (h : heap) (node : ptr) : result ptr :=
  match node with
  | None => Done None
  | Some n =>
      match right (deref h n) with
      | Some p => let! p' := leftmost_loop fuel h p in Done (Some p')
      | None => climb_loop fuel h (parent (deref h n)) node
      end
  end.

Definition fixAfterDeleteLeft (st : state) (x : ptr) : state * ptr :=
  let sib := getRight (heap_of st) (getParent (heap_of st) x) in
  let '(st, sib) :=
    if negb (getColor (heap_of st) sib) then
      let st := setColor st sib Black in
      let st := setColor st (getParent (heap_of st) sib) Red in
      let st := rotateLeft st (getParent (heap_of st) x) in
      (st, getRight (heap_of st) (getParent (heap_of st) x))
    else (st, sib) in
  if getColor (heap_of st) (getLeft (heap_of st) sib)
     && getColor (heap_of st) (getRight (heap_of st) sib)
  then
    let st := setColor st sib Red in
    (st, getParent (heap_of st) x)
  else
    let '(st, sib) :=
      if getColor (heap_of st) (getRight (heap_of st) sib) then
        let st := setColor st (getLeft (heap_of st) sib) Black in
        let st := setColor st sib Red in
        let st := rotateRight st sib in
        (st, getRight (heap_of st) (getParent (heap_of st) x))
      else (st, sib) in
    let st := setColor st sib
                (getColor (heap_of st) (getParent (heap_of st) x)) in
    let st := setColor st (getParent (heap_of st) x) Black in
    let st := setColor st (getRight (heap_of st) sib) Black in
    let st := rotateLeft st (getParent (heap_of st) x) in
    (st, root st).

Definition fixAfterDeleteRight (st : state) (x : ptr) : state * ptr :=
  let sib := getLeft (heap_of st) (getParent (heap_of st) x) in
  let '(st, sib) :=
    if negb (getColor (heap_of st) sib) then
      let st := setColor st sib Black in
      let st := setColor st (getParent (heap_of st) x) Red in
      let st := rotateRight st (getParent (heap_of st) x) in
      (st, getBrother (heap_of st) x)
    else (st, sib) in
  if getColor (heap_of st) (getRight (heap_of st) sib)
     && getColor (heap_of st) (getLeft (heap_of st) sib)
  then
    let st := setColor st sib Red in
    (st, getParent (heap_of st) x)
  else
    let '(st, sib) :=
      if getColor (heap_of st) (getLeft (heap_of st) sib) then
        let st := setColor st (getRight (heap_of st) sib) Black in
        let st := setColor st sib Red in
        let st := rotateLeft st sib in
        (st, getLeft (heap_of st) (getParent (heap_of st) x))
      else (st, sib) in
    let st := setColor st sib
                (getColor (heap_of st) (getParent (heap_of st) x)) in
    let st := setColor st (getParent (heap_of st) x) Black in
    let st := setColor st (getLeft (heap_of st) sib) Black in
    let st := rotateRight st (getParent (heap_of st) x) in
    (st, root st).

Definition fixAfterDelete_cond (st : state) (x : ptr) : bool :=
  bool_decide (x <> root st) && getColor (heap_of st) x.

(** One iteration of the loop body of [fixAfterDelete]; [x.parent] is a plain
    field access, so a nil [x] panics. *)
Definition fixAfterDelete_body (st : state) (x : ptr)
  : result (state * ptr) :=
  match x with
  | None => Panic
  | Some a =>
      if decide (x = getLeft (heap_of st) (parent (deref (heap_of st) a)))
      then Done (fixAfterDeleteLeft st x)
      else Done (fixAfterDeleteRight st x)
  end.

Fixpoint fixAfterDelete_loop (fuel : nat) (st : state) (x : ptr)
  : result (state * ptr) :=
  if fixAfterDelete_cond st x then
    match fuel with
    | O => OutOfFuel
    | S fuel' =>
        let! r := fixAfterDelete_body st x in
        fixAfterDelete_loop fuel' (fst r) (snd r)
    end
  else Done (st, x).

Definition fixAfterDelete (fuel : nat) (st0 : state) (x : ptr)
  : result state :=
  let st := log st0 (CallFixAfterDelete x) in
  let! r := fixAfterDelete_loop fuel st x in
  Done (setColor (fst r) (snd r) Black).

Definition deleteNode (fuel : nat) (st : state) (node0 : ptr)
  : result state :=
  match node0 with
  | None => Panic
  | Some n0 =>
      let! r := (if bool_decide (left (deref (heap_of st) n0) <> None)
               && bool_decide (right (deref (heap_of st) n0) <> None)
            then
              let! s := getSuccessor fuel (heap_of st) node0 in
              match s with
              | None => Panic
              | Some sa =>
                  let st := store st n0
                              (with_Key (Key (deref (heap_of st) sa))) in
                  let st := store st n0
                              (with_Value (Value (deref (heap_of st) sa))) in
                  Done (st, sa)
              end
            else Done (st, n0)) in
      let st := fst r in
      let node := snd r in
      let replacement :=
        match left (deref (heap_of st) node) with
        | Some l => Some l
        | None => right (deref (heap_of st) node)
        end in
      let! st :=
        match replacement with
        | Some rep =>
            let st := store st rep
                        (with_parent (parent (deref (heap_of st) node))) in
            let st :=
              match parent (deref (heap_of st) node) with
              | None => set_root st replacement
              | Some p =>
                  if decide (Some node = left (deref (heap_of st) p))
                  then store st p (with_left replacement)
                  else store st p (with_right replacement)
              end in
            let st := store st node (with_left None) in
            let st := store st node (with_right None) in
            let st := store st node (with_parent None) in
            if color (deref (heap_of st) node)
            then fixAfterDelete fuel st replacement
            else Done st
        | None =>
            match parent (deref (heap_of st) node) with
            | None => Done (set_root st None)
            | Some _ =>
                let! st := (if color (deref (heap_of st) node)
                       then fixAfterDelete fuel st (Some node)
                       else Done st) in
                match parent (deref (heap_of st) node) with
                | Some p =>
                    let st :=
                      if decide (Some node = left (deref (heap_of st) p))
                      then store st p (with_left None)
                      else if decide (Some node
                                      = right (deref (heap_of st) p))
                           then store st p (with_right None)
                           else st in
                    Done (store st node (with_parent None))
                | None => Done st
                end
            end
        end in
      Done (set_size st (wrap_int (size st - 1)))
  end.

Definition Delete (fuel : nat) (st : state) (key : K) : result state :=
  let! node := getRBNode fuel st key in
  match node with
  | None => Done st
  | Some _ => deleteNode fuel st node
  end.

(** ** The validator *)

Fixpoint count_loop (fuel : nat) (h : heap) (node : ptr) (count : Z)
  : result Z :=
  match node with
  | None => Done count
  | Some a =>
      match fuel with
      | O => OutOfFuel
      | S fuel' =>
          let count := if color (deref h a) then wrap_int (count + 1)
                       else count in
          count_loop fuel' h (getLeft h node) count
      end
  end.

Fixpoint nodeCheck (fuel : nat) (h : heap) (node : ptr) (count num : Z)
  : result bool :=
  match node with
  | None => Done true
  | Some a =>
      match fuel with
      | O => OutOfFuel
      | S fuel' =>
          if negb (getColor h node) && negb (getColor h (parent (deref h a)))
          then Done false
          else
            let num := if getColor h node then wrap_int (num + 1) else num in
            if bool_decide (getLeft h node = None)
               && bool_decide (getRight h node = None)
               && negb (num =? count)
            then Done false
            else
              let! b := nodeCheck fuel' h (left (deref h a)) count num in
              if b then nodeCheck fuel' h (right (deref h a)) count num
              else Done false
      end
  end.

Definition IsRedBlackTree (fuel : nat) (h : heap) (root : ptr)
  : result bool :=
  if negb (getColor h root) then Done false
  else
    let! count := count_loop fuel h root 0 in
    nodeCheck fuel h root count 0.

(** ** The tree that a heap represents

    The specification speaks of trees: colours, paths, in-order sequences.
    [tree] is the shape of the nodes reachable from a pointer, each node
    carrying the address of its cell; [wf] says that a heap holds exactly
    this shape, parent back-references included. *)

Inductive tree : Type :=
| E
| T (a : addr) (c : bool) (k : K) (v : V) (l r : tree).

Definition ptr_of (t : tree) : ptr :=
  match t with
  | E => None
  | T a _ _ _ _ _ => Some a
  end.

Definition tcolor (t : tree) : bool :=
  match t with
  | E => Black
  | T _ c _ _ _ _ => c
  end.

Fixpoint wf (h : heap) (par : ptr) (t : tree) : Prop :=
  match t with
  | E => True
  | T a c k v l r =>
      h !! a = Some (mkRBNode c k v (ptr_of l) (ptr_of r) par)
      /\ wf h (Some a) l /\ wf h (Some a) r
  end.

(** In-order sequence of the nodes: address, key and value. *)
Fixpoint elements (t : tree) : list (addr * (K * V)) :=
  match t with
  | E => []
  | T a _ k v l r => elements l ++ (a, (k, v)) :: elements r
  end.

Definition addrs (t : tree) : list addr := (elements t).*1.
Definition keys (t : tree) : list K := (elements t).*2.*1.

Fixpoint height (t : tree) : nat :=
  match t with
  | E => O
  | T _ _ _ _ l r => S (Nat.max (height l) (height r))
  end.

(** The heap of [st] holds the tree [t] under the root pointer. *)
Definition models (st : state) (t : tree) : Prop :=
  root st = ptr_of t /\ wf (heap_of st) None t /\ NoDup (addrs t).

(** *** The invariants of section 3 of the specification *)

(** 1. The root, if present, is Black. *)
Definition root_black (t : tree) : Prop := tcolor t = Black.

(** 2. No Red node has a Red child. *)
Fixpoint no_red_red (t : tree) : Prop :=
  match t with
  | E => True
  | T _ c _ _ l r =>
      (c = Red -> tcolor l = Black /\ tcolor r = Black)
      /\ no_red_red l /\ no_red_red r
  end.

(** 3. [path_blacks t n]: some downward path from the root of [t] to an
    absent-child position passes through [n] Black nodes. *)
Inductive path_blacks : tree -> nat -> Prop :=
| path_absent : path_blacks E O
| path_left a c k v l r n :
    path_blacks l n ->
    path_blacks (T a c k v l r) ((if c then 1 else 0) + n)%nat
| path_right a c k v l r n :
    path_blacks r n ->
    path_blacks (T a c k v l r) ((if c then 1 else 0) + n)%nat.

Definition equal_black_height (t : tree) : Prop :=
  exists n, forall m, path_blacks t m -> m = n.

(** 4. BST ordering under the comparator. *)
Fixpoint bst (t : tree) : Prop :=
  match t with
  | E => True
  | T _ _ k _ l r =>
      Forall (fun k' => compare k' k < 0) (keys l)
      /\ Forall (fun k' => compare k' k > 0) (keys r)
      /\ bst l /\ bst r
  end.

(** 5. [size] equals the number of nodes reachable from [root]. *)
Definition size_ok (st : state) (t : tree) : Prop :=
  size st = Z.of_nat (length (elements t)).

(** All five, for the tree held by the heap. *)
Definition invariants (st : state) (t : tree) : Prop :=
  models st t /\ root_black t /\ no_red_red t /\ equal_black_height t
  /\ bst t /\ size_ok st t.

(** [present key t]: the comparator reports equal against a stored key. *)
Definition present (key : K) (t : tree) : Prop :=
  exists k, k ∈ keys t /\ compare key k = 0.

(** *** Zippers: a subtree in its context

    The fixup loops walk from a node towards the root.  A context is the list
    of frames from the focused subtree up to the root, innermost first. *)

Inductive frame : Type :=
| InLeft (a : addr) (c : bool) (k : K) (v : V) (r : tree)
    (* the hole is the left child of [a], [r] its right subtree *)
| InRight (a : addr) (c : bool) (k : K) (v : V) (l : tree).
    (* the hole is the right child of [a], [l] its left subtree *)

Definition fill (f : frame) (t : tree) : tree :=
  match f with
  | InLeft a c k v r => T a c k v t r
  | InRight a c k v l => T a c k v l t
  end.

Fixpoint plug (ctx : list frame) (t : tree) : tree :=
  match ctx with
  | [] => t
  | f :: ctx' => plug ctx' (fill f t)
  end.

Definition faddr (f : frame) : addr :=
  match f with InLeft a _ _ _ _ | InRight a _ _ _ _ => a end.
Definition fcolor (f : frame) : bool :=
  match f with InLeft _ c _ _ _ | InRight _ c _ _ _ => c end.
Definition fsib (f : frame) : tree :=
  match f with InLeft _ _ _ _ t | InRight _ _ _ _ t => t end.

(** The parent pointer of the focused subtree. *)
Definition cparent (ctx : list frame) : ptr :=
  match ctx with
  | [] => None
  | f :: _ => Some (faddr f)
  end.

(** The root pointer of [plug ctx t] when [p] points to [t]. *)
Definition croot (ctx : list frame) (p : ptr) : ptr :=
  match last ctx with
  | None => p
  | Some f => Some (faddr f)
  end.

(** The cell of a frame whose hole holds a subtree at [p]. *)
Definition fcell (f : frame) (p par : ptr) : RBNode :=
  match f with
  | InLeft _ c k v r => mkRBNode c k v p (ptr_of r) par
  | InRight _ c k v l => mkRBNode c k v (ptr_of l) p par
  end.

Fixpoint wfc (h : heap) (ctx : list frame) (p : ptr) : Prop :=
  match ctx with
  | [] => True
  | f :: ctx' =>
      h !! faddr f = Some (fcell f p (cparent ctx'))
      /\ wf h (Some (faddr f)) (fsib f)
      /\ wfc h ctx' (Some (faddr f))
  end.

(** Elements to the left and to the right of the hole. *)
Fixpoint cleft (ctx : list frame) : list (addr * (K * V)) :=
  match ctx with
  | [] => []
  | InLeft _ _ _ _ _ :: ctx' => cleft ctx'
  | InRight a _ k v l :: ctx' => cleft ctx' ++ elements l ++ [(a, (k, v))]
  end.

Fixpoint cright (ctx : list frame) : list (addr * (K * V)) :=
  match ctx with
  | [] => []
  | InLeft a _ k v r :: ctx' => (a, (k, v)) :: elements r ++ cright ctx'
  | InRight _ _ _ _ _ :: ctx' => cright ctx'
  end.

(** The addresses of a context: its frames and their sibling subtrees. *)
Fixpoint caddrs (ctx : list frame) : list addr :=
  match ctx with
  | [] => []
  | f :: ctx' => faddr f :: addrs (fsib f) ++ caddrs ctx'
  end.

Definition paint (c : bool) (t : tree) : tree :=
  match t with
  | E => E
  | T a _ k v l r => T a c k v l r
  end.

(** *** The fixup steps on zippers *)

Definition fpaint (c : bool) (f : frame) : frame :=
  match f with
  | InLeft a _ k v r => InLeft a c k v r
  | InRight a _ k v l => InRight a c k v l
  end.

Definition fpaint_sib (c : bool) (f : frame) : frame :=
  match f with
  | InLeft a cf k v r => InLeft a cf k v (paint c r)
  | InRight a cf k v l => InRight a cf k v (paint c l)
  end.

(** One iteration of [fixAfterAdd] at the node focused by [(ctx, t)]: the
    new zipper, focused at the new [x]. *)
Definition add_step (ctx : list frame) (t : tree) : list frame * tree :=
  match t, ctx with
  | T xa xc xk xv xl xr, fp :: fg :: ctx2 =>
      if negb (tcolor (fsib fg)) then
        (ctx2, fill (fpaint Red (fpaint_sib Black fg)) (fill (fpaint Black fp) t))
      else
        match fg, fp with
        | InLeft g _ kg vg u, InLeft p _ kp vp s =>
            (InLeft p Black kp vp (T g Red kg vg s u) :: ctx2, t)
        | InLeft g _ kg vg u, InRight p cp kp vp s =>
            (InLeft xa Black xk xv (T g Red kg vg xr u) :: ctx2,
             T p cp kp vp s xl)
        | InRight g _ kg vg u, InRight p _ kp vp s =>
            (InRight p Black kp vp (T g Red kg vg u s) :: ctx2, t)
        | InRight g _ kg vg u, InLeft p cp kp vp s =>
            (InRight xa Black xk xv (T g Red kg vg u xl) :: ctx2,
             T p cp kp vp xr s)
        end
  | _, _ => (ctx, t)
  end.

(** *** The searches on trees *)

(** The descent of [getRBNode]. *)
Fixpoint find (key : K) (t : tree) : ptr :=
  match t with
  | E => None
  | T a _ k _ l r =>
      if compare key k <? 0 then find key l
      else if compare key k >? 0 then find key r
      else Some a
  end.

(** The descent of [addNode]: the context of the absent child where the
    search for [key] ends, with the last comparison; [None] when an equal key
    is met. *)
Fixpoint ins_path (key : K) (t : tree) (ctx : list frame) (cmp : Z)
  : option (list frame * Z) :=
  match t with
  | E => Some (ctx, cmp)
  | T a c k v l r =>
      let cmp := compare key k in
      if cmp <? 0 then ins_path key l (InLeft a c k v r :: ctx) cmp
      else if cmp >? 0 then ins_path key r (InRight a c k v l :: ctx) cmp
      else None
  end.

(** The address of the innermost frame, [par] at the top. *)
Definition ctop (par : addr) (ctx : list frame) : addr :=
  match ctx with
  | [] => par
  | f :: _ => faddr f
  end.

(** The comparisons along a context of the descent for [key]. *)
Definition fside (key : K) (f : frame) : Prop :=
  match f with
  | InLeft _ _ k _ _ => compare key k < 0
  | InRight _ _ k _ _ => compare key k > 0
  end.

Definition fkey (f : frame) : K :=
  match f with InLeft _ _ k _ _ | InRight _ _ k _ _ => k end.

(** The last comparison of the descent is the one with the innermost
    frame. *)
Definition top_cmp (key : K) (ctx : list frame) (cmp : Z) : Prop :=
  match ctx with
  | [] => True
  | f :: _ => cmp = compare key (fkey f)
  end.

(** The in-order key sequence is increasing. *)
Definition klt (a b : K) : Prop := compare a b < 0.
Definition sorted (t : tree) : Prop := StronglySorted klt (keys t).

(** *** Colour invariants with a doomed leaf

    While [fixAfterDelete] runs on a childless Black node, that node is still
    linked in; [d] names it, and it counts as an absent child. *)

Definition blk (d : ptr) (a : addr) (c : bool) : nat :=
  if c && negb (bool_decide (d = Some a)) then 1%nat else O.

Fixpoint bhd (d : ptr) (t : tree) : nat :=
  match t with
  | E => O
  | T a c _ _ l _ => (blk d a c + bhd d l)%nat
  end.

Fixpoint rbt (d : ptr) (t : tree) : Prop :=
  match t with
  | E => True
  | T a c _ _ l r =>
      rbt d l /\ rbt d r /\ bhd d l = bhd d r
      /\ (c = Red -> tcolor l = Black /\ tcolor r = Black)
  end.

(** [cok d ctx n c]: the context accepts a valid subtree of black height [n]
    whose root has colour [c], and yields a valid tree with a Black root. *)
Fixpoint cok (d : ptr) (ctx : list frame) (n : nat) (c : bool) : Prop :=
  match ctx with
  | [] => c = Black
  | f :: ctx' =>
      rbt d (fsib f) /\ bhd d (fsib f) = n
      /\ (fcolor f = Red -> c = Black /\ tcolor (fsib f) = Black)
      /\ cok d ctx' (blk d (faddr f) (fcolor f) + n)%nat (fcolor f)
  end.

(** The part of [fixAfterDeleteLeft] after the Red-sibling case, as a
    function of the state and of [sib] at that point. *)
Definition fixAfterDeleteLeft_rest (st : state) (x sib : ptr) : state * ptr :=
  if getColor (heap_of st) (getLeft (heap_of st) sib)
     && getColor (heap_of st) (getRight (heap_of st) sib)
  then
    let st := setColor st sib Red in
    (st, getParent (heap_of st) x)
  else
    let '(st, sib) :=
      if getColor (heap_of st) (getRight (heap_of st) sib) then
        let st := setColor st (getLeft (heap_of st) sib) Black in
        let st := setColor st sib Red in
        let st := rotateRight st sib in
        (st, getRight (heap_of st) (getParent (heap_of st) x))
      else (st, sib) in
    let st := setColor st sib
                (getColor (heap_of st) (getParent (heap_of st) x)) in
    let st := setColor st (getParent (heap_of st) x) Black in
    let st := setColor st (getRight (heap_of st) sib) Black in
    let st := rotateLeft st (getParent (heap_of st) x) in
    (st, root st).

(** The same for [fixAfterDeleteRight]. *)
Definition fixAfterDeleteRight_rest (st : state) (x sib : ptr) : state * ptr :=
  if getColor (heap_of st) (getRight (heap_of st) sib)
     && getColor (heap_of st) (getLeft (heap_of st) sib)
  then
    let st := setColor st sib Red in
    (st, getParent (heap_of st) x)
  else
    let '(st, sib) :=
      if getColor (heap_of st) (getLeft (heap_of st) sib) then
        let st := setColor st (getRight (heap_of st) sib) Black in
        let st := setColor st sib Red in
        let st := rotateLeft st sib in
        (st, getLeft (heap_of st) (getParent (heap_of st) x))
      else (st, sib) in
    let st := setColor st sib
                (getColor (heap_of st) (getParent (heap_of st) x)) in
    let st := setColor st (getParent (heap_of st) x) Black in
    let st := setColor st (getLeft (heap_of st) sib) Black in
    let st := rotateRight st (getParent (heap_of st) x) in
    (st, root st).

(** The parts of [deleteNode]: the promotion of the single child, the
    unlinking of a childless node, and everything after the successor has
    been copied. *)
Definition splice_child (st : state) (node rep : addr) : state :=
  let st := store st rep
              (with_parent (parent (deref (heap_of st) node))) in
  let st :=
    match parent (deref (heap_of st) node) with
    | None => set_root st (Some rep)
    | Some p =>
        if decide (Some node = left (deref (heap_of st) p))
        then store st p (with_left (Some rep))
        else store st p (with_right (Some rep))
    end in
  let st := store st node (with_left None) in
  let st := store st node (with_right None) in
  store st node (with_parent None).

Definition unlink_node (st : state) (node : addr) : state :=
  match parent (deref (heap_of st) node) with
  | Some p =>
      let st :=
        if decide (Some node = left (deref (heap_of st) p))
        then store st p (with_left None)
        else if decide (Some node = right (deref (heap_of st) p))
             then store st p (with_right None)
             else st in
      store st node (with_parent None)
  | None => st
  end.

Definition deleteNode_splice (fuel : nat) (st : state) (node : addr)
  : result state :=
  let replacement :=
    match left (deref (heap_of st) node) with
    | Some l => Some l
    | None => right (deref (heap_of st) node)
    end in
  let! st :=
    match replacement with
    | Some rep =>
        let st := splice_child st node rep in
        if color (deref (heap_of st) node)
        then fixAfterDelete fuel st replacement
        else Done st
    | None =>
        match parent (deref (heap_of st) node) with
        | None => Done (set_root st None)
        | Some _ =>
            let! st := (if color (deref (heap_of st) node)
                        then fixAfterDelete fuel st (Some node)
                        else Done st) in
            Done (unlink_node st node)
        end
    end in
  Done (set_size st (wrap_int (size st - 1))).

(** The zipper of the leftmost node of [t]. *)
Fixpoint min_zip (t : tree) (ctx : list frame) : list frame * tree :=
  match t with
  | E => (ctx, E)
  | T a c k v l r =>
      match l with
      | E => (ctx, t)
      | T _ _ _ _ _ _ => min_zip l (InLeft a c k v r :: ctx)
      end
  end.

(** One iteration of [fixAfterDelete] on zippers.  [x] is the left child of
    [p], [s] its sibling, Black or absent when this part starts. *)
Definition del_rest_left (p : addr) (cp : bool) (kp : K) (vp : V)
    (t s : tree) (ctx : list frame) : list frame * tree :=
  match s with
  | E => (ctx, T p cp kp vp t E)
  | T sa cs ks vs n1 n2 =>
      if tcolor n1 && tcolor n2 then (ctx, T p cp kp vp t (T sa Red ks vs n1 n2))
      else
        let s2 :=
          if tcolor n2 then
            match n1 with
            | T na _ kn vn nl nr => T na Black kn vn nl (T sa Red ks vs nr n2)
            | E => s
            end
          else s in
        match s2 with
        | T sa2 _ k2 v2 m1 m2 =>
            ([], plug ctx (T sa2 cp k2 v2 (T p Black kp vp t m1)
                             (paint Black m2)))
        | E => (ctx, t)
        end
  end.

Definition del_rest_right (p : addr) (cp : bool) (kp : K) (vp : V)
    (t s : tree) (ctx : list frame) : list frame * tree :=
  match s with
  | E => (ctx, T p cp kp vp E t)
  | T sa cs ks vs n1 n2 =>
      if tcolor n2 && tcolor n1 then (ctx, T p cp kp vp (T sa Red ks vs n1 n2) t)
      else
        let s2 :=
          if tcolor n1 then
            match n2 with
            | T na _ kn vn nl nr => T na Black kn vn (T sa Red ks vs n1 nl) nr
            | E => s
            end
          else s in
        match s2 with
        | T sa2 _ k2 v2 m1 m2 =>
            ([], plug ctx (T sa2 cp k2 v2 (paint Black m1)
                             (T p Black kp vp m2 t)))
        | E => (ctx, t)
        end
  end.

Definition del_step (ctx : list frame) (t : tree) : list frame * tree :=
  match ctx with
  | [] => (ctx, t)
  | InLeft p cp kp vp s :: ctx0 =>
      match s with
      | T sa false ks vs sl sr =>
          del_rest_left p Red kp vp t sl (InLeft sa Black ks vs sr :: ctx0)
      | _ => del_rest_left p cp kp vp t s ctx0
      end
  | InRight p cp kp vp s :: ctx0 =>
      match s with
      | T sa false ks vs sl sr =>
          del_rest_right p Red kp vp t sr (InRight sa Black ks vs sl :: ctx0)
      | _ => del_rest_right p cp kp vp t s ctx0
      end
  end.

(** The loop of [fixAfterDelete] goes on: [x] is Black and not the root. *)
Definition deficient (ctx : list frame) (t : tree) : bool :=
  match ctx with
  | [] => false
  | _ :: _ => tcolor t
  end.

(** An iteration of [fixAfterDelete] only recolours and moves up: the sibling
    of [x] is Black or absent, and so are the children of the sibling. *)
Definition nephews_black (s : tree) : bool :=
  match s with
  | E => true
  | T _ _ _ _ sl sr => tcolor sl && tcolor sr
  end.

Definition del_continues (ctx : list frame) : bool :=
  match ctx with
  | [] => false
  | f :: _ => tcolor (fsib f) && nephews_black (fsib f)
  end.

(** The state of the loop of [fixAfterAdd]: a Red node over valid subtrees in
    a context that would accept it were it Black. *)
Definition add_inv (ctx : list frame) (t : tree) : Prop :=
  t <> E /\ tcolor t = Red /\ rbt None t /\ cok None ctx (bhd None t) Black.

(** The loop of [fixAfterAdd] goes on: the parent of the focus is Red. *)
Definition parent_red (ctx : list frame) : bool :=
  match ctx with
  | [] => false
  | f :: _ => negb (fcolor f)
  end.

(** The leaf [d] (Black, no children) occurs in [t]. *)
Fixpoint has_leaf (d : addr) (t : tree) : Prop :=
  match t with
  | E => False
  | T a c _ _ l r =>
      (a = d /\ c = Black /\ l = E /\ r = E) \/ has_leaf d l \/ has_leaf d r
  end.

(** The state of the loop of [fixAfterDelete]: the paths through the focus
    are one Black node short; painting the focus Black repairs a Red one.
    The doomed leaf lies inside the focus. *)
Definition del_inv (d : ptr) (ctx : list frame) (t : tree) : Prop :=
  t <> E /\ rbt d (paint Black t) /\ cok d ctx (S (bhd d t)) Black
  /\ (forall a, d = Some a -> a ∉ caddrs ctx)
  /\ (forall a, d = Some a -> has_leaf a t).

(** What [nodeCheck] compares: at every childless node, the number of Black
    nodes on the path from the root ([num] above the subtree) with [count]. *)
Fixpoint leaves_at (t : tree) (count num : nat) : Prop :=
  match t with
  | E => True
  | T _ c _ _ l r =>
      let num' := ((if c then 1 else 0) + num)%nat in
      (l = E -> r = E -> num' = count)
      /\ leaves_at l count num' /\ leaves_at r count num'
  end.

(** The exported accessors of a node: [Left], [Right] and [Parent]. *)
Definition Left (h : heap) (node : ptr) : ptr := getLeft h node.
Definition Right (h : heap) (node : ptr) : ptr := getRight h node.
Definition Parent (h : heap) (node : ptr) : ptr := getParent h node.

(** *** Executions of the public operations *)

(** [tree.Add(NewRBNode(k, v))] and [tree.Delete(k)]. *)
Inductive op : Type :=
| OpAdd (k : K) (v : V)
| OpDelete (k : K).

Definition run_op (fuel : nat) (st : state) (o : op) : result state :=
  match o with
  | OpAdd k v =>
      let (st1, p) := NewRBNode st k v in
      let! r := Add fuel st1 p in
      Done (fst r)
  | OpDelete k => Delete fuel st k
  end.

Fixpoint run_ops (fuel : nat) (st : state) (ops : list op) : result state :=
  match ops with
  | [] => Done st
  | o :: ops' =>
      let! st' := run_op fuel st o in
      run_ops fuel st' ops'
  end.

(** The node that [deleteNode] splices out: the value of its variable [node]
    after the successor has been substituted for a node with two children. *)
Definition spliced_node (fuel : nat) (h : heap) (n0 : addr) : result ptr :=
  if bool_decide (left (deref h n0) <> None)
     && bool_decide (right (deref h n0) <> None)
  then getSuccessor fuel h (Some n0)
  else Done (Some n0).

End Model.

Abbreviation heap := (list RBNode) (only parsing).

(** The calls of the log that are rotations. *)
Definition is_rotation (c : call) : bool :=
  match c with
  | CallRotateLeft _ | CallRotateRight _ => true
  | CallFixAfterAdd _ | CallFixAfterDelete _ => false
  end.

(** ** Integer keys

    The trees of the examples: keys and values are integers, compared by the
    ascending three-way comparison. *)

#[export] Instance Z_zero : ZeroValue Z := 0.

Definition cmp_int (a b : Z) : Z :=
  if a <? b then -1 else if a =? b then 0 else 1.

#[export] Instance Z_comparator : Comparator Z := cmp_int.

Definition state_of (r : result (state (K:=Z) (V:=Z))) : state :=
  match r with
  | Done st => st
  | _ => NewRBTree []
  end.

(** The tree after [Add] of 10. *)
Definition st_10 : state (K:=Z) (V:=Z) :=
  Eval vm_compute in state_of (run_ops 8 (NewRBTree []) [OpAdd 10 0]).

Definition t_10 : tree (K:=Z) (V:=Z) := T 1 Black 10 0 E E.

(** The tree after [Add] of 10, 20 and 30. *)
Definition st_10_20_30 : state (K:=Z) (V:=Z) :=
  Eval vm_compute in
    state_of (run_ops 8 (NewRBTree []) [OpAdd 10 0; OpAdd 20 0; OpAdd 30 0]).

Definition t_10_20_30 : tree (K:=Z) (V:=Z) :=
  T 6 Black 20 0 (T 1 Red 10 0 E E) (T 9 Red 30 0 E E).

(** The tree after [Add] of 10, 20, 30 and 40. *)
Definition st_10_20_30_40 : state (K:=Z) (V:=Z) :=
  Eval vm_compute in
    state_of (run_ops 8 (NewRBTree [])
                [OpAdd 10 0; OpAdd 20 0; OpAdd 30 0; OpAdd 40 0]).

Definition t_10_20_30_40 : tree (K:=Z) (V:=Z) :=
  T 6 Black 20 0 (T 1 Black 10 0 E E) (T 9 Black 30 0 E (T 12 Red 40 0 E E)).

(** A Black root over a Red left child with a larger key. *)
Definition h_unordered : list (RBNode (K:=Z) (V:=Z)) :=
  [ mkRBNode Black 20 0 (Some 1%nat) None None;
    mkRBNode Red 30 0 None None (Some 0%nat) ].

Definition t_unordered : tree (K:=Z) (V:=Z) :=
  T 0 Black 20 0 (T 1 Red 30 0 E E) E.

(** A Black root over a Black left child and no right child. *)
Definition h_lopsided : list (RBNode (K:=Z) (V:=Z)) :=
  [ mkRBNode Black 20 0 (Some 1%nat) None None;
    mkRBNode Black 10 0 None None (Some 0%nat) ].

Definition t_lopsided : tree (K:=Z) (V:=Z) :=
  T 0 Black 20 0 (T 1 Black 10 0 E E) E.

(** * Verification *)

(** ** The heap and the tree it holds *)

Section Heap.

Context {K V : Type} `{!ZeroValue K, !ZeroValue V, !Comparator K}.
Implicit Types (h : list (RBNode (K:=K) (V:=V))) (st : state (K:=K) (V:=V)).
Implicit Types (t l r : tree (K:=K) (V:=V)) (ctx : list (frame (K:=K) (V:=V))).
Implicit Types (a b : addr) (p q par : ptr).

Lemma deref_lookup h a n : h !! a = Some n -> deref h a = n.
Proof. unfold deref. by intros ->. Qed.

Lemma deref_alter h a f : deref (alter f a h) a = match h !! a with
                                                   | Some n => f n
                                                   | None => zeroNode
                                                   end.
Proof. unfold deref. rewrite list_lookup_alter_eq. by destruct (h !! a). Qed.

Lemma deref_alter_ne h a b f : a <> b -> deref (alter f a h) b = deref h b.
Proof. intros. unfold deref. by rewrite list_lookup_alter_ne. Qed.

Lemma lookup_alter_Some h a f n :
  h !! a = Some n -> alter f a h !! a = Some (f n).
Proof. intros H. by rewrite list_lookup_alter_eq, H. Qed.

Lemma lookup_alloc_old h n a x :
  h !! a = Some x -> (alloc h n).1 !! a = Some x.
Proof. intros H. simpl. by apply lookup_app_l_Some. Qed.

Lemma lookup_alloc_new h n : (alloc h n).1 !! (alloc h n).2 = Some n.
Proof. simpl. by apply list_lookup_middle. Qed.

Lemma alloc_fresh h n a x : h !! a = Some x -> a <> (alloc h n).2.
Proof. intros H%lookup_lt_Some. simpl. lia. Qed.

(** *** Elements and addresses *)

Lemma addrs_T a c k v l r :
  addrs (T a c k v l r) = addrs l ++ a :: addrs r.
Proof. unfold addrs. simpl. by rewrite fmap_app. Qed.

Lemma addrs_E : addrs (K:=K) (V:=V) E = [].
Proof. done. Qed.

Lemma keys_T a c k v l r : keys (T a c k v l r) = keys l ++ k :: keys r.
Proof. unfold keys. simpl. by rewrite !fmap_app. Qed.

Lemma elements_fill f t :
  elements (fill f t)
  = match f with
    | InLeft a _ k v r => elements t ++ (a, (k, v)) :: elements r
    | InRight a _ k v l => elements l ++ (a, (k, v)) :: elements t
    end.
Proof. by destruct f. Qed.

Lemma elements_plug ctx t :
  elements (plug ctx t) = cleft ctx ++ elements t ++ cright ctx.
Proof.
  revert t. induction ctx as [|f ctx IH]; intros t; simpl.
  - by rewrite app_nil_r.
  - rewrite IH. destruct f; simpl; by rewrite <- ?app_assoc.
Qed.

Lemma addrs_plug ctx t :
  addrs (plug ctx t) = (cleft ctx).*1 ++ addrs t ++ (cright ctx).*1.
Proof. unfold addrs. by rewrite elements_plug, !fmap_app. Qed.

Lemma addrs_fill_perm f t :
  addrs (fill f t) ≡ₚ addrs t ++ faddr f :: addrs (fsib f).
Proof.
  destruct f; simpl; rewrite addrs_T; [done|].
  rewrite Permutation_app_comm. simpl. by rewrite <- Permutation_middle.
Qed.

Lemma addrs_plug_perm ctx t : addrs (plug ctx t) ≡ₚ addrs t ++ caddrs ctx.
Proof.
  revert t. induction ctx as [|f ctx IH]; intros t; simpl.
  - by rewrite app_nil_r.
  - rewrite IH, addrs_fill_perm, <- app_assoc. simpl. done.
Qed.

Lemma length_elements_plug ctx t t' :
  length (elements t) = length (elements t') ->
  length (elements (plug ctx t)) = length (elements (plug ctx t')).
Proof. intros H. rewrite !elements_plug, !length_app. lia. Qed.

(** *** Pointers into a plugged tree *)

Lemma ptr_of_fill f t : ptr_of (fill f t) = Some (faddr f).
Proof. by destruct f. Qed.

Lemma croot_cons f ctx p : croot (f :: ctx) p = croot ctx (Some (faddr f)).
Proof.
  unfold croot. rewrite last_cons. by destruct (last ctx).
Qed.

Lemma ptr_of_plug ctx t : ptr_of (plug ctx t) = croot ctx (ptr_of t).
Proof.
  revert t. induction ctx as [|f ctx IH]; intros t; [done|].
  simpl plug. by rewrite IH, ptr_of_fill, croot_cons.
Qed.

Lemma croot_nil p : croot (K:=K) (V:=V) [] p = p.
Proof. done. Qed.

Lemma croot_nonempty ctx p q : ctx <> [] -> croot ctx p = croot ctx q.
Proof.
  unfold croot. destruct (last ctx) eqn:E1; [done|].
  apply last_None in E1. done.
Qed.

(** *** Frame rules: a heap that agrees on the addresses of a tree holds
    the same tree *)

Lemma wf_agree h h' par t :
  (forall a, a ∈ addrs t -> h' !! a = h !! a) -> wf h par t -> wf h' par t.
Proof.
  revert par. induction t as [|a c k v l IHl r IHr]; intros par Hag; [done|].
  simpl. intros (Ha & Hl & Hr). rewrite addrs_T in Hag.
  split_and!.
  - rewrite Hag; [done|]. set_solver.
  - apply IHl; [|done]. intros; apply Hag. set_solver.
  - apply IHr; [|done]. intros; apply Hag. set_solver.
Qed.

Lemma wfc_agree h h' ctx p :
  (forall a, a ∈ caddrs ctx -> h' !! a = h !! a) ->
  wfc h ctx p -> wfc h' ctx p.
Proof.
  revert p. induction ctx as [|f ctx IH]; intros p Hag; [done|].
  simpl. intros (Hf & Hs & Hc).
  assert (Hag' : forall a, a ∈ faddr f :: addrs (fsib f) ++ caddrs ctx ->
                      h' !! a = h !! a) by done.
  split_and!.
  - rewrite Hag'; [done|]. set_solver.
  - eapply wf_agree; [|done]. intros; apply Hag'. set_solver.
  - apply IH; [|done]. intros; apply Hag'. set_solver.
Qed.

Lemma wf_alter h par t a f :
  a ∉ addrs t -> wf h par t -> wf (alter f a h) par t.
Proof.
  intros Ha. apply wf_agree. intros b Hb.
  apply list_lookup_alter_ne. intros ->. done.
Qed.

Lemma wfc_alter h ctx p a f :
  a ∉ caddrs ctx -> wfc h ctx p -> wfc (alter f a h) ctx p.
Proof.
  intros Ha. apply wfc_agree. intros b Hb.
  apply list_lookup_alter_ne. intros ->. done.
Qed.

Lemma wf_lt h par t a : wf h par t -> a ∈ addrs t -> (a < length h)%nat.
Proof.
  revert par. induction t as [|a' c k v l IHl r IHr]; intros par.
  - intros _ Ha. rewrite addrs_E in Ha. set_solver.
  - simpl. intros (Ha' & Hl & Hr). rewrite addrs_T.
    intros [?|[->|?]%elem_of_cons]%elem_of_app; eauto.
    by apply lookup_lt_Some in Ha'.
Qed.

Lemma wf_alloc h par t n : wf h par t -> wf (alloc h n).1 par t.
Proof.
  intros H. eapply wf_agree; [|done]. intros a Ha.
  simpl. apply lookup_app_l. eapply wf_lt; done.
Qed.

(** *** Decomposition of a plugged tree *)

Lemma wf_fill h par f t :
  wf h par (fill f t)
  <-> h !! faddr f = Some (fcell f (ptr_of t) par)
      /\ wf h (Some (faddr f)) (fsib f) /\ wf h (Some (faddr f)) t.
Proof. destruct f; simpl; tauto. Qed.

Lemma wf_plug h ctx t :
  wf h None (plug ctx t) <-> wfc h ctx (ptr_of t) /\ wf h (cparent ctx) t.
Proof.
  revert t. induction ctx as [|f ctx IH]; intros t; simpl.
  - tauto.
  - rewrite IH, wf_fill, ptr_of_fill. tauto.
Qed.

Lemma ptr_of_addrs t a : ptr_of t = Some a -> a ∈ addrs t.
Proof.
  destruct t; [done|]. simpl. intros [= ->]. rewrite addrs_T. set_solver.
Qed.

Lemma models_plug st ctx t :
  models st (plug ctx t)
  <-> root st = croot ctx (ptr_of t)
      /\ wfc (heap_of st) ctx (ptr_of t)
      /\ wf (heap_of st) (cparent ctx) t
      /\ NoDup (addrs t ++ caddrs ctx).
Proof.
  unfold models. rewrite ptr_of_plug, wf_plug, addrs_plug_perm. tauto.
Qed.

(** The cell of the focused node. *)
Lemma models_read st ctx a c k v l r :
  models st (plug ctx (T a c k v l r)) ->
  heap_of st !! a
  = Some (mkRBNode c k v (ptr_of l) (ptr_of r) (cparent ctx)).
Proof. rewrite models_plug. simpl. tauto. Qed.

Lemma models_deref st ctx a c k v l r :
  models st (plug ctx (T a c k v l r)) ->
  deref (heap_of st) a = mkRBNode c k v (ptr_of l) (ptr_of r) (cparent ctx).
Proof. intros H. by apply deref_lookup, models_read. Qed.

End Heap.

(** ** Local heap updates under a context *)

(** *** Distinct addresses

    [NoDup] and disjointness facts are normalised into atoms: [a <> b],
    [a ∉ l], [l ## k] and [NoDup l] for opaque lists [l] and [k]. *)

Section Distinct.
Context {A : Type}.
Implicit Types (x y : A) (l k : list A).

Lemma nd_app l k : NoDup (l ++ k) <-> NoDup l /\ l ## k /\ NoDup k.
Proof. rewrite NoDup_app. set_solver. Qed.
Lemma nd_cons x l : NoDup (x :: l) <-> x ∉ l /\ NoDup l.
Proof. apply NoDup_cons. Qed.
Lemma nd_nil : NoDup (@nil A) <-> True.
Proof. split; [done|]. intros; apply NoDup_nil_2. Qed.
Lemma dj_app_l l1 l2 k : (l1 ++ l2) ## k <-> l1 ## k /\ l2 ## k.
Proof. set_solver. Qed.
Lemma dj_app_r l k1 k2 : l ## (k1 ++ k2) <-> l ## k1 /\ l ## k2.
Proof. set_solver. Qed.
Lemma dj_cons_l x l k : (x :: l) ## k <-> x ∉ k /\ l ## k.
Proof. set_solver. Qed.
Lemma dj_cons_r x l k : l ## (x :: k) <-> x ∉ l /\ l ## k.
Proof. set_solver. Qed.
Lemma dj_nil_l k : [] ## k <-> True.
Proof. set_solver. Qed.
Lemma dj_nil_r l : l ## [] <-> True.
Proof. set_solver. Qed.
Lemma ni_app x l k : x ∉ l ++ k <-> x ∉ l /\ x ∉ k.
Proof. set_solver. Qed.
Lemma ni_cons x y l : x ∉ y :: l <-> x <> y /\ x ∉ l.
Proof. set_solver. Qed.
Lemma ni_nil x : x ∉ @nil A <-> True.
Proof. set_solver. Qed.
Lemma dj_sym l k : l ## k -> k ## l.
Proof. set_solver. Qed.
Lemma dj_ne l k x y : l ## k -> x ∈ l -> y ∈ k -> x <> y.
Proof. set_solver. Qed.
Lemma ni_ne l x y : x ∉ l -> y ∈ l -> x <> y.
Proof. set_solver. Qed.

End Distinct.

Ltac nd_rewrite_in H :=
  repeat first
    [ rewrite nd_app in H | rewrite nd_cons in H | rewrite nd_nil in H
    | rewrite dj_app_l in H | rewrite dj_app_r in H
    | rewrite dj_cons_l in H | rewrite dj_cons_r in H
    | rewrite dj_nil_l in H | rewrite dj_nil_r in H
    | rewrite ni_app in H | rewrite ni_cons in H | rewrite ni_nil in H ].

Ltac nd_rewrite :=
  repeat first
    [ rewrite nd_app | rewrite nd_cons | rewrite nd_nil
    | rewrite dj_app_l | rewrite dj_app_r
    | rewrite dj_cons_l | rewrite dj_cons_r
    | rewrite dj_nil_l | rewrite dj_nil_r
    | rewrite ni_app | rewrite ni_cons | rewrite ni_nil ].

(** Normalises the distinctness hypotheses into atoms. *)
Ltac nd_explode_all :=
  repeat match goal with
         | H : NoDup (_ ++ _) |- _ => apply nd_app in H; destruct H as (? & ? & ?)
         | H : NoDup (_ :: _) |- _ => apply nd_cons in H; destruct H as [? ?]
         | H : NoDup [] |- _ => clear H
         | H : (_ ++ _) ## _ |- _ => apply dj_app_l in H; destruct H as [? ?]
         | H : (_ :: _) ## _ |- _ => apply dj_cons_l in H; destruct H as [? ?]
         | H : [] ## _ |- _ => clear H
         | H : _ ## (_ ++ _) |- _ => apply dj_app_r in H; destruct H as [? ?]
         | H : _ ## (_ :: _) |- _ => apply dj_cons_r in H; destruct H as [? ?]
         | H : _ ## [] |- _ => clear H
         | H : _ ∉ _ ++ _ |- _ => apply ni_app in H; destruct H as [? ?]
         | H : _ ∉ _ :: _ |- _ => apply ni_cons in H; destruct H as [? ?]
         | H : _ ∉ [] |- _ => clear H
         end.

Ltac nd_explode H := nd_explode_all.

(** Solves a distinctness goal from atoms in the context. *)
Ltac nd_ne :=
  match goal with
  | |- ?x <> ?y =>
      first
        [ assumption
        | apply not_eq_sym; assumption
        | match goal with
          | Hy : y ∈ ?l |- _ => apply (ni_ne l x y); [assumption|exact Hy]
          end
        | match goal with
          | Hx : x ∈ ?l |- _ =>
              apply not_eq_sym; apply (ni_ne l y x); [assumption|exact Hx]
          end
        | match goal with
          | Hx : x ∈ ?l, Hy : y ∈ ?k |- _ =>
              apply (dj_ne l k x y);
              [first [assumption | apply dj_sym; assumption]
              |exact Hx|exact Hy]
          end ]
  end.

Ltac nd_atom :=
  match goal with
  | |- True => exact I
  | |- _ <> _ => nd_ne
  | |- _ ∉ _ => assumption
  | |- _ ## _ => first [ assumption | apply dj_sym; assumption ]
  | |- NoDup _ => assumption
  end.

Ltac nd_solve := nd_rewrite; repeat split; nd_atom.

(** Evaluates heap lookups through in-place updates, given the lookups of
    the original heap and the disequalities of the addresses as hypotheses. *)
Ltac hlook :=
  repeat first
    [ rewrite list_lookup_alter_eq
    | rewrite list_lookup_alter_ne by nd_atom
    | match goal with
      | H : ?h !! ?x = Some _ |- context [?h !! ?x] => rewrite H
      end
    | progress simpl ].

Lemma ptr_of_not_in {K V : Type} (t : tree (K:=K) (V:=V)) a :
  ptr_of t = Some a -> a ∉ addrs t -> False.
Proof. intros H%ptr_of_addrs. done. Qed.

Ltac ptr_absurd :=
  exfalso;
  match goal with
  | H : ptr_of ?t = Some ?a, H' : ?a ∉ addrs ?t |- _ =>
      exact (ptr_of_not_in t a H H')
  | H : Some ?a = ptr_of ?t, H' : ?a ∉ addrs ?t |- _ =>
      exact (ptr_of_not_in t a (eq_sym H) H')
  end.

(** Settles a comparison of two pointers. *)
Ltac ptr_decide x y :=
  let e := fresh "e" in
  let n := fresh "n" in
  destruct (decide (x = y)) as [e|n];
  [ try solve [ discriminate e
              | ptr_absurd
              | exfalso; injection e;
                match goal with
                | |- ?a = ?b -> False => change (a <> b); nd_atom
                end ]
  | try solve [ exfalso; apply n; reflexivity ] ].

Ltac hlook_in H :=
  repeat first
    [ rewrite list_lookup_alter_eq in H
    | rewrite list_lookup_alter_ne in H by nd_atom
    | match goal with
      | H' : ?h !! ?x = Some _ |- _ =>
          match type of H with context [h !! x] => rewrite H' in H end
      end
    | progress (simpl in H)
    | match type of H with
      | context [decide (?x = ?y)] => ptr_decide x y
      end ].

(** Proves that an untouched subtree or context is still held by the heap. *)
Ltac frame_solve :=
  match goal with
  | |- wf _ _ _ =>
      eapply wf_agree; [|eassumption];
      let x := fresh "x" in let Hx := fresh "Hx" in
      intros x Hx; simpl; hlook; reflexivity
  | |- wfc _ _ _ =>
      eapply wfc_agree; [|eassumption];
      let x := fresh "x" in let Hx := fresh "Hx" in
      intros x Hx; simpl; hlook; reflexivity
  end.

(** The hypotheses that [x] lies in the context, away from the parent. *)
Ltac ctx_cases Hx Hne :=
  simpl in Hx, Hne;
  repeat first [ rewrite elem_of_cons in Hx | rewrite elem_of_app in Hx ];
  try (destruct Hx as [->|[Hx|Hx]]; [done| |]);
  try (by apply elem_of_nil in Hx).

Section Local.

Context {K V : Type} `{!ZeroValue K, !ZeroValue V, !Comparator K}.
Implicit Types (h : list (RBNode (K:=K) (V:=V))) (st : state (K:=K) (V:=V)).
Implicit Types (t l r : tree (K:=K) (V:=V)) (ctx : list (frame (K:=K) (V:=V))).
Implicit Types (a b : addr) (p q par : ptr).

(** Replacing the focused subtree: the new heap may differ from the old one
    on the addresses of the old subtree and on the parent cell. *)
Lemma models_replace st st' ctx t t' :
  models st (plug ctx t) ->
  (forall x, x ∈ caddrs ctx -> Some x <> cparent ctx ->
             heap_of st' !! x = heap_of st !! x) ->
  match ctx with
  | [] => root st' = ptr_of t'
  | f :: ctx' =>
      root st' = root st
      /\ heap_of st' !! faddr f = Some (fcell f (ptr_of t') (cparent ctx'))
  end ->
  wf (heap_of st') (cparent ctx) t' ->
  NoDup (addrs t' ++ caddrs ctx) ->
  models st' (plug ctx t').
Proof.
  rewrite !models_plug. intros (Hroot & Hc & Ht & Hnd) Hag Htop Ht' Hnd'.
  split_and!; [| |done|done].
  - destruct ctx as [|f ctx']; [done|]. destruct Htop as [-> _].
    rewrite Hroot. by apply croot_nonempty.
  - destruct ctx as [|f ctx']; [done|]. destruct Htop as [_ Hf].
    simpl in Hc. destruct Hc as (_ & Hs & Hc). simpl.
    simpl in Hnd'. nd_explode Hnd'.
    split_and!; [done| |].
    + eapply wf_agree; [|done]. intros x Hx. apply Hag.
      * simpl. set_solver.
      * simpl. intros [= ->]. done.
    + eapply wfc_agree; [|done]. intros x Hx. apply Hag.
      * simpl. set_solver.
      * simpl. intros [= ->]. done.
Qed.

Lemma models_nodup st ctx t :
  models st (plug ctx t) -> NoDup (addrs t ++ caddrs ctx).
Proof. rewrite models_plug. tauto. Qed.

Lemma rotateLeft_models st ctx a c k v l b cb kb vb rl rr :
  models st (plug ctx (T a c k v l (T b cb kb vb rl rr))) ->
  models (rotateLeft st (Some a))
         (plug ctx (T b cb kb vb (T a c k v l rl) rr)).
Proof.
  intros H. pose proof H as H0.
  apply models_plug in H0 as (Hroot & Hc & Ht & Hnd).
  simpl in Ht. destruct Ht as (Ha & Hl & (Hb & Hrl & Hrr)).
  assert (Hnd' : NoDup (addrs (T b cb kb vb (T a c k v l rl) rr) ++ caddrs ctx)).
  { revert Hnd. rewrite !addrs_T, <- !app_assoc. simpl. by rewrite <- !app_assoc. }
  destruct rl as [|c1 cc1 k1 v1 l1 r1]; simpl in Hrl;
    [|destruct Hrl as (Hc1 & Hl1 & Hr1)].
  all: destruct ctx as [|[p cp kp vp sp|p cp kp vp sp] ctx']; simpl in Hc;
       [|destruct Hc as (Hp & Hsp & Hc')..].
  all: simpl in Hnd; rewrite ?addrs_T in Hnd; revert Hnd'; nd_explode Hnd.
  all: remember (rotateLeft st (Some a)) as st' eqn:Hst'.
  all: unfold rotateLeft, deref in Hst'; hlook_in Hst'.
  all: intros Hnd'.
  all: subst st'; eapply models_replace; [exact H| | | |exact Hnd'];
       clear Hnd' H.
  all: try (intros x Hx Hne; ctx_cases Hx Hne).
  all: simpl; hlook; try done.
  all: split_and?; hlook; try done; frame_solve.
Qed.

Lemma rotateRight_models st ctx a c k v b cb kb vb ll lr r :
  models st (plug ctx (T a c k v (T b cb kb vb ll lr) r)) ->
  models (rotateRight st (Some a))
         (plug ctx (T b cb kb vb ll (T a c k v lr r))).
Proof.
  intros H. pose proof H as H0.
  apply models_plug in H0 as (Hroot & Hc & Ht & Hnd).
  simpl in Ht. destruct Ht as (Ha & (Hb & Hll & Hlr) & Hr).
  assert (Hnd' : NoDup (addrs (T b cb kb vb ll (T a c k v lr r)) ++ caddrs ctx)).
  { revert Hnd. rewrite !addrs_T, <- !app_assoc. simpl. by rewrite <- !app_assoc. }
  destruct lr as [|c1 cc1 k1 v1 l1 r1]; simpl in Hlr;
    [|destruct Hlr as (Hc1 & Hl1 & Hr1)].
  all: destruct ctx as [|[p cp kp vp sp|p cp kp vp sp] ctx']; simpl in Hc;
       [|destruct Hc as (Hp & Hsp & Hc')..].
  all: simpl in Hnd; rewrite ?addrs_T in Hnd; revert Hnd'; nd_explode Hnd.
  all: remember (rotateRight st (Some a)) as st' eqn:Hst'.
  all: unfold rotateRight, deref in Hst'; hlook_in Hst'.
  all: intros Hnd'.
  all: subst st'; eapply models_replace; [exact H| | | |exact Hnd'];
       clear Hnd' H.
  all: try (intros x Hx Hne; ctx_cases Hx Hne).
  all: simpl; hlook; try done.
  all: split_and?; hlook; try done; frame_solve.
Qed.

(** Updating the data fields of the focused node leaves the links alone. *)
Lemma store_data_models st ctx a c k v l r f c' k' v' :
  (forall pl pr pp,
     f (mkRBNode c k v pl pr pp) = mkRBNode c' k' v' pl pr pp) ->
  models st (plug ctx (T a c k v l r)) ->
  models (store st a f) (plug ctx (T a c' k' v' l r)).
Proof.
  intros Hf H. pose proof H as H0.
  apply models_plug in H0 as (Hroot & Hc & Ht & Hnd).
  simpl in Ht. destruct Ht as (Ha & Hl & Hr).
  assert (Hnd' : NoDup (addrs (T a c' k' v' l r) ++ caddrs ctx)).
  { revert Hnd. by rewrite !addrs_T. }
  destruct ctx as [|fp ctx']; simpl in Hc; [|destruct Hc as (Hp & Hsp & Hc')].
  all: simpl in Hnd; rewrite ?addrs_T in Hnd; revert Hnd'; nd_explode Hnd.
  all: intros Hnd'; eapply models_replace; [exact H| | | |exact Hnd'];
       clear Hnd' H.
  all: try (intros x Hx Hne; ctx_cases Hx Hne).
  all: simpl; hlook; try done.
  all: split_and?; hlook; rewrite ?Hf; try done; frame_solve.
Qed.

Lemma setColor_models st ctx a c k v l r c' :
  models st (plug ctx (T a c k v l r)) ->
  models (setColor st (Some a) c') (plug ctx (T a c' k v l r)).
Proof. by apply store_data_models. Qed.

(** [setColor] through the pointer of any subtree, absent or not. *)
Lemma setColor_paint st ctx t c :
  models st (plug ctx t) ->
  models (setColor st (ptr_of t) c) (plug ctx (paint c t)).
Proof. destruct t; [done|]. apply setColor_models. Qed.

Lemma SetValue_models st ctx a c k v l r v' :
  models st (plug ctx (T a c k v l r)) ->
  models (SetValue st (Some a) v') (plug ctx (T a c k v' l r)).
Proof. by apply store_data_models. Qed.

(** *** The size field is touched by [addNode] and [deleteNode] only *)

Lemma size_store st a f : size (store st a f) = size st.
Proof. done. Qed.

Lemma size_setColor st p c : size (setColor st p c) = size st.
Proof. by destruct p. Qed.

Lemma size_rotateLeft st p : size (rotateLeft st p) = size st.
Proof.
  unfold rotateLeft. repeat (case_match; simpl; try done).
Qed.

Lemma size_rotateRight st p : size (rotateRight st p) = size st.
Proof.
  unfold rotateRight. repeat (case_match; simpl; try done).
Qed.

(** *** Reading through the tree *)

Lemma getColor_models st ctx t :
  models st (plug ctx t) -> getColor (heap_of st) (ptr_of t) = tcolor t.
Proof.
  destruct t; [done|]. intros H. simpl. by rewrite (models_deref _ _ _ _ _ _ _ _ H).
Qed.

Lemma getParent_models st ctx a c k v l r :
  models st (plug ctx (T a c k v l r)) ->
  getParent (heap_of st) (Some a) = cparent ctx.
Proof. intros H. simpl. by rewrite (models_deref _ _ _ _ _ _ _ _ H). Qed.

Lemma getLeft_models st ctx a c k v l r :
  models st (plug ctx (T a c k v l r)) ->
  getLeft (heap_of st) (Some a) = ptr_of l.
Proof. intros H. simpl. by rewrite (models_deref _ _ _ _ _ _ _ _ H). Qed.

Lemma getRight_models st ctx a c k v l r :
  models st (plug ctx (T a c k v l r)) ->
  getRight (heap_of st) (Some a) = ptr_of r.
Proof. intros H. simpl. by rewrite (models_deref _ _ _ _ _ _ _ _ H). Qed.

Lemma getColor_wf h par t : wf h par t -> getColor h (ptr_of t) = tcolor t.
Proof.
  destruct t; [done|]. simpl. intros (Ha & _). by rewrite (deref_lookup _ _ _ Ha).
Qed.

(** The focused node is the root exactly when the context is empty. *)
Lemma root_models st ctx a c k v l r :
  models st (plug ctx (T a c k v l r)) ->
  (root st = Some a <-> ctx = []).
Proof.
  intros H. pose proof H as (Hroot & _ & Hnd)%models_plug.
  split; [|by intros ->].
  rewrite Hroot. destruct ctx as [|f ctx'] using rev_ind; [done|].
  unfold croot. rewrite last_snoc. intros [= Hf]. exfalso.
  apply proj2 in Hnd. rewrite addrs_T in Hnd.
  assert (faddr f ∈ caddrs (ctx' ++ [f])).
  { clear. induction ctx'; simpl; set_solver. }
  apply nd_app in Hnd as (_ & Hd & _). apply (Hd a); [|by rewrite <- Hf].
  set_solver.
Qed.

End Local.

(** The cells of a [models] hypothesis whose tree is given explicitly around
    the focus; [cells_nd] adds the distinctness atoms of its addresses. *)
Ltac cells H :=
  let Hroot := fresh "Hroot" in
  let Hc := fresh "Hc" in
  let Ht := fresh "Ht" in
  pose proof H as (Hroot & Hc & Ht & _)%models_plug;
  cbn in Hroot, Hc, Ht;
  destruct_and? Hc; destruct_and? Ht.

Ltac cells_nd H :=
  let Hnd := fresh "Hnd" in
  pose proof (models_nodup _ _ _ H) as Hnd;
  simpl in Hnd; rewrite ?addrs_T in Hnd; nd_explode_all;
  cells H.

(** Evaluates reads of the heap of opaque states from their cells. *)
Ltac hread_step :=
  first
    [ match goal with
      | H : ?h !! ?x = Some _ |- context [?h !! ?x] => rewrite H
      end
    | match goal with
      | H : wf ?h _ ?t |- context [getColor ?h (ptr_of ?t)] =>
          rewrite (getColor_wf _ _ _ H)
      end
    | match goal with
      | H : tcolor ?t = _ |- context [tcolor ?t] => rewrite H
      end
    | match goal with
      | |- context [setColor ?s None ?c] => change (setColor s None c) with s
      end ].

Ltac hread :=
  repeat first
    [ progress unfold deref
    | hread_step
    | progress cbn
    | match goal with
      | |- context [decide (?x = ?y)] => ptr_decide x y
      end ].

Ltac size_simpl :=
  rewrite ?size_rotateLeft, ?size_rotateRight, ?size_setColor, ?size_store.

(** Forward steps along the states of a fixup, each with its cells. *)
Ltac recolor M ctx a c M' :=
  pose proof (setColor_models _ ctx a _ _ _ _ _ c M) as M'; cells M'.
Ltac repaint M ctx t c M' :=
  pose proof (setColor_paint _ ctx t c M) as M'; cells M'.
Ltac rotL M ctx M' :=
  pose proof (rotateLeft_models _ ctx _ _ _ _ _ _ _ _ _ _ _ M) as M'; cells M'.
Ltac rotR M ctx M' :=
  pose proof (rotateRight_models _ ctx _ _ _ _ _ _ _ _ _ _ _ M) as M'; cells M'.

(** ** Insertion fixup on the heap *)

Section AddFixup.

Context {K V : Type} `{!ZeroValue K, !ZeroValue V, !Comparator K}.
Implicit Types (h : list (RBNode (K:=K) (V:=V))) (st : state (K:=K) (V:=V)).
Implicit Types (t l r : tree (K:=K) (V:=V)) (ctx : list (frame (K:=K) (V:=V))).
Implicit Types (a b : addr) (p q par : ptr).

Local Arguments setColor : simpl never.
Local Arguments rotateLeft : simpl never.
Local Arguments rotateRight : simpl never.
Local Arguments store : simpl never.

Local Arguments getColor : simpl nomatch.

Lemma fixAfterAdd_body_ok st fp fg ctx2 xa xc xk xv xl xr :
  let ctx := fp :: fg :: ctx2 in
  let t := T xa xc xk xv xl xr in
  models st (plug ctx t) ->
  exists st',
    fixAfterAdd_body st (Some xa) = (st', ptr_of (add_step ctx t).2)
    /\ models st' (plug (add_step ctx t).1 (add_step ctx t).2)
    /\ size st' = size st.
Proof.
  intros ctx t H. subst ctx t.
  destruct fp as [p cp kp vp s|p cp kp vp s], fg as [g cg kg vg u|g cg kg vg u].
  all: destruct (tcolor u) eqn:Hu;
    [|destruct u as [|ua cu ku vu ul ur]; simpl in Hu; [done|subst cu]].
  all: cells_nd H.
  all: unfold fixAfterAdd_body, fixAddLeftBlack, fixAddRightBlack, fixUncleRed,
         getUncle, getGrandParent, getBrother, add_step.
  - (* x = p.left, p = g.left, uncle Black *)
    recolor H (InLeft g cg kg vg u :: ctx2) p Black M1.
    recolor M1 ctx2 g Red M2.
    rotR M2 ctx2 M3.
    eexists. split_and!; [|hread; exact M3|]; hread; try done.
    all: by repeat size_simpl.
  - (* x = p.left, p = g.left, uncle Red *)
    recolor H (InLeft g cg kg vg (T ua Red ku vu ul ur) :: ctx2) p Black M1.
    recolor M1 (InRight g cg kg vg (T p Black kp vp (T xa xc xk xv xl xr) s) :: ctx2) ua Black M2.
    recolor M2 ctx2 g Red M3.
    eexists. split_and!; [|hread; exact M3|]; hread; try done.
    all: by repeat size_simpl.
  - (* x = p.left, p = g.right, uncle Black *)
    rotR H (InRight g cg kg vg u :: ctx2) M1.
    recolor M1 (InRight g cg kg vg u :: ctx2) xa Black M2.
    recolor M2 ctx2 g Red M3.
    rotL M3 ctx2 M4.
    eexists. split_and!; [|hread; exact M4|]; hread; try done.
    all: by repeat size_simpl.
  - (* x = p.left, p = g.right, uncle Red *)
    recolor H (InRight g cg kg vg (T ua Red ku vu ul ur) :: ctx2) p Black M1.
    recolor M1 (InLeft g cg kg vg (T p Black kp vp (T xa xc xk xv xl xr) s) :: ctx2) ua Black M2.
    recolor M2 ctx2 g Red M3.
    eexists. split_and!; [|hread; exact M3|]; hread; try done.
    all: by repeat size_simpl.
  - (* x = p.right, p = g.left, uncle Black *)
    rotL H (InLeft g cg kg vg u :: ctx2) M1.
    recolor M1 (InLeft g cg kg vg u :: ctx2) xa Black M2.
    recolor M2 ctx2 g Red M3.
    rotR M3 ctx2 M4.
    eexists. split_and!; [|hread; exact M4|]; hread; try done.
    all: by repeat size_simpl.
  - (* x = p.right, p = g.left, uncle Red *)
    recolor H (InLeft g cg kg vg (T ua Red ku vu ul ur) :: ctx2) p Black M1.
    recolor M1 (InRight g cg kg vg (T p Black kp vp s (T xa xc xk xv xl xr)) :: ctx2) ua Black M2.
    recolor M2 ctx2 g Red M3.
    eexists. split_and!; [|hread; exact M3|]; hread; try done.
    all: by repeat size_simpl.
  - (* x = p.right, p = g.right, uncle Black *)
    recolor H (InRight g cg kg vg u :: ctx2) p Black M1.
    recolor M1 ctx2 g Red M2.
    rotL M2 ctx2 M3.
    eexists. split_and!; [|hread; exact M3|]; hread; try done.
    all: by repeat size_simpl.
  - (* x = p.right, p = g.right, uncle Red *)
    recolor H (InRight g cg kg vg (T ua Red ku vu ul ur) :: ctx2) p Black M1.
    recolor M1 (InLeft g cg kg vg (T p Black kp vp s (T xa xc xk xv xl xr)) :: ctx2) ua Black M2.
    recolor M2 ctx2 g Red M3.
    eexists. split_and!; [|hread; exact M3|]; hread; try done.
    all: by repeat size_simpl.
Qed.

End AddFixup.

(** ** Colour invariants on zippers *)

Section Colours.

Context {K V : Type} `{!ZeroValue K, !ZeroValue V, !Comparator K}.
Implicit Types (h : list (RBNode (K:=K) (V:=V))) (st : state (K:=K) (V:=V)).
Implicit Types (t l r : tree (K:=K) (V:=V)) (ctx : list (frame (K:=K) (V:=V))).
Implicit Types (a b : addr) (p q par d : ptr).

Lemma bhd_fill d f t :
  bhd d (fsib f) = bhd d t ->
  bhd d (fill f t) = (blk d (faddr f) (fcolor f) + bhd d t)%nat.
Proof. destruct f; simpl; lia. Qed.

Lemma tcolor_fill f t : tcolor (fill f t) = fcolor f.
Proof. by destruct f. Qed.

Lemma rbt_fill d f t :
  rbt d (fill f t)
  <-> rbt d t /\ rbt d (fsib f) /\ bhd d (fsib f) = bhd d t
      /\ (fcolor f = Red -> tcolor t = Black /\ tcolor (fsib f) = Black).
Proof. destruct f; simpl; intuition congruence. Qed.

(** A valid subtree in an accepting context is a valid tree. *)
Lemma cok_plug d ctx t :
  rbt d t -> cok d ctx (bhd d t) (tcolor t) ->
  rbt d (plug ctx t) /\ tcolor (plug ctx t) = Black.
Proof.
  revert t. induction ctx as [|f ctx IH]; intros t Ht Hc; simpl in *.
  - done.
  - destruct Hc as (Hs & Hb & Hred & Hc). apply IH.
    + apply rbt_fill. intuition.
    + rewrite bhd_fill, tcolor_fill by done. done.
Qed.

Lemma cok_top_black d f ctx n c c' :
  fcolor f = Black -> cok d (f :: ctx) n c -> cok d (f :: ctx) n c'.
Proof.
  simpl. intros Hf (? & ? & ? & ?).
  split_and!; [done..| |done]. intros; exfalso; congruence.
Qed.

Lemma paint_same t c : tcolor t = c -> paint c t = t.
Proof. destruct t; simpl; congruence. Qed.

Lemma elements_paint c t : elements (paint c t) = elements t.
Proof. by destruct t. Qed.

Lemma ptr_of_paint c t : ptr_of (paint c t) = ptr_of t.
Proof. by destruct t. Qed.

Lemma rbt_paint_black d t : rbt d t -> rbt d (paint Black t).
Proof. destruct t; simpl; intuition congruence. Qed.

Lemma bhd_paint_red d t :
  tcolor t = Red -> bhd d (paint Black t) = S (bhd d t) \/ ptr_of t = d.
Proof.
  destruct t as [|a c k v l r]; simpl; [done|]. intros ->. unfold blk. simpl.
  case_bool_decide; [by right|by left].
Qed.

(** *** The insertion step keeps the invariant and climbs *)

Lemma add_step_elements ctx t :
  elements (plug (add_step ctx t).1 (add_step ctx t).2)
  = elements (plug ctx t).
Proof.
  destruct t as [|xa xc xk xv xl xr]; [done|].
  destruct ctx as [|fp [|fg ctx2]]; [done..|].
  unfold add_step. destruct (negb (tcolor (fsib fg))).
  - destruct fp, fg; simpl; rewrite !elements_plug; simpl;
      rewrite ?elements_paint; repeat (rewrite <- ?app_assoc; simpl); done.
  - destruct fp, fg; simpl; rewrite !elements_plug; simpl;
      repeat (rewrite <- ?app_assoc; simpl); done.
Qed.

Lemma add_inv_grandparent ctx t :
  add_inv ctx t -> parent_red ctx = true ->
  exists fp fg ctx2, ctx = fp :: fg :: ctx2 /\ fcolor fp = Red
                     /\ fcolor fg = Black.
Proof.
  intros (_ & _ & _ & Hc) Hp.
  destruct ctx as [|fp ctx1]; [done|]. simpl in Hp.
  apply negb_true_iff in Hp.
  simpl in Hc. destruct Hc as (_ & _ & _ & Hc).
  destruct ctx1 as [|fg ctx2]; simpl in Hc; [congruence|].
  exists fp, fg, ctx2. split_and!; [done..|].
  destruct Hc as (_ & _ & Hg & _). destruct (fcolor fg); [done|].
  destruct Hg; [done|]. congruence.
Qed.

Lemma add_step_inv ctx t :
  add_inv ctx t -> parent_red ctx = true ->
  add_inv (add_step ctx t).1 (add_step ctx t).2
  /\ (length (add_step ctx t).1 < length ctx)%nat.
Proof.
  intros Hinv Hp.
  destruct (add_inv_grandparent _ _ Hinv Hp) as (fp & fg & ctx2 & -> & Hfp & Hfg).
  destruct Hinv as (Hne & Hred & Ht & Hc).
  destruct t as [|xa xc xk xv xl xr]; [done|]. simpl in Hred. subst xc.
  unfold add_step, add_inv.
  destruct (tcolor (fsib fg)) eqn:Hu; simpl negb; cbv iota.
  - destruct fp as [p cp kp vp s|p cp kp vp s], fg as [g cg kg vg u|g cg kg vg u];
      simpl in *; subst; unfold blk in *; simpl in *;
      (split; [|lia]); split_and!; try done; try lia; intuition (try congruence; try lia).
  - destruct fp as [p cp kp vp s|p cp kp vp s], fg as [g cg kg vg u|g cg kg vg u];
      simpl in *; subst; destruct u as [|ua cu ku vu ul ur]; try done;
      simpl in *; subst; unfold blk in *; simpl in *;
      (split; [|lia]); split_and!; try done; try lia; intuition (try congruence; try lia).
Qed.

End Colours.

(** ** [fixAfterAdd] restores the colour invariants *)

Section FixAfterAdd.

Context {K V : Type} `{!ZeroValue K, !ZeroValue V, !Comparator K}.
Implicit Types (h : list (RBNode (K:=K) (V:=V))) (st : state (K:=K) (V:=V)).
Implicit Types (t l r : tree (K:=K) (V:=V)) (ctx : list (frame (K:=K) (V:=V))).
Implicit Types (a b : addr) (p q par d : ptr).

Lemma color_fcell (f : frame (K:=K) (V:=V)) p q :
  color (fcell f p q) = fcolor f.
Proof. by destruct f. Qed.

Lemma fixAfterAdd_cond_models st ctx xa c k v l r :
  models st (plug ctx (T xa c k v l r)) ->
  fixAfterAdd_cond st (Some xa) = parent_red ctx.
Proof.
  intros H. unfold fixAfterAdd_cond.
  pose proof (root_models _ _ _ _ _ _ _ _ H) as Hroot.
  rewrite (getParent_models _ _ _ _ _ _ _ _ H).
  destruct ctx as [|f ctx'].
  - rewrite (proj2 Hroot eq_refl). simpl.
    rewrite bool_decide_eq_false_2; [done|]. by intros [].
  - simpl.
    rewrite (bool_decide_eq_true_2 (Some xa <> root st))
      by (by intros ?%eq_sym%Hroot).
    simpl.
    apply models_plug in H as (_ & (Hf & _) & _).
    by rewrite (deref_lookup _ _ _ Hf), color_fcell.
Qed.

Lemma fixAfterAdd_loop_ok fuel : forall st ctx t,
  (length ctx < fuel)%nat ->
  models st (plug ctx t) -> add_inv ctx t ->
  exists st' ctx' t',
    fixAfterAdd_loop fuel st (ptr_of t) = Done st'
    /\ models st' (plug ctx' t') /\ add_inv ctx' t'
    /\ parent_red ctx' = false
    /\ elements (plug ctx' t') = elements (plug ctx t)
    /\ size st' = size st.
Proof.
  induction fuel as [|fuel IH]; intros st ctx t Hlen H Hinv; [lia|].
  pose proof Hinv as (Hne & _).
  destruct t as [|xa xc xk xv xl xr]; [done|].
  simpl. rewrite (fixAfterAdd_cond_models _ _ _ _ _ _ _ _ H).
  destruct (parent_red ctx) eqn:Hp.
  - destruct (add_inv_grandparent _ _ Hinv Hp) as (fp & fg & ctx2 & -> & _).
    destruct (fixAfterAdd_body_ok _ _ _ _ _ _ _ _ _ _ H) as (st1 & Hb & H1 & Hs1).
    rewrite Hb.
    destruct (add_step_inv _ _ Hinv Hp) as (Hinv1 & Hlen1).
    destruct (IH st1 _ _ (Nat.lt_le_trans _ _ _ Hlen1 (proj1 (Nat.lt_succ_r _ _) Hlen))
                 H1 Hinv1)
      as (st' & ctx' & t' & Hl & H' & Hinv' & Hp' & He & Hs).
    exists st', ctx', t'. split_and!; try done.
    + by rewrite He, add_step_elements.
    + congruence.
  - exists st, ctx, (T xa xc xk xv xl xr). done.
Qed.

(** The tree after [fixAfterAdd]: valid, with a Black root. *)
Lemma fixAfterAdd_ok fuel st ctx xa c k v l r :
  (length ctx < fuel)%nat ->
  models st (plug ctx (T xa c k v l r)) ->
  add_inv ctx (T xa Red k v l r) ->
  exists st' t',
    fixAfterAdd fuel st (Some xa) = Done st'
    /\ models st' t' /\ rbt None t' /\ tcolor t' = Black
    /\ elements t' = elements (plug ctx (T xa c k v l r))
    /\ size st' = size st.
Proof.
  intros Hlen H Hinv. unfold fixAfterAdd.
  assert (H0 : models (store (log st (CallFixAfterAdd (Some xa))) xa
                             (with_color Red))
                      (plug ctx (T xa Red k v l r))).
  { apply (store_data_models (log st _) ctx xa c k v l r _ Red k v); [done|].
    exact H. }
  destruct (fixAfterAdd_loop_ok fuel _ _ _ Hlen H0 Hinv)
    as (st' & ctx' & t' & Hl & H' & Hinv' & Hp' & He & Hs).
  simpl ptr_of in Hl. rewrite Hl. simpl.
  exists (setColor st' (root st') Black), (paint Black (plug ctx' t')).
  split_and!; [done| | | | |].
  - destruct H' as (Hr & ?). rewrite Hr.
    apply (setColor_paint _ [] _ _). by split.
  - destruct Hinv' as (? & Hred & Ht & Hc).
    destruct ctx' as [|f ctx'']; simpl plug.
    + by apply rbt_paint_black.
    + simpl in Hp'. apply negb_false_iff in Hp'.
      assert (Hc' : cok None (f :: ctx'') (bhd None t') (tcolor t')).
      { by eapply cok_top_black. }
      destruct (cok_plug _ _ _ Ht Hc') as [Hrb Hcol].
      simpl in Hcol. by rewrite paint_same.
  - by destruct (plug ctx' t').
  - rewrite elements_paint, He, !elements_plug. done.
  - by rewrite size_setColor.
Qed.

End FixAfterAdd.

(** ** Searching *)

Section Search.

Context {K V : Type} `{!ZeroValue K, !ZeroValue V, !Comparator K}.
Implicit Types (h : list (RBNode (K:=K) (V:=V))) (st : state (K:=K) (V:=V)).
Implicit Types (t l r : tree (K:=K) (V:=V)) (ctx : list (frame (K:=K) (V:=V))).
Implicit Types (a b : addr) (p q par d : ptr).

Lemma getRBNode_loop_wf fuel : forall h par t key,
  wf h par t -> (height t <= fuel)%nat ->
  getRBNode_loop fuel h key (ptr_of t) = Done (find key t).
Proof.
  induction fuel as [|fuel IH]; intros h par t key Hwf Hh.
  - destruct t; simpl in *; [done|lia].
  - destruct t as [|a c k v l r]; [done|]. simpl in *.
    destruct Hwf as (Ha & Hl & Hr). rewrite (deref_lookup _ _ _ Ha). simpl.
    destruct (compare key k <? 0); [eapply IH; [done|lia]|].
    destruct (compare key k >? 0); [eapply IH; [done|lia]|]. done.
Qed.

Lemma getRBNode_models fuel st t key :
  models st t -> (height t <= fuel)%nat ->
  getRBNode fuel st key = Done (find key t).
Proof.
  intros (Hr & Hwf & _) Hh. unfold getRBNode. rewrite Hr.
  by eapply getRBNode_loop_wf.
Qed.

Lemma addNode_loop_wf fuel : forall h t ctx key (dm : nat) cmp,
  wf h (cparent ctx) t -> (height t <= fuel)%nat ->
  addNode_loop fuel h key (ptr_of t) (ctop dm ctx) cmp
  = Done ((fun pc => (ctop dm pc.1, pc.2)) <$> ins_path key t ctx cmp).
Proof.
  induction fuel as [|fuel IH]; intros h t ctx key dm cmp Hwf Hh.
  - destruct t; simpl in *; [done|lia].
  - destruct t as [|a c k v l r]; [done|]. simpl in *.
    destruct Hwf as (Ha & Hl & Hr). rewrite (deref_lookup _ _ _ Ha). simpl.
    destruct (compare key k <? 0).
    { apply (IH h l (InLeft a c k v r :: ctx)); [done|lia]. }
    destruct (compare key k >? 0).
    { apply (IH h r (InRight a c k v l :: ctx)); [done|lia]. }
    done.
Qed.

(** Where the descent ends. *)
Lemma ins_path_plug key : forall t ctx cmp ctx' cmp',
  ins_path key t ctx cmp = Some (ctx', cmp') ->
  plug ctx' E = plug ctx t
  /\ (length ctx' <= length ctx + height t)%nat
  /\ (Forall (fside key) ctx -> Forall (fside key) ctx')
  /\ (top_cmp key ctx cmp -> top_cmp key ctx' cmp')
  /\ (length ctx + (if t is E then 0 else 1) <= length ctx')%nat.
Proof.
  induction t as [|a c k v l IHl r IHr]; intros ctx cmp ctx' cmp'; simpl.
  - intros [= <- <-]. split_and!; [done|lia|done..|lia].
  - destruct (compare key k <? 0) eqn:E1.
    { apply Z.ltb_lt in E1.
      intros (Hp & Hlen & Hside & Htop & Hne)%IHl. simpl in *.
      split_and!; [done|clear -Hlen; lia| | |].
      - intros Hf. apply Hside. constructor; [|done]. simpl. clear -E1. lia.
      - intros _. by apply Htop.
      - clear -Hne. lia. }
    destruct (compare key k >? 0) eqn:E2; [|done].
    apply Z.gtb_lt in E2.
    intros (Hp & Hlen & Hside & Htop & Hne)%IHr. simpl in *.
    split_and!; [done|clear -Hlen; lia| | |].
    + intros Hf. apply Hside. constructor; [|done]. simpl. clear -E2. lia.
    + intros _. by apply Htop.
    + clear -Hne. lia.
Qed.

End Search.

(** ** [addNode] *)

Section AddNode.

Context {K V : Type} `{!ZeroValue K, !ZeroValue V, !Comparator K}.
Implicit Types (h : list (RBNode (K:=K) (V:=V))) (st : state (K:=K) (V:=V)).
Implicit Types (t l r : tree (K:=K) (V:=V)) (ctx : list (frame (K:=K) (V:=V))).
Implicit Types (a b : addr) (p q par d : ptr).

Lemma cok_of_plug d ctx t :
  rbt d (plug ctx t) -> tcolor (plug ctx t) = Black ->
  rbt d t /\ cok d ctx (bhd d t) (tcolor t).
Proof.
  revert t. induction ctx as [|f ctx IH]; intros t Hrb Hcol; simpl in *.
  - done.
  - destruct (IH _ Hrb Hcol) as [Hf Hc].
    apply rbt_fill in Hf as (Ht & Hs & Hb & Hred).
    rewrite bhd_fill, tcolor_fill in Hc by done. done.
Qed.

(** A heap that agrees with the old one on the addresses of the tree holds
    the same tree. *)
Lemma models_agree st st' t :
  models st t -> root st' = root st ->
  (forall a, a ∈ addrs t -> heap_of st' !! a = heap_of st !! a) ->
  models st' t.
Proof.
  intros (Hr & Hwf & Hnd) Hr' Hag. split_and!; [congruence| |done].
  by eapply wf_agree.
Qed.

Lemma models_lt st t a :
  models st t -> a ∈ addrs t -> (a < length (heap_of st))%nat.
Proof. intros (_ & Hwf & _). by eapply wf_lt. Qed.

(** Objects outside the tree may be allocated and mutated freely. *)
Lemma models_alloc st t n :
  models st t -> models (set_heap st (alloc (heap_of st) n).1) t.
Proof.
  intros H. eapply models_agree; [done|done|]. intros a Ha. simpl.
  apply lookup_app_l. by eapply models_lt.
Qed.

Lemma models_store_outside st t a f :
  models st t -> a ∉ addrs t -> models (store st a f) t.
Proof.
  intros H Ha. eapply models_agree; [done|done|]. intros b Hb. simpl.
  apply list_lookup_alter_ne. by intros ->.
Qed.

(** Linking a new Red leaf below the innermost frame. *)
Lemma link_leaf st f ctx key val :
  models st (plug (f :: ctx) E) ->
  let tn := length (heap_of st) in
  let st1 := set_heap st (heap_of st ++ [mkRBNode Red key val None None
                                                  (Some (faddr f))]) in
  let st2 := store st1 (faddr f)
               (if f is InLeft _ _ _ _ _ then with_left (Some tn)
                else with_right (Some tn)) in
  models st2 (plug (f :: ctx) (T tn Red key val E E)).
Proof.
  intros H tn st1 st2.
  pose proof H as (Hroot & Hc & _ & Hnd)%models_plug.
  simpl in Hc. destruct Hc as (Hf & Hs & Hc).
  assert (Hlt : forall a, a ∈ caddrs (f :: ctx) -> (a < tn)%nat).
  { intros a Ha. eapply models_lt; [done|].
    rewrite addrs_plug_perm. set_solver. }
  assert (Hftn : faddr f <> tn).
  { intros E1. specialize (Hlt (faddr f)). simpl in Hlt.
    rewrite E1 in Hlt. specialize (Hlt ltac:(set_solver)). lia. }
  eapply models_replace; [exact H| | | |].
  - intros x Hx Hne. simpl. rewrite list_lookup_alter_ne.
    + apply lookup_app_l. by apply Hlt.
    + simpl in Hne. congruence.
  - split; [done|]. simpl. rewrite list_lookup_alter_eq.
    rewrite lookup_app_l by (apply Hlt; set_solver).
    rewrite Hf. by destruct f.
  - simpl. split_and!; [|done..].
    rewrite list_lookup_alter_ne by done.
    by apply list_lookup_middle.
  - rewrite addrs_T. simpl. apply NoDup_cons. split.
    + intros Ha%Hlt. lia.
    + by simpl in Hnd.
Qed.

Lemma fixAfterAdd_loop_S fuel st x :
  fixAfterAdd_loop (S fuel) st x
  = if fixAfterAdd_cond st x
    then let (st', x') := fixAfterAdd_body st x in
         fixAfterAdd_loop fuel st' x'
    else Done st.
Proof. done. Qed.

Lemma fixAfterAdd_loop_exit fuel st x :
  fixAfterAdd_cond st x = false -> fixAfterAdd_loop fuel st x = Done st.
Proof. intros H. destruct fuel; simpl; by rewrite H. Qed.

(** [fixAfterAdd] on the first insertion: [tn] hangs below the scratch node
    [dm], which is not the root; the loop recolours [dm] and the root at [a0]
    turns Black. *)
Lemma fixAfterAdd_first fuel st a0 dm tn k v kd vd :
  root st = Some a0 ->
  heap_of st !! a0 = Some (mkRBNode Red k v None None None) ->
  heap_of st !! dm = Some (mkRBNode false kd vd None (Some tn) None) ->
  heap_of st !! tn = Some (mkRBNode Red k v None None (Some dm)) ->
  a0 <> dm -> a0 <> tn -> dm <> tn ->
  exists st',
    fixAfterAdd (S fuel) st (Some tn) = Done st'
    /\ root st' = Some a0
    /\ heap_of st' !! a0 = Some (mkRBNode Black k v None None None)
    /\ size st' = size st.
Proof.
  intros Hroot H0 H1 H2 ? ? ?.
  unfold fixAfterAdd. rewrite fixAfterAdd_loop_S.
  assert (Hcond : fixAfterAdd_cond
                    (store (log st (CallFixAfterAdd (Some tn))) tn
                           (with_color Red)) (Some tn) = true).
  { unfold fixAfterAdd_cond, getParent, getColor, deref.
    cbn -[lookup alter]. hlook. rewrite Hroot.
    by rewrite bool_decide_eq_true_2 by congruence. }
  rewrite Hcond.
  unfold fixAfterAdd_body, fixAddRightBlack, fixAddLeftBlack, fixUncleRed,
    getUncle, getGrandParent, getBrother, getParent, getLeft, getRight,
    getColor, setColor, rotateLeft, rotateRight, deref.
  cbn -[lookup alter fixAfterAdd_loop]. hlook.
  repeat (match goal with
          | |- context [decide (?x = ?y)] => ptr_decide x y
          end; cbn -[lookup alter fixAfterAdd_loop]; hlook).
  rewrite fixAfterAdd_loop_exit.
  - cbn -[lookup alter]. rewrite Hroot. eexists. split_and!; [done|done| |done].
    cbn -[lookup alter]. hlook. done.
  - unfold fixAfterAdd_cond, getParent, getColor, deref.
    cbn -[lookup alter]. hlook. by rewrite andb_false_r.
Qed.

(** The first insertion: the root placeholder becomes the Black root; the
    node [tempNode] hangs below a scratch parent and stays out of the tree. *)
Lemma addNode_empty fuel st na nd :
  root st = None -> heap_of st !! na = Some nd ->
  exists st',
    addNode (S fuel) st (Some na) = Done (st', None)
    /\ models st' (T (length (heap_of st)) Black (Key nd) (Value nd) E E)
    /\ size st' = wrap_int (size st + 1).
Proof.
  intros Hroot Hna. unfold addNode. rewrite Hroot.
  cbn -[fixAfterAdd length app lookup].
  rewrite !length_app. cbn [length]. rewrite !Nat.add_1_r.
  rewrite (deref_lookup _ _ _ Hna).
  set (a0 := length (heap_of st)).
  set (n0 := mkRBNode Red (Key nd) (Value nd) None None None).
  rewrite (deref_lookup ((heap_of st ++ [n0]) ++ [zeroNode]) na nd)
    by (by do 2 apply lookup_app_l_Some).
  set (tc := mkRBNode Red (Key nd) (Value nd) None None (Some (S a0))).
  remember (((heap_of st ++ [n0]) ++ [zeroNode]) ++ [tc]) as h3 eqn:Hh3.
  assert (H0 : h3 !! a0 = Some n0).
  { subst h3. do 2 apply lookup_app_l_Some. by apply list_lookup_middle. }
  assert (H1 : h3 !! S a0 = Some zeroNode).
  { subst h3. apply lookup_app_l_Some. apply list_lookup_middle.
    rewrite length_app. simpl. lia. }
  assert (H2 : h3 !! S (S a0) = Some tc).
  { subst h3. apply list_lookup_middle. rewrite !length_app. simpl. lia. }
  assert (a0 <> S a0) by lia. assert (a0 <> S (S a0)) by lia.
  assert (S a0 <> S (S a0)) by lia.
  clear Hh3. subst n0 tc. unfold zeroNode in H1.
  match goal with
  | |- context [fixAfterAdd _ ?s _] =>
      destruct (fixAfterAdd_first fuel s a0 (S a0) (S (S a0)) (Key nd)
                  (Value nd) zero_value zero_value)
        as (st' & Hfix & Hr' & Ha0 & Hsz)
  end; try done.
  - cbn -[lookup alter]. by hlook.
  - cbn -[lookup alter]. by hlook.
  - cbn -[lookup alter]. by hlook.
  - rewrite Hfix. exists st'. split_and!; [done| |done].
    split_and!; [done| |apply NoDup_singleton]. by simpl.
Qed.

(** A duplicate key: [addNode] returns the error; the only effect is the
    allocation of the scratch parent. *)
Lemma addNode_dup fuel st t na nd :
  models st t -> heap_of st !! na = Some nd -> (height t <= fuel)%nat ->
  ins_path (Key nd) t [] 0 = None ->
  addNode fuel st (Some na)
  = Done (set_heap st (heap_of st ++ [zeroNode]), Some ErrRBTreeSameRBNode).
Proof.
  intros H Hna Hh Hins. pose proof H as (Hroot & Hwf & _).
  destruct t as [|a c k v l r]; [done|].
  unfold addNode. rewrite Hroot.
  cbn -[fixAfterAdd length app lookup addNode_loop].
  rewrite (deref_lookup (heap_of st ++ [zeroNode]) na nd)
    by (by apply lookup_app_l_Some).
  rewrite (addNode_loop_wf fuel (heap_of st ++ [zeroNode])
             (T a c k v l r) [] (Key nd) (length (heap_of st)) 0);
    [|by apply (wf_alloc _ _ _ zeroNode)|done].
  by rewrite Hins.
Qed.

(** A new key: the tree after [addNode] holds the new node at the place
    where the descent ended, and is valid again. *)
Lemma addNode_insert fuel st t na nd ctx' cmp' :
  models st t -> t <> E -> heap_of st !! na = Some nd ->
  (height t < fuel)%nat ->
  ins_path (Key nd) t [] 0 = Some (ctx', cmp') ->
  rbt None t -> tcolor t = Black ->
  exists st' t',
    addNode fuel st (Some na) = Done (st', None)
    /\ models st' t' /\ rbt None t' /\ tcolor t' = Black
    /\ elements t'
       = cleft ctx' ++ (S (length (heap_of st)), (Key nd, Value nd))
                   :: cright ctx'
    /\ size st' = wrap_int (size st + 1).
Proof.
  intros H Hne Hna Hh Hins Hrb Hcol. pose proof H as (Hroot & Hwf & _).
  destruct (ins_path_plug _ _ _ _ _ _ Hins) as (Hp & Hlen & Hside & Htop & Hlen').
  destruct t as [|a c k v l r]; [done|].
  destruct ctx' as [|f ctx'']; [simpl in Hlen'; lia|].
  specialize (Hside ltac:(constructor)). specialize (Htop I).
  apply Forall_cons in Hside as [Hf _]. simpl in Htop.
  unfold addNode. rewrite Hroot.
  cbn -[fixAfterAdd length app lookup addNode_loop].
  rewrite (deref_lookup (heap_of st ++ [zeroNode]) na nd)
    by (by apply lookup_app_l_Some).
  rewrite (addNode_loop_wf fuel (heap_of st ++ [zeroNode])
             (T a c k v l r) [] (Key nd) (length (heap_of st)) 0);
    [|by apply (wf_alloc _ _ _ zeroNode)|lia].
  rewrite Hins. cbn -[fixAfterAdd length app lookup].
  rewrite length_app. cbn [length]. rewrite Nat.add_1_r.
  assert (Hd : models (set_heap st (heap_of st ++ [zeroNode]))
                      (plug (f :: ctx'') E)).
  { rewrite Hp. by apply (models_alloc _ _ zeroNode). }
  pose proof (link_leaf _ _ _ (Key nd) (Value nd) Hd) as Hl.
  cbn -[length app] in Hl. rewrite length_app in Hl. cbn [length] in Hl.
  rewrite Nat.add_1_r in Hl.
  set (st2 := set_size _ _).
  assert (H2 : models st2 (plug (f :: ctx'')
                 (T (S (length (heap_of st))) Red (Key nd) (Value nd) E E))).
  { subst st2. destruct f; simpl in Hf, Htop; subst cmp'.
    - rewrite (proj2 (Z.ltb_lt _ _)) by (clear -Hf; lia). exact Hl.
    - rewrite (proj2 (Z.ltb_ge _ _)) by (clear -Hf; lia). exact Hl. }
  assert (Hinv : add_inv (f :: ctx'')
                   (T (S (length (heap_of st))) Red (Key nd) (Value nd) E E)).
  { split_and!; [done|done|by simpl|].
    change (T a c k v l r) with (plug [] (T a c k v l r)) in Hrb, Hcol.
    rewrite <- Hp in Hrb, Hcol.
    by destruct (cok_of_plug _ _ _ Hrb Hcol) as [_ Hc]. }
  assert (Hfuel : (length (f :: ctx'') < fuel)%nat)
    by (clear -Hlen Hh; simpl in *; lia).
  destruct (fixAfterAdd_ok fuel st2 _ _ _ _ _ _ _ Hfuel H2 Hinv)
    as (st' & t' & Hfix & H' & Hrb' & Hcol' & He & Hs).
  rewrite Hfix. exists st', t'. split_and!; [done..| |].
  - rewrite He, elements_plug. by destruct f.
  - rewrite Hs. subst st2. by destruct (cmp' <? 0).
Qed.

End AddNode.

(** ** The invariants of the specification *)

Section Invariants.

Context {K V : Type} `{!ZeroValue K, !ZeroValue V, !Comparator K}.
Implicit Types (h : list (RBNode (K:=K) (V:=V))) (st : state (K:=K) (V:=V)).
Implicit Types (t l r : tree (K:=K) (V:=V)) (ctx : list (frame (K:=K) (V:=V))).
Implicit Types (a b : addr) (p q par d : ptr).

(** *** Black height, by paths and by recursion *)

Lemma blk_None a c : blk None a c = if c then 1%nat else 0%nat.
Proof. unfold blk. by destruct c. Qed.

Lemma path_blacks_spine t : path_blacks t (bhd None t).
Proof.
  induction t as [|a c k v l IHl r IHr]; simpl; [constructor|].
  rewrite blk_None. by apply path_left.
Qed.

Lemma rbt_paths t m : rbt None t -> path_blacks t m -> m = bhd None t.
Proof.
  intros Hrb Hp. induction Hp as [|a c k v l r n Hp IH|a c k v l r n Hp IH];
    simpl in *; [done|..]; rewrite blk_None; destruct Hrb as (Hl & Hr & Hb & _).
  - by rewrite (IH Hl).
  - by rewrite (IH Hr), Hb.
Qed.

Lemma rbt_no_red_red t : rbt None t -> no_red_red t.
Proof. induction t; simpl; [done|]. intuition. Qed.

Lemma rbt_equal_black_height t : rbt None t -> equal_black_height t.
Proof. intros H. exists (bhd None t). intros m. by apply rbt_paths. Qed.

Lemma equal_black_height_inv a c k v l r :
  equal_black_height (T a c k v l r) ->
  equal_black_height l /\ equal_black_height r /\ bhd None l = bhd None r.
Proof.
  intros [n Hn].
  assert (Hl : forall m, path_blacks l m -> ((if c then 1 else 0) + m = n)%nat).
  { intros m Hm. apply Hn. by constructor. }
  assert (Hr : forall m, path_blacks r m -> ((if c then 1 else 0) + m = n)%nat).
  { intros m Hm. apply Hn. by apply path_right. }
  split_and!.
  - exists (n - (if c then 1 else 0))%nat. intros m Hm%Hl. lia.
  - exists (n - (if c then 1 else 0))%nat. intros m Hm%Hr. lia.
  - pose proof (Hl _ (path_blacks_spine l)).
    pose proof (Hr _ (path_blacks_spine r)). lia.
Qed.

Lemma invariants_rbt t : no_red_red t -> equal_black_height t -> rbt None t.
Proof.
  induction t as [|a c k v l IHl r IHr]; simpl; [done|].
  intros (Hc & Hl & Hr) (Hel & Her & Hb)%equal_black_height_inv.
  split_and!; auto.
Qed.

Lemma rbt_iff t : rbt None t <-> no_red_red t /\ equal_black_height t.
Proof.
  split.
  - intros H. split; [by apply rbt_no_red_red|by apply rbt_equal_black_height].
  - intros [? ?]. by apply invariants_rbt.
Qed.

(** *** Ordering, by subtrees and by the in-order sequence *)

Context `{!ComparatorLaws K}.

Lemma klt_gt (x y : K) : compare x y > 0 <-> klt y x.
Proof. unfold klt. by rewrite compare_antisym. Qed.

Lemma klt_trans (x y z : K) : klt x y -> klt y z -> klt x z.
Proof. apply compare_trans. Qed.

Lemma sorted_bst t : sorted t -> bst t.
Proof.
  unfold sorted. induction t as [|a c k v l IHl r IHr]; simpl; [done|].
  rewrite keys_T, StronglySorted_app, StronglySorted_cons.
  intros (Hlr & Hl & Hkr & Hr). split_and!; auto.
  - apply Forall_forall. intros x Hx. apply (Hlr x k); set_solver.
  - eapply Forall_impl; [exact Hkr|]. intros x Hx. by apply klt_gt.
Qed.

Lemma bst_sorted t : bst t -> sorted t.
Proof.
  unfold sorted. induction t as [|a c k v l IHl r IHr]; simpl; [constructor|].
  rewrite keys_T, StronglySorted_app, StronglySorted_cons.
  intros (Hlk & Hkr & Hl & Hr).
  assert (Hkr' : Forall (klt k) (keys r)).
  { eapply Forall_impl; [exact Hkr|]. intros x Hx. by apply klt_gt. }
  split_and!; auto.
  intros x1 x2 H1 [->|H2]%elem_of_cons.
  - by apply (proj1 (Forall_forall _ _) Hlk).
  - eapply klt_trans.
    + by apply (proj1 (Forall_forall _ _) Hlk).
    + by apply (proj1 (Forall_forall _ _) Hkr').
Qed.

Lemma sorted_iff t : sorted t <-> bst t.
Proof. split; [apply sorted_bst|apply bst_sorted]. Qed.

(** *** The descent finds a key exactly when it is present *)

Lemma present_T key a c k v l r :
  present key (T a c k v l r)
  <-> present key l \/ compare key k = 0 \/ present key r.
Proof.
  unfold present. rewrite keys_T. split.
  - intros (k' & [Hk|[->|Hk]%elem_of_cons]%elem_of_app & Hc); eauto 6.
  - intros [(k' & Hk & Hc)|[Hc|(k' & Hk & Hc)]].
    + exists k'. set_solver.
    + exists k. set_solver.
    + exists k'. set_solver.
Qed.

Lemma ins_path_None key t : forall ctx cmp,
  sorted t -> (ins_path key t ctx cmp = None <-> present key t).
Proof.
  unfold sorted.
  induction t as [|a c k v l IHl r IHr]; intros ctx cmp; simpl.
  - intros _. split; [done|]. intros (k' & Hk & _). by apply elem_of_nil in Hk.
  - rewrite keys_T, StronglySorted_app, StronglySorted_cons, present_T.
    intros (Hlr & Hl & Hkr & Hr).
    assert (Hnl : compare key k >= 0 -> ~ present key l).
    { intros Hge (k' & Hk & Hc).
      assert (klt k' k) by (apply (Hlr k' k); set_solver).
      pose proof (compare_eq_lt key k' k Hc ltac:(done)). lia. }
    assert (Hnr : compare key k <= 0 -> ~ present key r).
    { intros Hle (k' & Hk & Hc).
      assert (klt k k') by (by apply (proj1 (Forall_forall _ _) Hkr)).
      pose proof (compare_eq_gt key k' k Hc ltac:(by apply klt_gt)). lia. }
    destruct (compare key k <? 0) eqn:E1.
    { apply Z.ltb_lt in E1. rewrite IHl by done.
      split; [tauto|]. intros [?|[?|?]]; [done|lia|]. destruct Hnr; [lia|done]. }
    apply Z.ltb_ge in E1.
    destruct (compare key k >? 0) eqn:E2.
    { apply Z.gtb_lt in E2. rewrite IHr by done.
      split; [tauto|]. intros [?|[?|?]]; [|lia|done]. destruct Hnl; [lia|done]. }
    split; [|done]. intros _. right; left.
    pose proof (Zgt_cases (compare key k) 0) as Hc. rewrite E2 in Hc. lia.
Qed.

Lemma find_present key t :
  sorted t -> (find key t <> None <-> present key t).
Proof.
  unfold sorted.
  induction t as [|a c k v l IHl r IHr]; simpl.
  - intros _. split; [done|]. intros (k' & Hk & _). by apply elem_of_nil in Hk.
  - rewrite keys_T, StronglySorted_app, StronglySorted_cons, present_T.
    intros (Hlr & Hl & Hkr & Hr).
    assert (Hnl : compare key k >= 0 -> ~ present key l).
    { intros Hge (k' & Hk & Hc).
      assert (klt k' k) by (apply (Hlr k' k); set_solver).
      pose proof (compare_eq_lt key k' k Hc ltac:(done)). lia. }
    assert (Hnr : compare key k <= 0 -> ~ present key r).
    { intros Hle (k' & Hk & Hc).
      assert (klt k k') by (by apply (proj1 (Forall_forall _ _) Hkr)).
      pose proof (compare_eq_gt key k' k Hc ltac:(by apply klt_gt)). lia. }
    destruct (compare key k <? 0) eqn:E1.
    { apply Z.ltb_lt in E1. rewrite IHl by done.
      split; [tauto|]. intros [?|[?|?]]; [done|lia|]. destruct Hnr; [lia|done]. }
    apply Z.ltb_ge in E1.
    destruct (compare key k >? 0) eqn:E2.
    { apply Z.gtb_lt in E2. rewrite IHr by done.
      split; [tauto|]. intros [?|[?|?]]; [|lia|done]. destruct Hnl; [lia|done]. }
    split; [|done]. intros _. right; left.
    pose proof (Zgt_cases (compare key k) 0) as Hc. rewrite E2 in Hc. lia.
Qed.

End Invariants.

(** ** [Add] keeps the invariants *)

Section Add.

Context {K V : Type} `{!ZeroValue K, !ZeroValue V, !Comparator K}.
Context `{!ComparatorLaws K}.
Implicit Types (h : list (RBNode (K:=K) (V:=V))) (st : state (K:=K) (V:=V)).
Implicit Types (t l r : tree (K:=K) (V:=V)) (ctx : list (frame (K:=K) (V:=V))).
Implicit Types (a b : addr) (p q par d : ptr).

Lemma wrap_int_small z : - 2 ^ 63 <= z < 2 ^ 63 -> wrap_int z = z.
Proof. intros Hz. unfold wrap_int. rewrite Z.mod_small; lia. Qed.

Lemma height_le_length t : (height t <= length (elements t))%nat.
Proof.
  induction t as [|a c k v l IHl r IHr]; simpl; [done|].
  rewrite length_app. simpl. lia.
Qed.

(** The keys left of the place of the descent are smaller than the key, the
    keys right of it greater. *)
Lemma side_bounds key ctx :
  Forall (fside key) ctx ->
  StronglySorted klt ((cleft ctx).*2.*1 ++ (cright ctx).*2.*1) ->
  Forall (fun k => klt k key) (cleft ctx).*2.*1
  /\ Forall (klt key) (cright ctx).*2.*1.
Proof.
  induction ctx as [|f ctx IH]; simpl; [done|].
  intros [Hf Hctx]%Forall_cons.
  destruct f as [a c k v r|a c k v l]; simpl in Hf |- *.
  - rewrite ?fmap_cons, !fmap_app. simpl.
    rewrite StronglySorted_app, StronglySorted_cons, StronglySorted_app.
    intros (H12 & H1 & Hk & H3 & Hr & H2).
    apply Forall_app in Hk as [Hkr Hkc].
    destruct IH as [IH1 IH2]; [done| |].
    { apply StronglySorted_app. split_and!; [|done..].
      intros x1 x2 Hx1 Hx2. apply H12; set_solver. }
    split; [done|]. constructor; [done|]. apply Forall_app. split; [|done].
    eapply Forall_impl; [exact Hkr|]. intros x Hx. by eapply klt_trans.
  - rewrite !fmap_app. simpl. rewrite <- !app_assoc. simpl.
    rewrite StronglySorted_app, StronglySorted_app, StronglySorted_cons.
    intros (H12 & H1 & H23 & Hl & Hk & H2).
    apply klt_gt in Hf.
    destruct IH as [IH1 IH2]; [done| |].
    { apply StronglySorted_app. split_and!; [|done..].
      intros x1 x2 Hx1 Hx2. apply H12; set_solver. }
    split; [|done]. apply Forall_app. split; [done|].
    apply Forall_app. split; [|by repeat constructor].
    apply Forall_forall. intros x Hx. eapply klt_trans; [|exact Hf].
    apply H23; set_solver.
Qed.

Lemma sorted_insert key (E1 E2 : list (addr * (K * V))) tn val :
  StronglySorted klt (E1.*2.*1 ++ E2.*2.*1) ->
  Forall (fun k => klt k key) E1.*2.*1 -> Forall (klt key) E2.*2.*1 ->
  StronglySorted klt (E1 ++ (tn, (key, val)) :: E2).*2.*1.
Proof.
  rewrite !fmap_app, StronglySorted_app. simpl.
  intros (H12 & H1 & H2) Hl Hr.
  apply StronglySorted_app. split_and!; [|done|by constructor].
  intros x1 x2 Hx1 [->|Hx2]%elem_of_cons.
  - by apply (proj1 (Forall_forall _ _) Hl).
  - by apply H12.
Qed.

(** A new key: [Add] succeeds, and the tree holds one more node, at a fresh
    address, in order. *)
Lemma Add_new fuel st t na nd :
  invariants st t -> heap_of st !! na = Some nd ->
  (height t < fuel)%nat ->
  Z.of_nat (length (elements t)) + 1 < 2 ^ 63 ->
  ~ present (Key nd) t ->
  exists st' t' E1 E2 tn,
    Add fuel st (Some na) = Done (st', None)
    /\ invariants st' t'
    /\ elements t = E1 ++ E2
    /\ elements t' = E1 ++ (tn, (Key nd, Value nd)) :: E2
    /\ (length (heap_of st) <= tn)%nat.
Proof.
  intros (H & Hrootb & Hnrr & Hebh & Hbst & Hsize) Hna Hfuel Hbound Hnp.
  assert (Hrb : rbt None t) by (by apply rbt_iff).
  apply sorted_iff in Hbst.
  assert (Hsz : forall st' : state (K:=K) (V:=V),
             forall t', size st' = wrap_int (size st + 1) ->
                   length (elements t') = S (length (elements t)) ->
                   size_ok st' t').
  { intros st' t' Hs Hl. unfold size_ok in *. rewrite Hs, Hl, Hsize.
    rewrite wrap_int_small; lia. }
  destruct t as [|a c k v l r].
  - destruct fuel as [|fuel]; [lia|].
    destruct H as (Hroot & _).
    destruct (addNode_empty fuel st na nd Hroot Hna) as (st' & Hadd & H' & Hs).
    exists st', (T (length (heap_of st)) Black (Key nd) (Value nd) E E),
      [], [], (length (heap_of st)).
    split_and!; [done| |done|done|done].
    split_and!; [done|done|by simpl| | |by apply Hsz].
    + apply rbt_equal_black_height. by simpl.
    + by simpl.
  - destruct (ins_path (Key nd) (T a c k v l r) [] 0) as [[ctx' cmp']|] eqn:Hins;
      [|by apply ins_path_None in Hins].
    destruct (addNode_insert fuel st _ na nd ctx' cmp' H ltac:(done) Hna Hfuel
                Hins Hrb Hrootb)
      as (st' & t' & Hadd & H' & Hrb' & Hcol' & He & Hs).
    destruct (ins_path_plug _ _ _ _ _ _ Hins) as (Hp & _ & Hside & _).
    specialize (Hside ltac:(constructor)).
    assert (Hel : elements (T a c k v l r) = cleft ctx' ++ cright ctx').
    { change (T a c k v l r) with (plug [] (T a c k v l r)).
      rewrite <- Hp, elements_plug. done. }
    exists st', t', (cleft ctx'), (cright ctx'), (S (length (heap_of st))).
    split_and!; [done| |done|done|lia].
    apply rbt_iff in Hrb' as [? ?].
    split_and!; [done..| |].
    + apply sorted_iff. unfold sorted, keys in *. rewrite He.
      rewrite Hel, !fmap_app in Hbst.
      destruct (side_bounds _ _ Hside Hbst).
      by apply sorted_insert.
    + apply Hsz; [done|]. rewrite He, Hel, !length_app. simpl. lia.
Qed.

(** A key that is present: [Add] fails with the duplicate-key error and
    leaves the tree, the size and every object of the heap as they were. *)
Lemma Add_present fuel st t na nd :
  invariants st t -> heap_of st !! na = Some nd ->
  (height t <= fuel)%nat ->
  present (Key nd) t ->
  Add fuel st (Some na)
  = Done (set_heap st (heap_of st ++ [zeroNode]), Some ErrRBTreeSameRBNode).
Proof.
  intros (H & _ & _ & _ & Hbst & _) Hna Hfuel Hp.
  apply sorted_iff in Hbst.
  eapply addNode_dup; [done..|]. by apply ins_path_None.
Qed.

End Add.

(** ** Deletion fixup on the heap *)

Section DeleteFixup.

Context {K V : Type} `{!ZeroValue K, !ZeroValue V, !Comparator K}.
Implicit Types (h : list (RBNode (K:=K) (V:=V))) (st : state (K:=K) (V:=V)).
Implicit Types (t l r : tree (K:=K) (V:=V)) (ctx : list (frame (K:=K) (V:=V))).
Implicit Types (a b p : addr) (q par : ptr).

Local Arguments setColor : simpl never.
Local Arguments rotateLeft : simpl never.
Local Arguments rotateRight : simpl never.
Local Arguments store : simpl never.
Local Arguments getColor : simpl nomatch.

Lemma fixAfterDeleteLeft_split st x :
  fixAfterDeleteLeft st x
  = let sib := getRight (heap_of st) (getParent (heap_of st) x) in
    let '(st, sib) :=
      if negb (getColor (heap_of st) sib) then
        let st := setColor st sib Black in
        let st := setColor st (getParent (heap_of st) sib) Red in
        let st := rotateLeft st (getParent (heap_of st) x) in
        (st, getRight (heap_of st) (getParent (heap_of st) x))
      else (st, sib) in
    fixAfterDeleteLeft_rest st x sib.
Proof. done. Qed.

Lemma fixAfterDeleteRight_split st x :
  fixAfterDeleteRight st x
  = let sib := getLeft (heap_of st) (getParent (heap_of st) x) in
    let '(st, sib) :=
      if negb (getColor (heap_of st) sib) then
        let st := setColor st sib Black in
        let st := setColor st (getParent (heap_of st) x) Red in
        let st := rotateRight st (getParent (heap_of st) x) in
        (st, getBrother (heap_of st) x)
      else (st, sib) in
    fixAfterDeleteRight_rest st x sib.
Proof. done. Qed.

Lemma fixAfterDeleteLeft_rest_ok st p cp kp vp s ctx xa xc xk xv xl xr :
  let t := T xa xc xk xv xl xr in
  models st (plug (InLeft p cp kp vp s :: ctx) t) ->
  exists st',
    fixAfterDeleteLeft_rest st (Some xa) (ptr_of s)
    = (st', ptr_of (del_rest_left p cp kp vp t s ctx).2)
    /\ models st' (plug (del_rest_left p cp kp vp t s ctx).1
                        (del_rest_left p cp kp vp t s ctx).2)
    /\ size st' = size st.
Proof.
  intros t H. subst t.
  unfold fixAfterDeleteLeft_rest, del_rest_left.
  destruct s as [|sa cs ks vs n1 n2].
  { cells_nd H. exists st. split_and!; [|exact H|done]. by hread. }
  destruct (tcolor n1) eqn:Hn1, (tcolor n2) eqn:Hn2; cbn [andb].
  - (* both nephews Black *)
    cells_nd H.
    recolor H (InRight p cp kp vp (T xa xc xk xv xl xr) :: ctx) sa Red M1.
    eexists. split_and!; [|exact M1|by repeat size_simpl]. by hread.
  - (* far nephew Red *)
    destruct n2 as [|na cn kn vn nl nr]; simpl in Hn2; [done|subst cn].
    cells_nd H.
    recolor H (InRight p cp kp vp (T xa xc xk xv xl xr) :: ctx) sa cp M1.
    recolor M1 ctx p Black M2.
    recolor M2 (InRight sa cp ks vs n1
                :: InRight p Black kp vp (T xa xc xk xv xl xr) :: ctx)
            na Black M3.
    rotL M3 ctx M4.
    eexists. split_and!; [|exact M4|by repeat size_simpl].
    hread. by rewrite (proj1 M4).
  - (* near nephew Red, far nephew Black *)
    destruct n1 as [|na cn kn vn nl nr]; simpl in Hn1; [done|subst cn].
    cells_nd H.
    recolor H (InLeft sa cs ks vs n2
               :: InRight p cp kp vp (T xa xc xk xv xl xr) :: ctx)
            na Black M1.
    recolor M1 (InRight p cp kp vp (T xa xc xk xv xl xr) :: ctx) sa Red M2.
    rotR M2 (InRight p cp kp vp (T xa xc xk xv xl xr) :: ctx) M3.
    recolor M3 (InRight p cp kp vp (T xa xc xk xv xl xr) :: ctx) na cp M4.
    recolor M4 ctx p Black M5.
    recolor M5 (InRight na cp kn vn nl
                :: InRight p Black kp vp (T xa xc xk xv xl xr) :: ctx)
            sa Black M6.
    rotL M6 ctx M7.
    eexists. split_and!; [|exact M7|by repeat size_simpl].
    hread. by rewrite (proj1 M7).
  - (* both nephews Red *)
    destruct n2 as [|na cn kn vn nl nr]; simpl in Hn2; [done|subst cn].
    cells_nd H.
    recolor H (InRight p cp kp vp (T xa xc xk xv xl xr) :: ctx) sa cp M1.
    recolor M1 ctx p Black M2.
    recolor M2 (InRight sa cp ks vs n1
                :: InRight p Black kp vp (T xa xc xk xv xl xr) :: ctx)
            na Black M3.
    rotL M3 ctx M4.
    eexists. split_and!; [|exact M4|by repeat size_simpl].
    hread. by rewrite (proj1 M4).
Qed.

Lemma fixAfterDeleteRight_rest_ok st p cp kp vp s ctx xa xc xk xv xl xr :
  let t := T xa xc xk xv xl xr in
  models st (plug (InRight p cp kp vp s :: ctx) t) ->
  exists st',
    fixAfterDeleteRight_rest st (Some xa) (ptr_of s)
    = (st', ptr_of (del_rest_right p cp kp vp t s ctx).2)
    /\ models st' (plug (del_rest_right p cp kp vp t s ctx).1
                        (del_rest_right p cp kp vp t s ctx).2)
    /\ size st' = size st.
Proof.
  intros t H. subst t.
  unfold fixAfterDeleteRight_rest, del_rest_right.
  destruct s as [|sa cs ks vs n1 n2].
  { cells_nd H. exists st. split_and!; [|exact H|done]. by hread. }
  destruct (tcolor n1) eqn:Hn1, (tcolor n2) eqn:Hn2; cbn [andb].
  - (* both nephews Black *)
    cells_nd H.
    recolor H (InLeft p cp kp vp (T xa xc xk xv xl xr) :: ctx) sa Red M1.
    eexists. split_and!; [|exact M1|by repeat size_simpl]. by hread.
  - (* near nephew Red, far nephew Black *)
    destruct n2 as [|na cn kn vn nl nr]; simpl in Hn2; [done|subst cn].
    cells_nd H.
    recolor H (InRight sa cs ks vs n1
               :: InLeft p cp kp vp (T xa xc xk xv xl xr) :: ctx)
            na Black M1.
    recolor M1 (InLeft p cp kp vp (T xa xc xk xv xl xr) :: ctx) sa Red M2.
    rotL M2 (InLeft p cp kp vp (T xa xc xk xv xl xr) :: ctx) M3.
    recolor M3 (InLeft p cp kp vp (T xa xc xk xv xl xr) :: ctx) na cp M4.
    recolor M4 ctx p Black M5.
    recolor M5 (InLeft na cp kn vn nr
                :: InLeft p Black kp vp (T xa xc xk xv xl xr) :: ctx)
            sa Black M6.
    rotR M6 ctx M7.
    eexists. split_and!; [|exact M7|by repeat size_simpl].
    hread. by rewrite (proj1 M7).
  - (* far nephew Red *)
    destruct n1 as [|na cn kn vn nl nr]; simpl in Hn1; [done|subst cn].
    cells_nd H.
    recolor H (InLeft p cp kp vp (T xa xc xk xv xl xr) :: ctx) sa cp M1.
    recolor M1 ctx p Black M2.
    recolor M2 (InLeft sa cp ks vs n2
                :: InLeft p Black kp vp (T xa xc xk xv xl xr) :: ctx)
            na Black M3.
    rotR M3 ctx M4.
    eexists. split_and!; [|exact M4|by repeat size_simpl].
    hread. by rewrite (proj1 M4).
  - (* both nephews Red *)
    destruct n1 as [|na cn kn vn nl nr]; simpl in Hn1; [done|subst cn].
    cells_nd H.
    recolor H (InLeft p cp kp vp (T xa xc xk xv xl xr) :: ctx) sa cp M1.
    recolor M1 ctx p Black M2.
    recolor M2 (InLeft sa cp ks vs n2
                :: InLeft p Black kp vp (T xa xc xk xv xl xr) :: ctx)
            na Black M3.
    rotR M3 ctx M4.
    eexists. split_and!; [|exact M4|by repeat size_simpl].
    hread. by rewrite (proj1 M4).
Qed.

Local Arguments fixAfterDeleteLeft_rest : simpl never.
Local Arguments fixAfterDeleteRight_rest : simpl never.

(** One iteration of the loop of [fixAfterDelete] follows [del_step]. *)
Lemma fixAfterDelete_body_ok st f ctx xa xc xk xv xl xr :
  let t := T xa xc xk xv xl xr in
  models st (plug (f :: ctx) t) ->
  exists st',
    fixAfterDelete_body st (Some xa)
    = Done (st', ptr_of (del_step (f :: ctx) t).2)
    /\ models st' (plug (del_step (f :: ctx) t).1 (del_step (f :: ctx) t).2)
    /\ size st' = size st.
Proof.
  intros t H. subst t. unfold fixAfterDelete_body, del_step.
  destruct f as [p cp kp vp s|p cp kp vp s].
  - assert (Hleft : Some xa = getLeft (heap_of st)
                              (parent (deref (heap_of st) xa))).
    { cells H. by hread. }
    destruct (decide _); [|done]. clear Hleft.
    rewrite fixAfterDeleteLeft_split.
    destruct s as [|sa [|] ks vs sl sr].
    + destruct (fixAfterDeleteLeft_rest_ok _ _ _ _ _ _ _ _ _ _ _ _ _ H)
        as (st' & Hr & H' & Hs).
      exists st'. split_and!; [|done..].
      cells H. cbn [ptr_of] in Hr. hread. by rewrite Hr.
    + destruct (fixAfterDeleteLeft_rest_ok _ _ _ _ _ _ _ _ _ _ _ _ _ H)
        as (st' & Hr & H' & Hs).
      exists st'. split_and!; [|done..].
      cells H. cbn [ptr_of] in Hr. hread. by rewrite Hr.
    + cells_nd H.
      recolor H (InRight p cp kp vp (T xa xc xk xv xl xr) :: ctx) sa Black M1.
      recolor M1 ctx p Red M2.
      rotL M2 ctx M3.
      destruct (fixAfterDeleteLeft_rest_ok _ p Red kp vp sl
                  (InLeft sa Black ks vs sr :: ctx) _ _ _ _ _ _ M3)
        as (st' & Hr & H' & Hs).
      exists st'. split_and!; [|done|by rewrite Hs; repeat size_simpl].
      cbn [ptr_of] in Hr. hread. by rewrite Hr.
  - assert (Hleft : Some xa <> getLeft (heap_of st)
                               (parent (deref (heap_of st) xa))).
    { cells_nd H. hread. intros ?. ptr_absurd. }
    destruct (decide _); [done|]. clear Hleft.
    rewrite fixAfterDeleteRight_split.
    destruct s as [|sa [|] ks vs sl sr].
    + destruct (fixAfterDeleteRight_rest_ok _ _ _ _ _ _ _ _ _ _ _ _ _ H)
        as (st' & Hr & H' & Hs).
      exists st'. split_and!; [|done..].
      cells H. cbn [ptr_of] in Hr. hread. by rewrite Hr.
    + destruct (fixAfterDeleteRight_rest_ok _ _ _ _ _ _ _ _ _ _ _ _ _ H)
        as (st' & Hr & H' & Hs).
      exists st'. split_and!; [|done..].
      cells H. cbn [ptr_of] in Hr. hread. by rewrite Hr.
    + cells_nd H.
      recolor H (InLeft p cp kp vp (T xa xc xk xv xl xr) :: ctx) sa Black M1.
      recolor M1 ctx p Red M2.
      rotR M2 ctx M3.
      destruct (fixAfterDeleteRight_rest_ok _ p Red kp vp sr
                  (InRight sa Black ks vs sl :: ctx) _ _ _ _ _ _ M3)
        as (st' & Hr & H' & Hs).
      exists st'. split_and!; [|done|by rewrite Hs; repeat size_simpl].
      cbn [ptr_of] in Hr. unfold getBrother. hread. by rewrite Hr.
Qed.

End DeleteFixup.

(** ** The deletion step keeps its invariant *)

Section DeleteColours.

Context {K V : Type} `{!ZeroValue K, !ZeroValue V, !Comparator K}.
Implicit Types (h : list (RBNode (K:=K) (V:=V))) (st : state (K:=K) (V:=V)).
Implicit Types (t l r s : tree (K:=K) (V:=V)) (ctx : list (frame (K:=K) (V:=V))).
Implicit Types (a b p : addr) (q par d : ptr).

Lemma blk_fresh d a c : d <> Some a -> blk d a c = if c then 1%nat else 0%nat.
Proof.
  intros Hd. unfold blk. rewrite bool_decide_eq_false_2 by done. by destruct c.
Qed.

Lemma blk_red d a : blk d a Red = 0%nat.
Proof. done. Qed.

(** A Black subtree is accepted wherever any subtree is. *)
Lemma cok_black d ctx n c : cok d ctx n c -> cok d ctx n Black.
Proof. destruct ctx; simpl; [done|]. intuition. Qed.

Lemma has_leaf_fill a f t : has_leaf a t -> has_leaf a (fill f t).
Proof. destruct f; simpl; auto. Qed.

Lemma has_leaf_plug a ctx t : has_leaf a t -> has_leaf a (plug ctx t).
Proof.
  revert t. induction ctx as [|f ctx IH]; intros t Ht; [done|].
  simpl. by apply IH, has_leaf_fill.
Qed.

Lemma has_leaf_addrs a t : has_leaf a t -> a ∈ addrs t.
Proof.
  induction t as [|a' c k v l IHl r IHr]; simpl; [done|]. rewrite addrs_T.
  intros [(-> & _)|[?|?]]; set_solver.
Qed.

Lemma del_rest_left_elements p cp kp vp t s ctx :
  elements (plug (del_rest_left p cp kp vp t s ctx).1
                 (del_rest_left p cp kp vp t s ctx).2)
  = elements (plug ctx (T p cp kp vp t s)).
Proof.
  unfold del_rest_left. destruct s as [|sa cs ks vs n1 n2]; [done|].
  destruct (tcolor n1) eqn:H1, (tcolor n2) eqn:H2; cbn [andb].
  - rewrite !elements_plug. done.
  - simpl. rewrite !elements_plug. simpl. rewrite elements_paint.
    by repeat (rewrite <- ?app_assoc; simpl).
  - destruct n1 as [|na cn kn vn nl nr]; [done|].
    simpl. rewrite !elements_plug. simpl.
    by repeat (rewrite <- ?app_assoc; simpl).
  - simpl. rewrite !elements_plug. simpl. rewrite elements_paint.
    by repeat (rewrite <- ?app_assoc; simpl).
Qed.

Lemma del_rest_right_elements p cp kp vp t s ctx :
  elements (plug (del_rest_right p cp kp vp t s ctx).1
                 (del_rest_right p cp kp vp t s ctx).2)
  = elements (plug ctx (T p cp kp vp s t)).
Proof.
  unfold del_rest_right. destruct s as [|sa cs ks vs n1 n2]; [done|].
  destruct (tcolor n1) eqn:H1, (tcolor n2) eqn:H2; cbn [andb].
  - rewrite !elements_plug. done.
  - destruct n2 as [|na cn kn vn nl nr]; [done|].
    simpl. rewrite !elements_plug. simpl.
    by repeat (rewrite <- ?app_assoc; simpl).
  - simpl. rewrite !elements_plug. simpl. rewrite elements_paint.
    by repeat (rewrite <- ?app_assoc; simpl).
  - simpl. rewrite !elements_plug. simpl. rewrite elements_paint.
    by repeat (rewrite <- ?app_assoc; simpl).
Qed.

Lemma del_step_elements ctx t :
  elements (plug (del_step ctx t).1 (del_step ctx t).2)
  = elements (plug ctx t).
Proof.
  destruct ctx as [|[p cp kp vp s|p cp kp vp s] ctx0]; [done|..]; simpl.
  - destruct s as [|sa [|] ks vs sl sr];
      rewrite del_rest_left_elements, !elements_plug; simpl;
      by repeat (rewrite <- ?app_assoc; simpl).
  - destruct s as [|sa [|] ks vs sl sr];
      rewrite del_rest_right_elements, !elements_plug; simpl;
      by repeat (rewrite <- ?app_assoc; simpl).
Qed.

Lemma fill_not_E (f : frame (K:=K) (V:=V)) t : fill f t <> E.
Proof. by destruct f. Qed.

Lemma plug_not_E ctx t : t <> E -> plug ctx t <> E.
Proof.
  revert t. induction ctx as [|f ctx IH]; intros t Ht; [done|].
  simpl. apply IH, fill_not_E.
Qed.

Lemma del_rest_left_inv d p cp kp vp t s ctx n :
  t <> E -> tcolor t = Black -> rbt d t -> bhd d t = n ->
  rbt d s -> tcolor s = Black -> bhd d s = S n ->
  cok d ctx (blk d p cp + S n) cp ->
  (forall a, d = Some a -> a <> p /\ a ∉ addrs s /\ a ∉ caddrs ctx) ->
  (forall a, d = Some a -> has_leaf a t) ->
  del_inv d (del_rest_left p cp kp vp t s ctx).1
            (del_rest_left p cp kp vp t s ctx).2.
Proof.
  intros Hne Hct Ht Hn Hs Hcs Hbs Hc Hfresh Hleaf.
  assert (Hp : d <> Some p).
  { intros ->. by destruct (Hfresh p eq_refl) as (? & _). }
  assert (Hctx : forall a, d = Some a -> a ∉ caddrs ctx).
  { intros a Ha. by destruct (Hfresh a Ha) as (_ & _ & ?). }
  unfold del_rest_left, del_inv.
  destruct s as [|sa cs ks vs n1 n2]; [done|].
  simpl in Hcs. subst cs.
  assert (Hsa : d <> Some sa).
  { intros ->. destruct (Hfresh sa eq_refl) as (_ & Hni & _).
    apply Hni. rewrite addrs_T. set_solver. }
  simpl in Hs, Hbs. rewrite blk_fresh in Hbs by done.
  destruct Hs as (Hr1 & Hr2 & Hb12 & _).
  rewrite (blk_fresh d p) in Hc by done.
  destruct (tcolor n1) eqn:H1, (tcolor n2) eqn:H2; cbn [andb].
  - simpl. rewrite (blk_fresh d p) by done.
    split_and!; try done; try lia; try (by intros; congruence); auto.
    + apply cok_black in Hc.
      replace (S ((if cp then 1 else 0) + bhd d t))%nat
        with ((if cp then 1 else 0) + S n)%nat by lia. done.
  - destruct n2 as [|na cn kn vn nl nr]; simpl in H2; [done|subst cn].
    assert (Hna : d <> Some na).
    { intros ->. destruct (Hfresh na eq_refl) as (_ & Hni & _).
      apply Hni. rewrite !addrs_T. set_solver. }
    simpl in Hr2, Hb12. simpl.
    destruct Hr2 as (Hnl & Hnr & Hbn & _).
    set (X := T sa cp ks vs (T p Black kp vp t n1) (T na Black kn vn nl nr)).
    assert (HX : rbt d X).
    { simpl. rewrite !blk_fresh by done.
      split_and!; try done; try lia. }
    assert (HcX : cok d ctx (bhd d X) (tcolor X)).
    { simpl. rewrite !blk_fresh by done.
      replace ((if cp then 1 else 0) + (1 + bhd d t))%nat
        with ((if cp then 1 else 0) + S n)%nat by lia. done. }
    destruct (cok_plug _ _ _ HX HcX) as [Hrb Hcol].
    split_and!; [by apply plug_not_E| |done| |].
    + by rewrite paint_same.
    + intros a _. apply not_elem_of_nil.
    + intros a Ha. apply has_leaf_plug. specialize (Hleaf a Ha). simpl. tauto.
  - destruct n1 as [|na cn kn vn nl nr]; simpl in H1; [done|subst cn].
    assert (Hna : d <> Some na).
    { intros ->. destruct (Hfresh na eq_refl) as (_ & Hni & _).
      apply Hni. rewrite !addrs_T. set_solver. }
    simpl in Hr1, Hb12, Hbs. simpl.
    destruct Hr1 as (Hnl & Hnr & Hbn & _).
    set (X := T na cp kn vn (T p Black kp vp t nl) (T sa Black ks vs nr n2)).
    assert (HX : rbt d X).
    { simpl. rewrite !blk_fresh by done.
      split_and!; try done; try lia. }
    assert (HcX : cok d ctx (bhd d X) (tcolor X)).
    { simpl. rewrite !blk_fresh by done.
      replace ((if cp then 1 else 0) + (1 + bhd d t))%nat
        with ((if cp then 1 else 0) + S n)%nat by lia. done. }
    destruct (cok_plug _ _ _ HX HcX) as [Hrb Hcol].
    split_and!; [by apply plug_not_E| |done| |].
    + by rewrite paint_same.
    + intros a _. apply not_elem_of_nil.
    + intros a Ha. apply has_leaf_plug. specialize (Hleaf a Ha). simpl. tauto.
  - destruct n2 as [|na cn kn vn nl nr]; simpl in H2; [done|subst cn].
    assert (Hna : d <> Some na).
    { intros ->. destruct (Hfresh na eq_refl) as (_ & Hni & _).
      apply Hni. rewrite !addrs_T. set_solver. }
    simpl in Hr2, Hb12. simpl.
    destruct Hr2 as (Hnl & Hnr & Hbn & _).
    set (X := T sa cp ks vs (T p Black kp vp t n1) (T na Black kn vn nl nr)).
    assert (HX : rbt d X).
    { simpl. rewrite !blk_fresh by done.
      split_and!; try done; try lia. }
    assert (HcX : cok d ctx (bhd d X) (tcolor X)).
    { simpl. rewrite !blk_fresh by done.
      replace ((if cp then 1 else 0) + (1 + bhd d t))%nat
        with ((if cp then 1 else 0) + S n)%nat by lia. done. }
    destruct (cok_plug _ _ _ HX HcX) as [Hrb Hcol].
    split_and!; [by apply plug_not_E| |done| |].
    + by rewrite paint_same.
    + intros a _. apply not_elem_of_nil.
    + intros a Ha. apply has_leaf_plug. specialize (Hleaf a Ha). simpl. tauto.
Qed.

Lemma del_rest_right_inv d p cp kp vp t s ctx n :
  t <> E -> tcolor t = Black -> rbt d t -> bhd d t = n ->
  rbt d s -> tcolor s = Black -> bhd d s = S n ->
  cok d ctx (blk d p cp + S n) cp ->
  (forall a, d = Some a -> a <> p /\ a ∉ addrs s /\ a ∉ caddrs ctx) ->
  (forall a, d = Some a -> has_leaf a t) ->
  del_inv d (del_rest_right p cp kp vp t s ctx).1
            (del_rest_right p cp kp vp t s ctx).2.
Proof.
  intros Hne Hct Ht Hn Hs Hcs Hbs Hc Hfresh Hleaf.
  assert (Hp : d <> Some p).
  { intros ->. by destruct (Hfresh p eq_refl) as (? & _). }
  assert (Hctx : forall a, d = Some a -> a ∉ caddrs ctx).
  { intros a Ha. by destruct (Hfresh a Ha) as (_ & _ & ?). }
  unfold del_rest_right, del_inv.
  destruct s as [|sa cs ks vs n1 n2]; [done|].
  simpl in Hcs. subst cs.
  assert (Hsa : d <> Some sa).
  { intros ->. destruct (Hfresh sa eq_refl) as (_ & Hni & _).
    apply Hni. rewrite addrs_T. set_solver. }
  simpl in Hs, Hbs. rewrite blk_fresh in Hbs by done.
  destruct Hs as (Hr1 & Hr2 & Hb12 & _).
  rewrite (blk_fresh d p) in Hc by done.
  destruct (tcolor n1) eqn:H1, (tcolor n2) eqn:H2; cbn [andb].
  - simpl. rewrite (blk_fresh d p) by done.
    split_and!; try done; try lia; try (by intros; congruence); auto.
    all: try (intros a Ha; specialize (Hleaf a Ha); tauto).
    all: apply cok_black in Hc.
    all: replace (S ((if cp then 1 else 0) + bhd d n1))%nat
           with ((if cp then 1 else 0) + S n)%nat by lia; done.
  - destruct n2 as [|na cn kn vn nl nr]; simpl in H2; [done|subst cn].
    assert (Hna : d <> Some na).
    { intros ->. destruct (Hfresh na eq_refl) as (_ & Hni & _).
      apply Hni. rewrite !addrs_T. set_solver. }
    simpl in Hr2, Hb12. simpl.
    destruct Hr2 as (Hnl & Hnr & Hbn & _).
    set (X := T na cp kn vn (T sa Black ks vs n1 nl) (T p Black kp vp nr t)).
    assert (HX : rbt d X).
    { simpl. rewrite !blk_fresh by done.
      split_and!; try done; try lia. }
    assert (HcX : cok d ctx (bhd d X) (tcolor X)).
    { simpl. rewrite !blk_fresh by done.
      replace ((if cp then 1 else 0) + (1 + bhd d n1))%nat
        with ((if cp then 1 else 0) + S n)%nat by lia. done. }
    destruct (cok_plug _ _ _ HX HcX) as [Hrb Hcol].
    split_and!; [by apply plug_not_E| |done| |].
    + by rewrite paint_same.
    + intros a _. apply not_elem_of_nil.
    + intros a Ha. apply has_leaf_plug. specialize (Hleaf a Ha). simpl. tauto.
  - destruct n1 as [|na cn kn vn nl nr]; simpl in H1; [done|subst cn].
    assert (Hna : d <> Some na).
    { intros ->. destruct (Hfresh na eq_refl) as (_ & Hni & _).
      apply Hni. rewrite !addrs_T. set_solver. }
    simpl in Hr1, Hb12, Hbs. simpl.
    destruct Hr1 as (Hnl & Hnr & Hbn & _).
    set (X := T sa cp ks vs (T na Black kn vn nl nr) (T p Black kp vp n2 t)).
    assert (HX : rbt d X).
    { simpl. rewrite !blk_fresh by done.
      split_and!; try done; try lia. }
    assert (HcX : cok d ctx (bhd d X) (tcolor X)).
    { simpl. rewrite !blk_fresh by done.
      replace ((if cp then 1 else 0) + (1 + bhd d nl))%nat
        with ((if cp then 1 else 0) + S n)%nat by lia. done. }
    destruct (cok_plug _ _ _ HX HcX) as [Hrb Hcol].
    split_and!; [by apply plug_not_E| |done| |].
    + by rewrite paint_same.
    + intros a _. apply not_elem_of_nil.
    + intros a Ha. apply has_leaf_plug. specialize (Hleaf a Ha). simpl. tauto.
  - destruct n1 as [|na cn kn vn nl nr]; simpl in H1; [done|subst cn].
    assert (Hna : d <> Some na).
    { intros ->. destruct (Hfresh na eq_refl) as (_ & Hni & _).
      apply Hni. rewrite !addrs_T. set_solver. }
    simpl in Hr1, Hb12, Hbs. simpl.
    destruct Hr1 as (Hnl & Hnr & Hbn & _).
    set (X := T sa cp ks vs (T na Black kn vn nl nr) (T p Black kp vp n2 t)).
    assert (HX : rbt d X).
    { simpl. rewrite !blk_fresh by done.
      split_and!; try done; try lia. }
    assert (HcX : cok d ctx (bhd d X) (tcolor X)).
    { simpl. rewrite !blk_fresh by done.
      replace ((if cp then 1 else 0) + (1 + bhd d nl))%nat
        with ((if cp then 1 else 0) + S n)%nat by lia. done. }
    destruct (cok_plug _ _ _ HX HcX) as [Hrb Hcol].
    split_and!; [by apply plug_not_E| |done| |].
    + by rewrite paint_same.
    + intros a _. apply not_elem_of_nil.
    + intros a Ha. apply has_leaf_plug. specialize (Hleaf a Ha). simpl. tauto.
Qed.

(** The step keeps the invariant. *)
Lemma del_step_inv d ctx t :
  del_inv d ctx t -> deficient ctx t = true ->
  del_inv d (del_step ctx t).1 (del_step ctx t).2.
Proof.
  intros (Hne & Hrb & Hc & Hfresh & Hleaf) Hdef.
  destruct ctx as [|f ctx0]; [done|]. simpl in Hdef.
  rewrite paint_same in Hrb by done.
  assert (Hfr : forall a, d = Some a ->
                  a <> faddr f /\ a ∉ addrs (fsib f) /\ a ∉ caddrs ctx0).
  { intros a Ha. specialize (Hfresh a Ha). simpl in Hfresh.
    rewrite not_elem_of_cons, not_elem_of_app in Hfresh. tauto. }
  simpl in Hc. destruct Hc as (Hs & Hbs & Hred & Hc).
  destruct f as [p cp kp vp s|p cp kp vp s]; simpl in *.
  - destruct s as [|sa [|] ks vs sl sr].
    + done.
    + by eapply del_rest_left_inv.
    + assert (cp = Black) as -> by (destruct cp; [done|]; by destruct Hred).
      assert (Hp : d <> Some p).
      { intros ->. by destruct (Hfr p eq_refl) as (? & _). }
      assert (Hsa : d <> Some sa).
      { intros ->. destruct (Hfr sa eq_refl) as (_ & Hni & _).
        apply Hni. rewrite addrs_T. set_solver. }
      simpl in Hs, Hbs. destruct Hs as (Hsl & Hsr & Hb & Hcol).
      destruct Hcol as [Hcl Hcr]; [done|].
      rewrite (blk_fresh d p) in Hc by done.
      eapply del_rest_left_inv; try done.
      * simpl. rewrite (blk_fresh d sa) by done.
        split_and!; [done|congruence|done|done].
      * intros a Ha. destruct (Hfr a Ha) as (? & Hni & ?).
        rewrite addrs_T in Hni. simpl. set_solver.
  - destruct s as [|sa [|] ks vs sl sr].
    + done.
    + by eapply del_rest_right_inv.
    + assert (cp = Black) as -> by (destruct cp; [done|]; by destruct Hred).
      assert (Hp : d <> Some p).
      { intros ->. by destruct (Hfr p eq_refl) as (? & _). }
      assert (Hsa : d <> Some sa).
      { intros ->. destruct (Hfr sa eq_refl) as (_ & Hni & _).
        apply Hni. rewrite addrs_T. set_solver. }
      simpl in Hs, Hbs. destruct Hs as (Hsl & Hsr & Hb & Hcol).
      destruct Hcol as [Hcl Hcr]; [done|].
      rewrite (blk_fresh d p) in Hc by done.
      eapply del_rest_right_inv; try done.
      * congruence.
      * simpl. rewrite (blk_fresh d sa) by done.
        split_and!; [done|congruence|done|].
        by replace (bhd d sr) with (S (bhd d t)) in * by congruence.
      * intros a Ha. destruct (Hfr a Ha) as (? & Hni & ?).
        rewrite addrs_T in Hni. simpl. set_solver.
Qed.

(** The loop goes on for at most the depth of the focus. *)
Lemma del_step_measure ctx t :
  ctx <> [] ->
  deficient (del_step ctx t).1 (del_step ctx t).2 = false
  \/ (length (del_step ctx t).1 < length ctx)%nat.
Proof.
  intros Hne. destruct ctx as [|f ctx0]; [done|].
  assert (G : forall (r : list (frame (K:=K) (V:=V)) * tree (K:=K) (V:=V)),
            r.1 = [] -> deficient r.1 r.2 = false).
  { intros [? ?] ?. simpl in *. by subst. }
  destruct f as [p cp kp vp s|p cp kp vp s]; simpl.
  - destruct s as [|sa [|] ks vs sl sr]; unfold del_rest_left.
    + right. simpl. lia.
    + destruct (tcolor sl && tcolor sr); [right; simpl; lia|].
      destruct (tcolor sr); [destruct sl|]; simpl; (right; lia) || (left; done).
    + destruct sl as [|sa1 c1 k1 v1 n1 n2]; [by left|].
      destruct (tcolor n1 && tcolor n2); [by left|].
      destruct (tcolor n2); [destruct n1|]; simpl; by left.
  - destruct s as [|sa [|] ks vs sl sr]; unfold del_rest_right.
    + right. simpl. lia.
    + destruct (tcolor sr && tcolor sl); [right; simpl; lia|].
      destruct (tcolor sl); [destruct sr|]; simpl; (right; lia) || (left; done).
    + destruct sr as [|sa1 c1 k1 v1 n1 n2]; [by left|].
      destruct (tcolor n2 && tcolor n1); [by left|].
      destruct (tcolor n1); [destruct n2|]; simpl; by left.
Qed.

End DeleteColours.

(** ** [fixAfterDelete] restores the colour invariants *)

Section FixAfterDelete.

Context {K V : Type} `{!ZeroValue K, !ZeroValue V, !Comparator K}.
Implicit Types (h : list (RBNode (K:=K) (V:=V))) (st : state (K:=K) (V:=V)).
Implicit Types (t l r s : tree (K:=K) (V:=V)) (ctx : list (frame (K:=K) (V:=V))).
Implicit Types (a b p : addr) (q par d : ptr).

Lemma fixAfterDelete_cond_models st ctx t :
  models st (plug ctx t) -> t <> E ->
  fixAfterDelete_cond st (ptr_of t) = deficient ctx t.
Proof.
  intros H Hne. unfold fixAfterDelete_cond.
  rewrite (getColor_models _ _ _ H).
  destruct t as [|xa xc xk xv xl xr]; [done|].
  pose proof (root_models _ _ _ _ _ _ _ _ H) as Hroot.
  destruct ctx as [|f ctx'].
  - rewrite (proj2 Hroot eq_refl). simpl.
    rewrite bool_decide_eq_false_2; [done|]. by intros [].
  - simpl. rewrite (bool_decide_eq_true_2 (Some xa <> root st)); [done|].
    by intros ?%eq_sym%Hroot.
Qed.

Lemma fixAfterDelete_loop_ok d fuel : forall st ctx t,
  (deficient ctx t = true -> (length ctx < fuel)%nat) ->
  models st (plug ctx t) -> del_inv d ctx t ->
  exists st' ctx' t',
    fixAfterDelete_loop fuel st (ptr_of t) = Done (st', ptr_of t')
    /\ models st' (plug ctx' t') /\ del_inv d ctx' t'
    /\ deficient ctx' t' = false
    /\ elements (plug ctx' t') = elements (plug ctx t)
    /\ size st' = size st.
Proof.
  induction fuel as [|fuel IH]; intros st ctx t Hlen H Hinv;
    pose proof Hinv as (Hne & _).
  - exists st, ctx, t. simpl.
    rewrite (fixAfterDelete_cond_models _ _ _ H Hne).
    destruct (deficient ctx t); [specialize (Hlen eq_refl); lia|done].
  - simpl. rewrite (fixAfterDelete_cond_models _ _ _ H Hne).
    destruct (deficient ctx t) eqn:Hdef; [|by exists st, ctx, t].
    specialize (Hlen eq_refl).
    destruct ctx as [|f ctx0]; [done|].
    destruct t as [|xa xc xk xv xl xr]; [done|].
    destruct (fixAfterDelete_body_ok _ _ _ _ _ _ _ _ _ H) as (st1 & Hb & H1 & Hs1).
    cbn [ptr_of]. rewrite Hb. cbn [rbind fst snd].
    pose proof (del_step_inv _ _ _ Hinv Hdef) as Hinv1.
    assert (Hlen1 : deficient (del_step (f :: ctx0) (T xa xc xk xv xl xr)).1
                      (del_step (f :: ctx0) (T xa xc xk xv xl xr)).2 = true ->
                    (length (del_step (f :: ctx0) (T xa xc xk xv xl xr)).1
                     < fuel)%nat).
    { intros Hd1.
      destruct (del_step_measure (f :: ctx0) (T xa xc xk xv xl xr))
        as [Hm|Hm]; [done|congruence|]. clear -Hlen Hm. lia. }
    destruct (IH st1 _ _ Hlen1 H1 Hinv1)
      as (st' & ctx' & t' & Hl & H' & Hinv' & Hdef' & He & Hs).
    exists st', ctx', t'. split_and!; try done.
    + by rewrite He, del_step_elements.
    + congruence.
Qed.

Lemma has_leaf_paint a t : has_leaf a t -> has_leaf a (paint Black t).
Proof. destruct t; simpl; [done|]. tauto. Qed.

(** When the loop stops, painting the focus Black repairs the tree. *)
Lemma del_exit d ctx t :
  del_inv d ctx t -> deficient ctx t = false -> NoDup (addrs t) ->
  rbt d (plug ctx (paint Black t))
  /\ tcolor (plug ctx (paint Black t)) = Black.
Proof.
  intros (Hne & Hrb & Hc & Hfresh & Hleaf) Hdef Hnd.
  destruct t as [|a c k v l r]; [done|].
  apply cok_plug; [done|].
  destruct ctx as [|f ctx0]; [done|].
  simpl in Hdef. subst c.
  assert (Hd : d <> Some a).
  { intros ->. specialize (Hleaf a eq_refl). simpl in Hleaf.
    rewrite addrs_T in Hnd. nd_explode_all.
    destruct Hleaf as [(_ & ? & _)|[Hl%has_leaf_addrs|Hl%has_leaf_addrs]]; done. }
  cbn [paint tcolor bhd]. rewrite blk_fresh by done.
  cbn [bhd] in Hc. by rewrite blk_red in Hc.
Qed.

(** The tree after [fixAfterDelete]: valid when the doomed leaf counts as
    absent, with a Black root. *)
Lemma fixAfterDelete_ok d fuel st ctx t :
  (length ctx < fuel)%nat ->
  models st (plug ctx t) -> del_inv d ctx t ->
  exists st' t',
    fixAfterDelete fuel st (ptr_of t) = Done st'
    /\ models st' t' /\ rbt d t' /\ tcolor t' = Black
    /\ elements t' = elements (plug ctx t)
    /\ size st' = size st
    /\ (forall a, d = Some a -> has_leaf a t').
Proof.
  intros Hlen H Hinv. unfold fixAfterDelete.
  destruct (fixAfterDelete_loop_ok d fuel (log st (CallFixAfterDelete (ptr_of t)))
              ctx t ltac:(done) H Hinv)
    as (st' & ctx' & t' & Hl & H' & Hinv' & Hdef' & He & Hs).
  rewrite Hl. cbn [rbind fst snd].
  exists (setColor st' (ptr_of t') Black), (plug ctx' (paint Black t')).
  assert (Hnd : NoDup (addrs t')).
  { apply models_nodup in H'. by apply nd_app in H' as (? & _). }
  destruct (del_exit _ _ _ Hinv' Hdef' Hnd) as [Hrb Hcol].
  split_and!; [done|by apply setColor_paint|done|done| |by rewrite size_setColor|].
  - rewrite <- He, !elements_plug, elements_paint. done.
  - intros a Ha. destruct Hinv' as (_ & _ & _ & _ & Hleaf).
    by apply has_leaf_plug, has_leaf_paint, Hleaf.
Qed.

End FixAfterDelete.

(** ** [deleteNode] *)

Section DeleteNode.

Context {K V : Type} `{!ZeroValue K, !ZeroValue V, !Comparator K}.
Implicit Types (h : list (RBNode (K:=K) (V:=V))) (st : state (K:=K) (V:=V)).
Implicit Types (t l r : tree (K:=K) (V:=V)) (ctx : list (frame (K:=K) (V:=V))).
Implicit Types (a b p : addr) (q par d : ptr).

Local Arguments splice_child : simpl never.
Local Arguments unlink_node : simpl never.

Lemma deleteNode_split fuel st n0 :
  deleteNode fuel st (Some n0)
  = let! r := (if bool_decide (left (deref (heap_of st) n0) <> None)
                  && bool_decide (right (deref (heap_of st) n0) <> None)
               then
                 let! s := getSuccessor fuel (heap_of st) (Some n0) in
                 match s with
                 | None => Panic
                 | Some sa =>
                     let st := store st n0
                                 (with_Key (Key (deref (heap_of st) sa))) in
                     let st := store st n0
                                 (with_Value (Value (deref (heap_of st) sa))) in
                     Done (st, sa)
                 end
               else Done (st, n0)) in
    deleteNode_splice fuel r.1 r.2.
Proof.
  unfold deleteNode, deleteNode_splice, unlink_node, splice_child.
  destruct (_ && _); cbn [rbind]; [|cbn [fst snd]].
  1: destruct (getSuccessor _ _ _) as [[s|]| |]; cbn [rbind fst snd]; try done.
  all: unfold rbind; repeat case_match; simplify_eq; try done.

Qed.

(** Promoting the single child [rep] of the node [dn]. *)
Lemma splice_child_models st ctx dn dc dk dv dl dr ra rc rk rv :
  let rep := T ra rc rk rv E E in
  (dl = E /\ dr = rep) \/ (dl = rep /\ dr = E) ->
  models st (plug ctx (T dn dc dk dv dl dr)) ->
  models (splice_child st dn ra) (plug ctx rep)
  /\ color (deref (heap_of (splice_child st dn ra)) dn) = dc
  /\ size (splice_child st dn ra) = size st
  /\ calls (splice_child st dn ra) = calls st.
Proof.
  intros rep Hshape H. subst rep.
  assert (Hnd' : NoDup (addrs (T ra rc rk rv E E) ++ caddrs ctx)).
  { apply models_nodup in H. revert H.
    destruct Hshape as [[-> ->]|[-> ->]]; rewrite ?addrs_T, ?addrs_E; simpl;
      rewrite <- ?app_assoc; simpl; rewrite ?nd_app, ?nd_cons, ?dj_cons_r, ?dj_cons_l, ?ni_cons;
      tauto. }
  destruct Hshape as [[-> ->]|[-> ->]].
  all: destruct ctx as [|[p cp kp vp sp|p cp kp vp sp] ctx'].
  all: revert Hnd'; cells_nd H; intros Hnd'.
  all: remember (splice_child st dn ra) as st' eqn:Hst'.
  all: unfold splice_child, deref in Hst'; hlook_in Hst'.
  all: subst st'; split_and!; [|unfold deref; by hlook|done..].
  all: eapply models_replace; [exact H| | | |exact Hnd']; clear Hnd' H.
  all: try (intros x Hx Hne; ctx_cases Hx Hne).
  all: simpl; hlook; try done.
  all: split_and?; hlook; try done; frame_solve.
Qed.

(** Detaching the childless node [a] from its parent. *)
Lemma unlink_node_models st f ctx a c k v :
  models st (plug (f :: ctx) (T a c k v E E)) ->
  models (unlink_node st a) (plug (f :: ctx) E)
  /\ size (unlink_node st a) = size st
  /\ calls (unlink_node st a) = calls st.
Proof.
  intros H.
  assert (Hnd' : NoDup (addrs (K:=K) (V:=V) E ++ caddrs (f :: ctx))).
  { apply models_nodup in H. revert H. rewrite ?addrs_T, ?addrs_E. simpl.
    rewrite ?nd_cons. tauto. }
  destruct f as [p cp kp vp sp|p cp kp vp sp].
  all: revert Hnd'; cells_nd H; intros Hnd'.
  all: remember (unlink_node st a) as st' eqn:Hst'.
  all: unfold unlink_node, deref in Hst'; hlook_in Hst'.
  all: subst st'; split_and!; [|done..].
  all: eapply models_replace; [exact H| | | |exact Hnd']; clear Hnd' H.
  all: try (intros x Hx Hne; ctx_cases Hx Hne).
  all: simpl; hlook; try done.
  all: split_and?; hlook; try done; frame_solve.
Qed.

Lemma height_fill (f : frame (K:=K) (V:=V)) t :
  (S (height t) <= height (fill f t))%nat.
Proof. destruct f; simpl; lia. Qed.

Lemma height_plug ctx t : (length ctx + height t <= height (plug ctx t))%nat.
Proof.
  revert t. induction ctx as [|f ctx IH]; intros t; simpl; [lia|].
  specialize (IH (fill f t)). pose proof (height_fill f t). lia.
Qed.

(** *** The leftmost node *)

Lemma min_zip_plug t : forall ctx,
  plug (min_zip t ctx).1 (min_zip t ctx).2 = plug ctx t.
Proof.
  induction t as [|a c k v l IHl r _]; intros ctx; [done|].
  simpl. destruct l as [|la lc lk lv ll lr]; [done|].
  rewrite IHl. done.
Qed.

Lemma min_zip_shape t : forall ctx,
  t <> E -> exists s cs ks vs sr, (min_zip t ctx).2 = T s cs ks vs E sr.
Proof.
  induction t as [|a c k v l IHl r _]; intros ctx Hne; [done|].
  simpl. destruct l as [|la lc lk lv ll lr]; [by eauto 6|].
  by apply IHl.
Qed.

Lemma min_zip_length t : forall ctx,
  t <> E -> (S (length (min_zip t ctx).1) <= length ctx + height t)%nat.
Proof.
  induction t as [|a c k v l IHl r _]; intros ctx Hne; [done|].
  cbn [min_zip]. destruct l as [|la lc lk lv ll lr]; [simpl; lia|].
  specialize (IHl (InLeft a c k v r :: ctx) ltac:(done)).
  change (height (T a c k v (T la lc lk lv ll lr) r))
    with (S (height (T la lc lk lv ll lr) `max` height r)).
  cbn [length] in IHl. lia.
Qed.

Lemma min_zip_cleft t : forall ctx, cleft (min_zip t ctx).1 = cleft ctx.
Proof.
  induction t as [|a c k v l IHl r _]; intros ctx; [done|].
  simpl. destruct l as [|la lc lk lv ll lr]; [done|].
  by rewrite IHl.
Qed.

Lemma leftmost_loop_wf fuel : forall h par a c k v l r ctx,
  wf h par (T a c k v l r) -> (height (T a c k v l r) <= S fuel)%nat ->
  exists s, leftmost_loop fuel h a = Done s
            /\ ptr_of (min_zip (T a c k v l r) ctx).2 = Some s.
Proof.
  induction fuel as [|fuel IH]; intros h par a c k v l r ctx Hwf Hh.
  - destruct l as [|la lc lk lv ll lr]; [|simpl in Hh; lia].
    simpl in Hwf. destruct Hwf as (Ha & _).
    exists a. simpl. by rewrite (deref_lookup _ _ _ Ha).
  - pose proof Hwf as (Ha & Hl & _).
    destruct l as [|la lc lk lv ll lr].
    + exists a. simpl. by rewrite (deref_lookup _ _ _ Ha).
    + destruct (IH h (Some a) la lc lk lv ll lr (InLeft a c k v r :: ctx) Hl)
        as (s & Hs & Hp).
      { change (height (T a c k v (T la lc lk lv ll lr) r))
          with (S (height (T la lc lk lv ll lr) `max` height r)) in Hh. lia. }
      exists s. split; [|done].
      cbn [leftmost_loop]. rewrite (deref_lookup _ _ _ Ha). done.
Qed.

(** *** The doomed leaf *)

Lemma plug_app ctx1 ctx2 t : plug (ctx1 ++ ctx2) t = plug ctx2 (plug ctx1 t).
Proof. revert t. induction ctx1 as [|f ctx1 IH]; intros t; simpl; [done|apply IH]. Qed.

Lemma has_leaf_zipper a t :
  has_leaf a t -> exists ctx k v, t = plug ctx (T a Black k v E E).
Proof.
  induction t as [|a' c k v l IHl r IHr]; simpl; [done|].
  intros [(-> & -> & -> & ->)|[Hl|Hr]].
  - by exists [], k, v.
  - destruct (IHl Hl) as (ctx & k' & v' & ->).
    exists (ctx ++ [InLeft a' c k v r]), k', v'. by rewrite plug_app.
  - destruct (IHr Hr) as (ctx & k' & v' & ->).
    exists (ctx ++ [InRight a' c k v l]), k', v'. by rewrite plug_app.
Qed.

Lemma bhd_fresh a t : a ∉ addrs t -> bhd (Some a) t = bhd None t.
Proof.
  induction t as [|a' c k v l IHl r IHr]; [done|]. rewrite addrs_T.
  rewrite ni_app, ni_cons. intros (Hl & Hne & Hr). simpl.
  rewrite IHl by done. f_equal. rewrite !blk_fresh; [done..|congruence].
Qed.

Lemma rbt_fresh a t : a ∉ addrs t -> rbt (Some a) t <-> rbt None t.
Proof.
  induction t as [|a' c k v l IHl r IHr]; [done|]. rewrite addrs_T.
  rewrite ni_app, ni_cons. intros (Hl & Hne & Hr). simpl.
  rewrite IHl, IHr, !bhd_fresh by done. done.
Qed.

Lemma cok_fresh a ctx : forall n c,
  a ∉ caddrs ctx -> cok (Some a) ctx n c <-> cok None ctx n c.
Proof.
  induction ctx as [|f ctx IH]; intros n c; [done|]. simpl.
  rewrite ni_cons, ni_app. intros (Hne & Hs & Hc).
  rewrite rbt_fresh, bhd_fresh, !blk_fresh, IH by (done || congruence). done.
Qed.

(** *** Nodes with at most one child in a valid tree *)

Lemma rbt_bhd0 t :
  rbt None t -> bhd None t = O ->
  t = E \/ exists a k v, t = T a Red k v E E.
Proof.
  induction t as [|a c k v l IHl r IHr]; [by left|]. simpl.
  intros (Hl & Hr & Hb & Hc) H0. right.
  destruct c; [unfold blk in H0; simpl in H0; lia|].
  rewrite blk_red in H0. simpl in H0.
  destruct Hc as [Hcl Hcr]; [done|].
  destruct (IHl Hl H0) as [->|(? & ? & ? & ->)]; [|done].
  destruct (IHr Hr) as [->|(? & ? & ? & ->)]; [by rewrite <- Hb| |done].
  by exists a, k, v.
Qed.

Lemma rbt_one_child a c k v l r :
  rbt None (T a c k v l r) -> (l = E /\ r <> E) \/ (l <> E /\ r = E) ->
  c = Black
  /\ exists ra rk rv, (l = E /\ r = T ra Red rk rv E E)
                      \/ (l = T ra Red rk rv E E /\ r = E).
Proof.
  simpl. intros (Hl & Hr & Hb & Hc) [[-> Hne]|[Hne ->]]; simpl in Hb.
  - destruct (rbt_bhd0 r Hr) as [->|(ra & rk & rv & ->)]; [done..|].
    split; [|by eauto 10]. destruct c; [done|]. by destruct Hc.
  - destruct (rbt_bhd0 l Hl) as [->|(ra & rk & rv & ->)]; [done..|].
    split; [|by eauto 10]. destruct c; [done|]. by destruct Hc.
Qed.

(** *** The log of calls only grows *)

Lemma calls_store st a f : calls (store st a f) = calls st.
Proof. done. Qed.

Lemma calls_setColor st q c : calls (setColor st q c) = calls st.
Proof. by destruct q. Qed.

Lemma calls_rotateLeft st q :
  calls (rotateLeft st q) = CallRotateLeft q :: calls st.
Proof. unfold rotateLeft. repeat case_match; done. Qed.

Lemma calls_rotateRight st q :
  calls (rotateRight st q) = CallRotateRight q :: calls st.
Proof. unfold rotateRight. repeat case_match; done. Qed.

Lemma calls_fixAfterDeleteLeft st q :
  exists evs, calls (fixAfterDeleteLeft st q).1 = evs ++ calls st.
Proof.
  unfold fixAfterDeleteLeft.
  cbv beta zeta.
  repeat (match goal with |- context [if ?b then _ else _] => destruct b end;
          cbv beta iota zeta);
    cbn [fst snd];
    repeat first [ rewrite calls_setColor | rewrite calls_rotateLeft
                 | rewrite calls_rotateRight ];
    first [ by exists [] | by eexists [_] | by eexists [_; _]
          | by eexists [_; _; _] ].
Qed.

Lemma calls_fixAfterDeleteRight st q :
  exists evs, calls (fixAfterDeleteRight st q).1 = evs ++ calls st.
Proof.
  unfold fixAfterDeleteRight.
  cbv beta zeta.
  repeat (match goal with |- context [if ?b then _ else _] => destruct b end;
          cbv beta iota zeta);
    cbn [fst snd];
    repeat first [ rewrite calls_setColor | rewrite calls_rotateLeft
                 | rewrite calls_rotateRight ];
    first [ by exists [] | by eexists [_] | by eexists [_; _]
          | by eexists [_; _; _] ].
Qed.

Lemma calls_fixAfterDelete_loop fuel : forall st q st' q',
  fixAfterDelete_loop fuel st q = Done (st', q') ->
  exists evs, calls st' = evs ++ calls st.
Proof.
  induction fuel as [|fuel IH]; intros st q st' q'; simpl.
  - destruct (fixAfterDelete_cond st q); [done|]. intros [= <- <-]. by exists [].
  - destruct (fixAfterDelete_cond st q); [|intros [= <- <-]; by exists []].
    unfold fixAfterDelete_body. destruct q as [a|]; [|done].
    destruct (decide _); cbn [rbind]; intros (evs & Hevs)%IH.
    + destruct (calls_fixAfterDeleteLeft st (Some a)) as (evs' & Hevs').
      exists (evs ++ evs'). by rewrite Hevs, Hevs', app_assoc.
    + destruct (calls_fixAfterDeleteRight st (Some a)) as (evs' & Hevs').
      exists (evs ++ evs'). by rewrite Hevs, Hevs', app_assoc.
Qed.

Lemma calls_fixAfterDelete fuel st q st' :
  fixAfterDelete fuel st q = Done st' ->
  exists evs, calls st' = evs ++ CallFixAfterDelete q :: calls st.
Proof.
  unfold fixAfterDelete.
  destruct (fixAfterDelete_loop _ _ _) as [[st1 q1]| |] eqn:Hl; [|done..].
  cbn [rbind fst snd]. intros [= <-].
  apply calls_fixAfterDelete_loop in Hl as (evs & Hevs).
  exists evs. by rewrite calls_setColor, Hevs.
Qed.

Lemma app_cons_unique {A B} (xs : list (A * B)) :
  forall (xs' ys ys' : list (A * B)) (x : A) (y y' : B),
  NoDup ((xs ++ (x, y) :: ys).*1) ->
  xs ++ (x, y) :: ys = xs' ++ (x, y') :: ys' ->
  xs = xs' /\ y = y' /\ ys = ys'.
Proof.
  induction xs as [|z xs IH]; intros xs' ys ys' x y y' Hnd Heq.
  - destruct xs' as [|z' xs']; simpl in *.
    + by simplify_eq.
    + simplify_eq. apply NoDup_cons in Hnd as [Hn _]. exfalso. apply Hn.
      rewrite fmap_app. set_solver.
  - destruct xs' as [|z' xs']; simpl in *.
    + simplify_eq. apply NoDup_cons in Hnd as [Hn _]. exfalso. apply Hn.
      rewrite fmap_app. simpl. set_solver.
    + injection Heq as -> Heq. apply NoDup_cons in Hnd as [_ Hnd].
      destruct (IH _ _ _ _ _ _ Hnd Heq) as (-> & -> & ->). done.
Qed.

Lemma cleft_cright_nil (f : frame (K:=K) (V:=V)) ctx :
  cleft (f :: ctx) = [] -> cright (f :: ctx) = [] -> False.
Proof.
  destruct f; simpl; [done|]. intros Hl _.
  apply app_eq_nil in Hl as [_ Hl]. apply app_eq_nil in Hl as [_ Hl]. done.
Qed.

(** The removal of a node with at most one child from a valid tree. *)
Lemma deleteNode_splice_ok fuel st ctx dn dc dk dv dl dr :
  let t0 := plug ctx (T dn dc dk dv dl dr) in
  models st t0 -> rbt None t0 -> tcolor t0 = Black ->
  dl = E \/ dr = E -> (length ctx < fuel)%nat ->
  exists st' t',
    deleteNode_splice fuel st dn = Done st'
    /\ models st' t' /\ rbt None t' /\ tcolor t' = Black
    /\ elements t' = cleft ctx ++ elements dl ++ elements dr ++ cright ctx
    /\ size st' = wrap_int (size st - 1)
    /\ (dc = Red \/ (ctx = [] /\ dl = E /\ dr = E) ->
        calls st' = calls st /\ t' = plug ctx E)
    /\ (dc = Black -> ~ (ctx = [] /\ dl = E /\ dr = E) ->
        exists evs q, calls st' = evs ++ CallFixAfterDelete q :: calls st).
Proof.
  intros t0 H Hrb Hroot Hshape Hfuel. subst t0.
  pose proof (models_deref _ _ _ _ _ _ _ _ H) as Hd.
  destruct (cok_of_plug _ _ _ Hrb Hroot) as [HrbD Hcok].
  assert (Hcases : (dl = E /\ dr = E)
                   \/ ((dl = E /\ dr <> E) \/ (dl <> E /\ dr = E))).
  { clear -Hshape. destruct dl, dr; naive_solver. }
  clear Hshape. destruct Hcases as [[-> ->]|Hone].
  - unfold deleteNode_splice. rewrite Hd. cbn [left right parent color ptr_of].
    destruct ctx as [|f ctx'].
    + cbn [cparent rbind].
      eexists _, E. split; [done|]. split_and!; try done.
      * split_and!; [done..|]. apply NoDup_nil_2.
      * intros _ Hn. by destruct Hn.
    + cbn [cparent]. destruct dc.
      * assert (Hnd0 : dn ∉ caddrs (f :: ctx')).
        { pose proof (models_nodup _ _ _ H) as Hnd.
          rewrite addrs_T, addrs_E in Hnd. simpl in Hnd.
          by apply NoDup_cons in Hnd as [Hfresh _]. }
        assert (Hinv : del_inv (Some dn) (f :: ctx') (T dn Black dk dv E E)).
        { split_and!.
          - done.
          - done.
          - apply cok_fresh; [done|]. simpl bhd. unfold blk.
            rewrite bool_decide_eq_true_2 by done. exact Hcok.
          - by intros a [= <-].
          - intros a [= <-]. simpl. by left. }
        destruct (fixAfterDelete_ok (Some dn) fuel st (f :: ctx') _ Hfuel H Hinv)
          as (st1 & t1 & Hfix & H1 & Hrb1 & Hc1 & Hel1 & Hs1 & Hleaf1).
        cbn [ptr_of] in Hfix. rewrite Hfix. cbn [rbind].
        destruct (has_leaf_zipper _ _ (Hleaf1 dn eq_refl))
          as (cz & k' & v' & ->).
        assert (Hnd1 : NoDup ((cleft cz ++ (dn, (k', v')) :: cright cz).*1)).
        { destruct H1 as (_ & _ & Hnd1). unfold addrs in Hnd1.
          by rewrite elements_plug in Hnd1. }
        rewrite !elements_plug in Hel1. simpl in Hel1.
        destruct (app_cons_unique _ _ _ _ _ _ _ Hnd1 Hel1) as (Hcl & _ & Hcr).
        destruct cz as [|fz cz'].
        { exfalso. by eapply (cleft_cright_nil f ctx'). }
        destruct (unlink_node_models _ _ _ _ _ _ _ H1) as (H' & Hs & Hc).
        assert (Hv : rbt None (plug (fz :: cz') E)
                     /\ tcolor (plug (fz :: cz') E) = Black).
        { destruct (cok_of_plug _ _ _ Hrb1 Hc1) as [_ Hcz].
          apply cok_plug; [done|].
          simpl bhd in Hcz. unfold blk in Hcz.
          rewrite bool_decide_eq_true_2 in Hcz by done.
          eapply cok_fresh; [|exact Hcz].
          pose proof (models_nodup _ _ _ H1) as Hnd.
          rewrite addrs_T, addrs_E in Hnd. simpl in Hnd.
          by apply NoDup_cons in Hnd as [Hfresh _]. }
        eexists _, _. split; [done|].
        split_and!; [exact H'|apply Hv|apply Hv| |by rewrite Hs, Hs1| |].
        -- rewrite elements_plug, Hcl, Hcr. done.
        -- by intros [?|(? & _)].
        -- intros _ _. apply calls_fixAfterDelete in Hfix as (evs & Hevs).
           exists evs, (Some dn). cbn [calls set_size]. by rewrite Hc.
      * cbn [rbind].
        destruct (unlink_node_models _ _ _ _ _ _ _ H) as (H' & Hs & Hc).
        eexists _, _. split; [done|]. split_and!; [exact H'| | | |by rewrite Hs|done|done].
        -- eapply cok_plug; [done|]. by eapply cok_black.
        -- eapply cok_plug; [done|]. by eapply cok_black.
        -- by rewrite elements_plug.
  - destruct (rbt_one_child _ _ _ _ _ _ HrbD Hone) as (-> & ra & rk & rv & Hsh).
    destruct (splice_child_models st ctx dn Black dk dv dl dr ra Red rk rv Hsh H)
      as (H1 & Hcol & Hs1 & Hc1).
    unfold deleteNode_splice. rewrite Hd. cbn [left right parent color].
    assert (Hrep : match ptr_of dl with Some l => Some l | None => ptr_of dr end
                   = Some ra).
    { by destruct Hsh as [[-> ->]|[-> ->]]. }
    rewrite Hrep. cbv zeta. rewrite Hcol.
    assert (Hinv : del_inv None ctx (T ra Red rk rv E E)).
    { split_and!; try done.
      replace (bhd None (T ra Red rk rv E E)) with O by done.
      replace 1%nat with (bhd None (T dn Black dk dv dl dr)); [exact Hcok|].
      by destruct Hsh as [[-> ->]|[-> ->]]. }
    destruct (fixAfterDelete_ok None fuel _ ctx _ Hfuel H1 Hinv)
      as (st1 & t1 & Hfix & H' & Hrb1 & Hcb1 & Hel1 & Hsz1 & _).
    cbn [ptr_of] in Hfix. rewrite Hfix. cbn [rbind].
    eexists _, t1. split; [done|].
    split_and!; [exact H'|done|done| |by rewrite Hsz1, Hs1| |].
    + rewrite Hel1, elements_plug. by destruct Hsh as [[-> ->]|[-> ->]].
    + intros [?|(_ & -> & ->)]; [done|]. by destruct Hsh as [[_ ?]|[? _]].
    + intros _ _. apply calls_fixAfterDelete in Hfix as (evs & Hevs).
      exists evs, (Some ra). cbn [calls set_size]. by rewrite Hevs, Hc1.
Qed.

(** *** Colours and data of the nodes of a tree *)

Lemma wf_color_at h h' par par' t a :
  wf h par t -> wf h' par' t -> a ∈ addrs t ->
  color (deref h' a) = color (deref h a).
Proof.
  revert par par'. induction t as [|a' c k v l IHl r IHr]; intros par par'.
  - rewrite addrs_E. by intros _ _ ?%elem_of_nil.
  - rewrite addrs_T. simpl. intros (Ha & Hl & Hr) (Ha' & Hl' & Hr').
    rewrite elem_of_app, elem_of_cons. intros [?|[->|?]]; [by eauto| |by eauto].
    by rewrite (deref_lookup _ _ _ Ha), (deref_lookup _ _ _ Ha').
Qed.

Lemma wfc_color_at h h' ctx a : forall q q',
  wfc h ctx q -> wfc h' ctx q' -> a ∈ caddrs ctx ->
  color (deref h' a) = color (deref h a).
Proof.
  induction ctx as [|f ctx IH]; simpl; intros q q'.
  - by intros _ _ ?%elem_of_nil.
  - intros (Hf & Hs & Hc) (Hf' & Hs' & Hc').
    rewrite elem_of_cons, elem_of_app. intros [->|[?|?]].
    + rewrite (deref_lookup _ _ _ Hf), (deref_lookup _ _ _ Hf').
      by destruct f.
    + by eapply wf_color_at.
    + by eapply IH.
Qed.

Lemma colors_frame st st' ctx t a :
  models st (plug ctx t) -> models st' (plug ctx E) ->
  a ∈ addrs (plug ctx E) ->
  color (deref (heap_of st') a) = color (deref (heap_of st) a).
Proof.
  rewrite !models_plug. intros (_ & Hc & _) (_ & Hc' & _).
  rewrite addrs_plug_perm, addrs_E. simpl. intros Ha.
  by eapply wfc_color_at.
Qed.

Lemma color_alter_data h (f : RBNode (K:=K) (V:=V) -> RBNode) a b :
  (forall x, color (f x) = color x) ->
  color (deref (alter f a h) b) = color (deref h b).
Proof.
  intros Hf. unfold deref. destruct (decide (a = b)) as [->|Hne].
  - rewrite list_lookup_alter_eq. destruct (h !! b); simpl; [apply Hf|done].
  - by rewrite list_lookup_alter_ne.
Qed.

Lemma wf_elements h par t a k v :
  wf h par t -> (a, (k, v)) ∈ elements t ->
  Key (deref h a) = k /\ Value (deref h a) = v.
Proof.
  revert par. induction t as [|a' c k' v' l IHl r IHr]; intros par; simpl.
  - by intros _ ?%elem_of_nil.
  - intros (Ha & Hl & Hr).
    rewrite elem_of_app, elem_of_cons. intros [?|[[= -> -> ->]|?]]; [by eauto| |by eauto].
    by rewrite (deref_lookup _ _ _ Ha).
Qed.

Lemma rbt_plug_data d ctx a c k v k' v' l r :
  rbt d (plug ctx (T a c k v l r)) ->
  tcolor (plug ctx (T a c k v l r)) = Black ->
  rbt d (plug ctx (T a c k' v' l r))
  /\ tcolor (plug ctx (T a c k' v' l r)) = Black.
Proof.
  intros Hrb Hc. destruct (cok_of_plug _ _ _ Hrb Hc) as [Ht Hcok].
  by apply cok_plug.
Qed.

Lemma min_zip_app t : forall ctx,
  min_zip t ctx = ((min_zip t []).1 ++ ctx, (min_zip t []).2).
Proof.
  induction t as [|a c k v l IHl r _]; intros ctx; [done|].
  simpl. destruct l as [|la lc lk lv ll lr]; [done|].
  rewrite (IHl (_ :: ctx)), (IHl [_]). simpl. by rewrite <- app_assoc.
Qed.

Lemma cleft_app ctx1 ctx2 : cleft (ctx1 ++ ctx2) = cleft ctx2 ++ cleft ctx1.
Proof.
  induction ctx1 as [|[]ctx1 IH]; simpl; rewrite ?app_nil_r; [done..|].
  by rewrite IH, <- !app_assoc.
Qed.

Lemma cright_app ctx1 ctx2 : cright (ctx1 ++ ctx2) = cright ctx1 ++ cright ctx2.
Proof.
  induction ctx1 as [|[]ctx1 IH]; simpl; [done| |done].
  by rewrite IH, <- !app_assoc.
Qed.

(** The leftmost node comes first in order. *)
Lemma min_zip_elements t s cs ks vs sr :
  (min_zip t []).2 = T s cs ks vs E sr ->
  elements t = (s, (ks, vs)) :: elements sr ++ cright (min_zip t []).1.
Proof.
  intros Hm. rewrite <- (min_zip_plug t []) at 1.
  rewrite elements_plug, Hm, min_zip_cleft. done.
Qed.

(** Deleting a node with at most one child. *)
Lemma deleteNode_simple fuel st ctx n c k v l r :
  let t0 := plug ctx (T n c k v l r) in
  models st t0 -> rbt None t0 -> tcolor t0 = Black ->
  l = E \/ r = E -> (length ctx < fuel)%nat ->
  exists st' t',
    deleteNode fuel st (Some n) = Done st'
    /\ models st' t' /\ rbt None t' /\ tcolor t' = Black
    /\ elements t' = cleft ctx ++ elements l ++ elements r ++ cright ctx
    /\ size st' = wrap_int (size st - 1)
    /\ (c = Red \/ (ctx = [] /\ l = E /\ r = E) ->
        calls st' = calls st
        /\ forall a, a ∈ addrs t' ->
             color (deref (heap_of st') a) = color (deref (heap_of st) a))
    /\ (c = Black -> ~ (ctx = [] /\ l = E /\ r = E) ->
        exists evs q, calls st' = evs ++ CallFixAfterDelete q :: calls st).
Proof.
  intros t0 H Hrb Hroot Hshape Hfuel. subst t0.
  destruct (deleteNode_splice_ok fuel st ctx n c k v l r H Hrb Hroot Hshape Hfuel)
    as (st' & t' & Hrun & H' & Hrb' & Hc' & Hel & Hsz & Hred & Hblk).
  exists st', t'. split_and!; try done.
  - rewrite deleteNode_split, (models_deref _ _ _ _ _ _ _ _ H).
    cbn [left right].
    replace (bool_decide (ptr_of l <> None) && bool_decide (ptr_of r <> None))
      with false; [done|].
    by destruct Hshape as [-> | ->]; simpl; rewrite ?andb_false_r.
  - intros Hcase. destruct (Hred Hcase) as [Hcalls ->]. split; [done|].
    intros a Ha. by eapply colors_frame.
Qed.

(** Deleting a node with two children: the successor is spliced out. *)
Lemma deleteNode_two fuel st ctx n c k v l r :
  let t0 := plug ctx (T n c k v l r) in
  models st t0 -> rbt None t0 -> tcolor t0 = Black ->
  l <> E -> r <> E -> (height t0 <= fuel)%nat ->
  exists st' t' s cs ks vs sr R,
    (min_zip r []).2 = T s cs ks vs E sr
    /\ getSuccessor fuel (heap_of st) (Some n) = Done (Some s)
    /\ heap_of st !! s
       = Some (mkRBNode cs ks vs None (ptr_of sr)
                 (cparent ((min_zip r []).1 ++ InRight n c k v l :: ctx)))
    /\ elements r = (s, (ks, vs)) :: R
    /\ deleteNode fuel st (Some n) = Done st'
    /\ models st' t' /\ rbt None t' /\ tcolor t' = Black
    /\ elements t' = cleft ctx ++ elements l ++ (n, (ks, vs)) :: R ++ cright ctx
    /\ size st' = wrap_int (size st - 1)
    /\ (cs = Red ->
        calls st' = calls st
        /\ forall a, a ∈ addrs t' ->
             color (deref (heap_of st') a) = color (deref (heap_of st) a))
    /\ (cs = Black ->
        exists evs q, calls st' = evs ++ CallFixAfterDelete q :: calls st).
Proof.
  intros t0 H Hrb Hroot Hl Hr Hfuel. subst t0.
  destruct (min_zip_shape r [] Hr) as (s & cs & ks & vs & sr & Hm).
  pose proof (height_plug ctx (T n c k v l r)) as Hh.
  assert (Hhr : (S (length ctx) + height r <= fuel)%nat).
  { clear -Hh Hfuel. simpl in Hh. lia. }
  (* the successor in the initial state *)
  pose proof H as Hs0.
  change (plug ctx (T n c k v l r))
    with (plug (InRight n c k v l :: ctx) r) in Hs0.
  rewrite <- (min_zip_plug r), (min_zip_app r), Hm in Hs0. cbn [fst snd] in Hs0.
  pose proof (models_read _ _ _ _ _ _ _ _ Hs0) as Hcell.
  assert (Hsucc : getSuccessor fuel (heap_of st) (Some n) = Done (Some s)).
  { unfold getSuccessor. rewrite (models_deref _ _ _ _ _ _ _ _ H).
    cbn [right]. destruct r as [|ra rc rk rv rl rr]; [done|]. cbn [ptr_of].
    apply models_plug in H as (_ & _ & Hwf & _). destruct Hwf as (_ & _ & Hwr).
    destruct (leftmost_loop_wf fuel _ _ _ _ _ _ _ _ [] Hwr) as (s' & -> & Hp).
    { clear -Hhr. lia. }
    rewrite Hm in Hp. by injection Hp as ->. }
  (* the copy of its key and value *)
  pose proof (store_data_models st ctx n c k v l r (with_Key ks) c ks v
                ltac:(done) H) as H1.
  pose proof H1 as Hs1.
  change (plug ctx (T n c ks v l r))
    with (plug (InRight n c ks v l :: ctx) r) in Hs1.
  rewrite <- (min_zip_plug r), (min_zip_app r), Hm in Hs1. cbn [fst snd] in Hs1.
  pose proof (store_data_models _ ctx n c ks v l r (with_Value vs) c ks vs
                ltac:(done) H1) as H2.
  pose proof H2 as Hs2.
  change (plug ctx (T n c ks vs l r))
    with (plug (InRight n c ks vs l :: ctx) r) in Hs2.
  rewrite <- (min_zip_plug r), (min_zip_app r), Hm in Hs2. cbn [fst snd] in Hs2.
  destruct (rbt_plug_data None ctx n c k v ks vs l r Hrb Hroot) as [Hrb2 Hroot2].
  change (plug ctx (T n c ks vs l r))
    with (plug (InRight n c ks vs l :: ctx) r) in Hrb2, Hroot2.
  rewrite <- (min_zip_plug r), (min_zip_app r), Hm in Hrb2, Hroot2.
  cbn [fst snd] in Hrb2, Hroot2.
  destruct (deleteNode_splice_ok fuel _ _ s cs ks vs E sr Hs2 Hrb2 Hroot2)
    as (st' & t' & Hrun & H' & Hrb' & Hc' & Hel & Hsz & Hred & Hblk).
  { by left. }
  { pose proof (min_zip_length r (InRight n c ks vs l :: ctx) Hr) as Hlen.
    rewrite min_zip_app in Hlen. cbn [fst length] in Hlen.
    clear -Hlen Hhr. lia. }
  exists st', t', s, cs, ks, vs, sr, (elements sr ++ cright (min_zip r []).1).
  split_and!; try done.
  - exact (min_zip_elements _ _ _ _ _ _ Hm).
  - rewrite deleteNode_split, (models_deref _ _ _ _ _ _ _ _ H).
    cbn [left right].
    replace (bool_decide (ptr_of l <> None) && bool_decide (ptr_of r <> None))
      with true by (by destruct l, r).
    rewrite Hsucc. cbn [rbind fst snd].
    rewrite (deref_lookup _ _ _ Hcell).
    rewrite (models_deref _ _ _ _ _ _ _ _ Hs1). cbn [Key Value]. exact Hrun.
  - rewrite Hel, cleft_app, cright_app, min_zip_cleft. simpl.
    by rewrite <- !app_assoc.
  - intros ->. destruct Hred as [Hcalls ->]; [by left|]. split; [done|].
    intros a Ha. rewrite (colors_frame _ _ _ _ _ Hs2 H' Ha).
    simpl. by rewrite !color_alter_data.
  - intros ->. destruct Hblk as (evs & q & Hevs); [done| |by eauto].
    intros (Hn & _). by destruct (min_zip r []).1.
Qed.

End DeleteNode.

(** ** [Delete] *)

Section Delete.

Context {K V : Type} `{!ZeroValue K, !ZeroValue V, !Comparator K}.
Context `{!ComparatorLaws K}.
Implicit Types (h : list (RBNode (K:=K) (V:=V))) (st : state (K:=K) (V:=V)).
Implicit Types (t l r : tree (K:=K) (V:=V)) (ctx : list (frame (K:=K) (V:=V))).
Implicit Types (a b p : addr) (q par d : ptr).

(** The node found by the search, in its context. *)
Lemma find_zipper key t n :
  find key t = Some n ->
  exists ctx c k v l r, t = plug ctx (T n c k v l r) /\ compare key k = 0.
Proof.
  induction t as [|a c k v l IHl r IHr]; simpl; [done|].
  destruct (compare key k <? 0) eqn:E1.
  { intros (ctx & c' & k' & v' & l' & r' & -> & Hk)%IHl.
    exists (ctx ++ [InLeft a c k v r]), c', k', v', l', r'.
    by rewrite plug_app. }
  destruct (compare key k >? 0) eqn:E2.
  { intros (ctx & c' & k' & v' & l' & r' & -> & Hk)%IHr.
    exists (ctx ++ [InRight a c k v l]), c', k', v', l', r'.
    by rewrite plug_app. }
  intros [= ->]. exists [], c, k, v, l, r. split; [done|].
  apply Z.ltb_ge in E1. rewrite Z.gtb_ltb in E2. apply Z.ltb_ge in E2.
  clear -E1 E2. lia.
Qed.

(** Every node of a tree has a context. *)
Lemma addr_zipper t n :
  n ∈ addrs t -> exists ctx c k v l r, t = plug ctx (T n c k v l r).
Proof.
  induction t as [|a c k v l IHl r IHr].
  - rewrite addrs_E. by intros ?%elem_of_nil.
  - rewrite addrs_T, elem_of_app, elem_of_cons. intros [Hn|[->|Hn]].
    + destruct (IHl Hn) as (ctx & c' & k' & v' & l' & r' & ->).
      exists (ctx ++ [InLeft a c k v r]), c', k', v', l', r'.
      by rewrite plug_app.
    + by exists [], c, k, v, l, r.
    + destruct (IHr Hn) as (ctx & c' & k' & v' & l' & r' & ->).
      exists (ctx ++ [InRight a c k v l]), c', k', v', l', r'.
      by rewrite plug_app.
Qed.

Lemma keys_entry (E1 E2 : list (addr * (K * V))) a k v :
  (E1 ++ (a, (k, v)) :: E2).*2.*1 = E1.*2.*1 ++ k :: E2.*2.*1.
Proof. by rewrite !fmap_app. Qed.

Lemma keys_app (E1 E2 : list (addr * (K * V))) :
  (E1 ++ E2).*2.*1 = E1.*2.*1 ++ E2.*2.*1.
Proof. by rewrite !fmap_app. Qed.

Lemma sorted_remove (L R : list K) k :
  StronglySorted klt (L ++ k :: R) -> StronglySorted klt (L ++ R).
Proof.
  rewrite !StronglySorted_app, StronglySorted_cons.
  intros (Hlr & Hl & Hkr & Hr). split_and!; [|done..].
  intros x1 x2 H1 H2. apply Hlr; [done|]. by apply elem_of_cons; right.
Qed.

Lemma sorted_absent (L R : list K) k key :
  StronglySorted klt (L ++ k :: R) -> compare key k = 0 ->
  forall k', k' ∈ L ++ R -> compare key k' <> 0.
Proof.
  rewrite StronglySorted_app, StronglySorted_cons.
  intros (Hlr & Hl & Hkr & Hr) Hk k' [Hin|Hin]%elem_of_app Hk'.
  - assert (Hlt : klt k' k) by (apply Hlr; [done|by apply elem_of_cons; left]).
    pose proof (compare_eq_lt key k' k Hk' Hlt) as Hc. clear -Hc Hk. lia.
  - assert (Hlt : klt k k') by (by eapply Forall_forall in Hkr).
    apply compare_antisym in Hlt.
    pose proof (compare_eq_gt key k' k Hk' Hlt) as Hc. clear -Hc Hk. lia.
Qed.

(** Deleting the node [n] of a valid tree: the tree stays valid and loses
    exactly the entry of [n]. *)
Lemma deleteNode_invariants fuel st ctx n c k v l r :
  let t := plug ctx (T n c k v l r) in
  invariants st t -> (height t <= fuel)%nat -> size st <= 2 ^ 63 ->
  exists st' t',
    deleteNode fuel st (Some n) = Done st'
    /\ invariants st' t'
    /\ (elements t').*2
       = (cleft ctx ++ elements l ++ elements r ++ cright ctx).*2
    /\ size st' = size st - 1.
Proof.
  intros t (H & Hrootb & Hnrr & Hebh & Hbst & Hsize) Hfuel Hbound.
  assert (Hrb : rbt None t) by (by apply rbt_iff).
  apply sorted_iff in Hbst.
  assert (Hel : elements t
                = cleft ctx ++ elements l ++ (n, (k, v)) :: elements r
                  ++ cright ctx).
  { unfold t. rewrite elements_plug. simpl. by rewrite <- !app_assoc. }
  assert (Hpos : 1 <= size st).
  { rewrite Hsize, Hel, !length_app. simpl. lia. }
  assert (Hw : wrap_int (size st - 1) = size st - 1).
  { apply wrap_int_small. clear -Hpos Hbound. lia. }
  assert (Hfin : forall st' t',
    models st' t' -> rbt None t' -> tcolor t' = Black ->
    (elements t').*2
    = (cleft ctx ++ elements l ++ elements r ++ cright ctx).*2 ->
    size st' = wrap_int (size st - 1) ->
    invariants st' t'
    /\ (elements t').*2
       = (cleft ctx ++ elements l ++ elements r ++ cright ctx).*2
    /\ size st' = size st - 1).
  { intros st' t' H' Hrb' Hc' Hel' Hsz'. split_and!; [|done|congruence].
    apply rbt_iff in Hrb' as [? ?].
    split_and!; [done..| |].
    - apply sorted_iff. unfold sorted, keys in *. rewrite Hel'.
      rewrite Hel, app_assoc, keys_entry in Hbst.
      rewrite (app_assoc (cleft ctx)), keys_app. by eapply sorted_remove.
    - unfold size_ok in *. rewrite Hsz', Hw, Hsize.
      rewrite <- (length_fmap snd (elements t')), Hel', length_fmap.
      rewrite Hel, !length_app. simpl. rewrite !length_app. lia. }
  assert (Hcases : (l = E \/ r = E) \/ (l <> E /\ r <> E)).
  { clear. destruct l, r; naive_solver. }
  destruct Hcases as [Hs|[Hl Hr]].
  - destruct (deleteNode_simple fuel st ctx n c k v l r H Hrb Hrootb Hs)
      as (st' & t' & Hrun & H' & Hrb' & Hc' & Hel' & Hsz' & _).
    { pose proof (height_plug ctx (T n c k v l r)) as Hh. fold t in Hh.
      simpl in Hh. clear -Hh Hfuel. lia. }
    exists st', t'. split; [done|]. apply Hfin; try done. by rewrite Hel'.
  - destruct (deleteNode_two fuel st ctx n c k v l r H Hrb Hrootb Hl Hr Hfuel)
      as (st' & t' & s & cs & ks & vs & sr & R & _ & _ & _ & HR & Hrun & H'
          & Hrb' & Hc' & Hel' & Hsz' & _).
    exists st', t'. split; [done|]. apply Hfin; try done.
    rewrite Hel', HR. rewrite !fmap_app. simpl. by rewrite !fmap_app.
Qed.

(** [Delete] of a present key. *)
Lemma Delete_present fuel st t key :
  invariants st t -> (height t <= fuel)%nat -> size st <= 2 ^ 63 ->
  present key t ->
  exists st' t' E1 E2 a k v,
    Delete fuel st key = Done st'
    /\ invariants st' t'
    /\ elements t = E1 ++ (a, (k, v)) :: E2
    /\ compare key k = 0
    /\ (elements t').*2 = (E1 ++ E2).*2
    /\ size st' = size st - 1
    /\ ~ present key t'.
Proof.
  intros Hinv Hfuel Hbound Hp.
  pose proof Hinv as (H & _ & _ & _ & Hbst & _).
  apply sorted_iff in Hbst.
  destruct (find key t) as [n|] eqn:Hfind;
    [|by apply (find_present key t Hbst) in Hp].
  destruct (find_zipper _ _ _ Hfind) as (ctx & c & k & v & l & r & -> & Hk).
  destruct (deleteNode_invariants fuel st ctx n c k v l r Hinv Hfuel Hbound)
    as (st' & t' & Hrun & Hinv' & Hel' & Hsz').
  exists st', t', (cleft ctx ++ elements l), (elements r ++ cright ctx), n, k, v.
  split_and!; try done.
  - unfold Delete. rewrite (getRBNode_models _ _ _ _ H Hfuel), Hfind.
    cbn [rbind]. done.
  - rewrite elements_plug. simpl. by rewrite <- !app_assoc.
  - by rewrite Hel', <- !app_assoc.
  - intros (k' & Hin & Hk'). unfold keys in Hin. rewrite Hel' in Hin.
    unfold sorted, keys in Hbst. rewrite elements_plug in Hbst. simpl in Hbst.
    rewrite <- app_assoc, app_assoc in Hbst. simpl in Hbst.
    rewrite keys_entry in Hbst.
    eapply (sorted_absent _ _ _ _ Hbst Hk k'); [|done].
    revert Hin. by rewrite (app_assoc (cleft ctx)), keys_app.
Qed.

(** [Delete] of an absent key changes nothing. *)
Lemma Delete_absent fuel st t key :
  invariants st t -> (height t <= fuel)%nat -> ~ present key t ->
  Delete fuel st key = Done st.
Proof.
  intros (H & _ & _ & _ & Hbst & _) Hfuel Hp.
  apply sorted_iff in Hbst.
  unfold Delete. rewrite (getRBNode_models _ _ _ _ H Hfuel).
  destruct (find key t) eqn:Hfind; [|done].
  exfalso. apply Hp. apply find_present; [done|]. by rewrite Hfind.
Qed.

End Delete.

(** ** The validator *)

Section Validator.

Context {K V : Type} `{!ZeroValue K, !ZeroValue V, !Comparator K}.
Implicit Types (h : list (RBNode (K:=K) (V:=V))) (st : state (K:=K) (V:=V)).
Implicit Types (t l r : tree (K:=K) (V:=V)) (ctx : list (frame (K:=K) (V:=V))).
Implicit Types (a p : addr) (q par d : ptr).

Lemma ptr_of_None t : ptr_of t = None <-> t = E.
Proof. by destruct t. Qed.

Lemma bhd_le_height t : (bhd None t <= height t)%nat.
Proof.
  induction t as [|a c k v l IHl r IHr]; simpl; [done|].
  rewrite blk_None. destruct c; lia.
Qed.

(** The first loop counts the Black nodes of the leftmost path. *)
Lemma count_loop_wf fuel : forall h par t (n : nat),
  wf h par t -> (height t <= fuel)%nat ->
  Z.of_nat n + Z.of_nat (height t) < 2 ^ 63 ->
  count_loop fuel h (ptr_of t) (Z.of_nat n)
  = Done (Z.of_nat (n + bhd None t)).
Proof.
  induction fuel as [|fuel IH]; intros h par t n Hwf Hfuel Hb.
  - destruct t; simpl in *; [|lia]. by rewrite Nat.add_0_r.
  - destruct t as [|a c k v l r]; simpl in *; [by rewrite Nat.add_0_r|].
    destruct Hwf as (Ha & Hl & Hr).
    rewrite (deref_lookup _ _ _ Ha). cbn [color left].
    rewrite blk_None.
    replace (if c then wrap_int (Z.of_nat n + 1) else Z.of_nat n)
      with (Z.of_nat ((if c then 1 else 0) + n)).
    2:{ destruct c; [|done]. rewrite wrap_int_small; lia. }
    rewrite (IH h (Some a) l); [f_equal; lia|done|lia|].
    destruct c; lia.
Qed.

(** [nodeCheck] on the subtree [t] below a node of colour [pc]. *)
Lemma nodeCheck_wf fuel : forall h par t (count num : nat) pc,
  wf h par t -> getColor h par = pc -> (height t <= fuel)%nat ->
  Z.of_nat num + Z.of_nat (height t) < 2 ^ 63 ->
  exists b,
    nodeCheck fuel h (ptr_of t) (Z.of_nat count) (Z.of_nat num) = Done b
    /\ (b = true <-> (pc = Red -> tcolor t = Black) /\ no_red_red t
                     /\ leaves_at t count num).
Proof.
  induction fuel as [|fuel IH]; intros h par t count num pc Hwf Hpc Hfuel Hb.
  - destruct t; simpl in *; [|lia]. exists true. by split.
  - destruct t as [|a c k v l r]; [exists true; by split|].
    cbn [ptr_of nodeCheck getColor getLeft getRight].
    pose proof Hwf as (Ha & Hl & Hr).
    rewrite (deref_lookup _ _ _ Ha). cbn [color left right parent].
    change (match par with Some a0 => color (deref h a0) | None => Black end)
      with (getColor h par).
    rewrite Hpc.
    simpl in Hfuel, Hb.
    destruct (negb c && negb pc) eqn:Hrr.
    { exists false. split; [done|]. split; [done|]. intros (Hc & _).
      destruct c, pc; try done. simpl in Hc. by specialize (Hc eq_refl). }
    set (num' := ((if c then 1 else 0) + num)%nat).
    replace (if c then wrap_int (Z.of_nat num + 1) else Z.of_nat num)
      with (Z.of_nat num').
    2:{ unfold num'. destruct c; [|done]. rewrite wrap_int_small; lia. }
    assert (Hpar : pc = Red -> tcolor (T a c k v l r) = Black).
    { intros ->. simpl. by destruct c. }
    destruct (bool_decide (ptr_of l = None) && bool_decide (ptr_of r = None)
              && negb (Z.of_nat num' =? Z.of_nat count)) eqn:Hleaf.
    { exists false. split; [done|]. split; [done|].
      intros (_ & _ & Hlf & _).
      apply andb_true_iff in Hleaf as [Hlr Hne].
      apply andb_true_iff in Hlr as [Hl0 Hr0].
      apply bool_decide_eq_true, ptr_of_None in Hl0.
      apply bool_decide_eq_true, ptr_of_None in Hr0.
      apply negb_true_iff, Z.eqb_neq in Hne.
      fold num' in Hlf. specialize (Hlf Hl0 Hr0). lia. }
    assert (Hlf : l = E -> r = E -> num' = count).
    { intros Hl0 Hr0. rewrite <- !ptr_of_None in Hl0, Hr0.
      rewrite !bool_decide_eq_true_2 in Hleaf by done. simpl in Hleaf.
      apply negb_false_iff, Z.eqb_eq in Hleaf. lia. }
    assert (Hc1 : getColor h (Some a) = c).
    { simpl. by rewrite (deref_lookup _ _ _ Ha). }
    destruct (IH h (Some a) l count num' c Hl Hc1) as (bl & -> & Hbl);
      [lia|unfold num'; destruct c; lia|].
    destruct (IH h (Some a) r count num' c Hr Hc1) as (br & Hrun & Hbr);
      [lia|unfold num'; destruct c; lia|].
    cbn [rbind]. destruct bl.
    + exists br. split; [done|]. rewrite Hbr.
      destruct Hbl as [Hbl _]. specialize (Hbl eq_refl).
      simpl. fold num'. tauto.
    + exists false. split; [done|]. split; [done|].
      intros (_ & (Hc & Hnl & _) & _ & Hll & _).
      destruct Hbl as [_ Hbl]. enough (false = true) by done. apply Hbl.
      split_and!; [|done|done]. intros ->. by destruct Hc.
Qed.

(** [IsRedBlackTree] returns, and it accepts exactly the trees with a Black
    root, no Red node with a Red child, and the Black count of the leftmost
    path at every childless node. *)
Lemma IsRedBlackTree_wf fuel h t :
  wf h None t -> (height t <= fuel)%nat ->
  2 * Z.of_nat (height t) < 2 ^ 63 ->
  exists b,
    IsRedBlackTree fuel h (ptr_of t) = Done b
    /\ (b = true <-> root_black t /\ no_red_red t
                     /\ leaves_at t (bhd None t) 0).
Proof.
  intros Hwf Hfuel Hb. unfold IsRedBlackTree.
  rewrite (getColor_wf _ _ _ Hwf).
  destruct (tcolor t) eqn:Hc; cbn [negb].
  - pose proof (count_loop_wf fuel h None t 0 Hwf Hfuel) as Hcnt.
    change (Z.of_nat 0) with 0 in Hcnt. cbn [Nat.add] in Hcnt.
    rewrite Hcnt by lia. cbn [rbind].
    destruct (nodeCheck_wf fuel h None t (bhd None t) 0 Black Hwf eq_refl Hfuel)
      as (b & Hrun & Hiff); [lia|].
    exists b. split; [exact Hrun|]. rewrite Hiff. unfold root_black. rewrite Hc.
    intuition.
  - exists false. split; [done|]. unfold root_black. rewrite Hc.
    split; [done|]. by intros (? & _).
Qed.

(** Equal black height gives the count at every childless node. *)
Lemma rbt_leaves_at t : forall num,
  rbt None t -> leaves_at t (num + bhd None t) num.
Proof.
  induction t as [|a c k v l IHl r IHr]; intros num; simpl; [done|].
  rewrite blk_None. intros (Hl & Hr & Hb & _). split_and!.
  - intros -> _. simpl. destruct c; lia.
  - replace (num + ((if c then 1 else 0) + bhd None l))%nat
      with (((if c then 1 else 0) + num) + bhd None l)%nat by (destruct c; lia).
    by apply IHl.
  - replace (num + ((if c then 1 else 0) + bhd None l))%nat
      with (((if c then 1 else 0) + num) + bhd None r)%nat
      by (rewrite Hb; destruct c; lia).
    by apply IHr.
Qed.

End Validator.

(** ** The example trees *)

#[export] Instance Z_comparator_laws : ComparatorLaws Z.
Proof.
  split; unfold compare, Z_comparator, cmp_int; intros;
    repeat match goal with
           | |- context [?a <? ?b] => destruct (Z.ltb_spec a b)
           | |- context [?a =? ?b] => destruct (Z.eqb_spec a b)
           | H : context [?a <? ?b] |- _ => destruct (Z.ltb_spec a b)
           | H : context [?a =? ?b] |- _ => destruct (Z.eqb_spec a b)
           end; lia.
Qed.

Lemma invariants_st_10 : invariants st_10 t_10.
Proof.
  split_and!.
  - split_and!; [done|by simpl|]. apply (bool_decide_unpack _). by vm_compute.
  - done.
  - by simpl.
  - apply rbt_equal_black_height. by simpl.
  - simpl. split_and!; by try constructor.
  - done.
Qed.

Lemma invariants_st_10_20_30 : invariants st_10_20_30 t_10_20_30.
Proof.
  split_and!.
  - split_and!; [done|by simpl|]. apply (bool_decide_unpack _). by vm_compute.
  - done.
  - by simpl.
  - apply rbt_equal_black_height. by simpl.
  - simpl. split_and!; by repeat constructor.
  - done.
Qed.

(** ** The specification, claim by claim *)

Section Operations.

Context {K V : Type} `{!ZeroValue K, !ZeroValue V, !Comparator K}.
Context `{!ComparatorLaws K}.
Implicit Types (h : list (RBNode (K:=K) (V:=V))) (st : state (K:=K) (V:=V)).
Implicit Types (t l r : tree (K:=K) (V:=V)) (ctx : list (frame (K:=K) (V:=V))).
Implicit Types (a p : addr) (q par d : ptr).

Lemma invariants_alloc st t (n : RBNode (K:=K) (V:=V)) :
  invariants st t -> invariants (set_heap st (heap_of st ++ [n])) t.
Proof.
  intros (H & ? & ? & ? & ? & ?). split_and!; try done.
  by apply (models_alloc st t n).
Qed.

Lemma invariants_empty h : invariants (NewRBTree h) E.
Proof.
  split_and!; try done.
  - split_and!; [done..|]. apply NoDup_nil_2.
  - by apply rbt_equal_black_height.
Qed.

Lemma present_dec key t : sorted t -> present key t \/ ~ present key t.
Proof.
  intros Hs. destruct (find key t) eqn:Hf.
  - left. apply find_present; [done|]. by rewrite Hf.
  - right. intros Hp. by apply (find_present key t Hs) in Hp.
Qed.

(** One operation on a valid tree. *)
Lemma run_op_invariants fuel st t (o : op (K:=K) (V:=V)) :
  invariants st t -> (length (elements t) < fuel)%nat ->
  Z.of_nat (length (elements t)) + 1 < 2 ^ 63 ->
  exists st' t',
    run_op fuel st o = Done st' /\ invariants st' t'
    /\ (length (elements t') <= S (length (elements t)))%nat.
Proof.
  intros Hinv Hfuel Hb.
  pose proof (height_le_length t) as Hh.
  pose proof Hinv as (_ & _ & _ & _ & Hbst & Hsz). apply sorted_iff in Hbst.
  destruct o as [k v|k]; unfold run_op.
  - unfold NewRBNode, alloc.
    set (nd := mkRBNode Red k v None None None).
    pose proof (invariants_alloc st t nd Hinv) as Hinv1.
    assert (Hna : heap_of (set_heap st (heap_of st ++ [nd]))
                  !! length (heap_of st) = Some nd).
    { simpl. by apply list_lookup_middle. }
    destruct (present_dec k t Hbst) as [Hp|Hp].
    + rewrite (Add_present fuel _ t _ nd Hinv1 Hna) by (done || lia).
      cbn [rbind fst]. eexists _, t. split; [done|]. split; [|lia].
      by apply invariants_alloc.
    + destruct (Add_new fuel _ t _ nd Hinv1 Hna) as
        (st' & t' & E1 & E2 & tn & Hrun & Hinv' & He & He' & _);
        [lia|done|done|].
      rewrite Hrun. cbn [rbind fst]. exists st', t'. split; [done|].
      split; [done|]. rewrite He', He, !length_app. simpl. lia.
  - destruct (present_dec k t Hbst) as [Hp|Hp].
    + destruct (Delete_present fuel st t k Hinv) as
        (st' & t' & E1 & E2 & a & k' & v' & Hrun & Hinv' & He & _ & He' & _);
        [lia|unfold size_ok in Hsz; lia|done|].
      exists st', t'. split; [done|]. split; [done|].
      rewrite <- (length_fmap snd (elements t')), He', length_fmap, He.
      rewrite !length_app. simpl. lia.
    + rewrite (Delete_absent fuel st t k Hinv) by (done || lia).
      exists st, t. split; [done|]. split; [done|]. lia.
Qed.

Lemma run_ops_invariants fuel (ops : list (op (K:=K) (V:=V))) : forall st t,
  invariants st t ->
  (length (elements t) + length ops < S fuel)%nat ->
  Z.of_nat (length (elements t) + length ops) < 2 ^ 63 ->
  exists st' t', run_ops fuel st ops = Done st' /\ invariants st' t'.
Proof.
  induction ops as [|o ops IH]; intros st t Hinv Hfuel Hb.
  - by exists st, t.
  - simpl in Hfuel, Hb.
    destruct (run_op_invariants fuel st t o Hinv) as (st1 & t1 & Hrun & Hinv1 & Hlen);
      [lia|lia|].
    cbn [run_ops]. rewrite Hrun. cbn [rbind].
    apply (IH st1 t1 Hinv1); lia.
Qed.

(** C1: every sequence of [Add] and [Delete] operations that starts from the
    empty tree runs to completion, and the tree it reaches satisfies the five
    invariants of section 3: Black root, no Red node with a Red child, equal
    numbers of Black nodes on all paths from the root to an absent child,
    BST ordering, and [size] equal to the number of reachable nodes.  Every
    prefix of a sequence is a sequence, so this holds after every operation;
    the keys need not even be distinct, since a rejected [Add] changes no
    node of the tree.  The fuel bounds the loops, and the number of
    operations fits an [int]. *)
Theorem C1_invariants_after_every_operation fuel h
    (ops : list (op (K:=K) (V:=V))) :
  (length ops <= fuel)%nat -> Z.of_nat (length ops) < 2 ^ 63 ->
  exists st t,
    run_ops fuel (NewRBTree h) ops = Done st
    /\ models st t /\ root_black t /\ no_red_red t /\ equal_black_height t
    /\ bst t /\ size_ok st t.
Proof.
  intros Hfuel Hb.
  destruct (run_ops_invariants fuel ops (NewRBTree h) E (invariants_empty h))
    as (st & t & Hrun & Hinv); [simpl; lia|simpl; lia|].
  by exists st, t.
Qed.

(** C2: [Add] of a node whose key is already present in a valid tree returns
    [ErrRBTreeSameRBNode] and mutates nothing: the root pointer, the size and
    every field of every object that existed before the call are as before,
    so the heap holds the same tree. *)
Theorem C2_Add_duplicate_no_mutation fuel st t na nd :
  invariants st t -> heap_of st !! na = Some nd ->
  present (Key nd) t -> (height t <= fuel)%nat ->
  exists st',
    Add fuel st (Some na) = Done (st', Some ErrRBTreeSameRBNode)
    /\ Root st' = Root st /\ Size st' = Size st
    /\ (forall a n, heap_of st !! a = Some n -> heap_of st' !! a = Some n)
    /\ invariants st' t.
Proof.
  intros Hinv Hna Hp Hfuel.
  rewrite (Add_present fuel st t na nd Hinv Hna Hfuel Hp).
  eexists. split; [done|]. split_and!; [done|done| |by apply invariants_alloc].
  intros a n Ha. simpl. by apply lookup_app_l_Some.
Qed.

(** C4: on a valid tree, [Delete] of a present key returns with [Size] one
    less and a following [Find] of the key returns nil; [Delete] of an absent
    key returns the state it was given, unchanged. *)
Theorem C4_Delete_present_absent fuel st t key :
  invariants st t -> (length (elements t) <= fuel)%nat -> Size st < 2 ^ 63 ->
  (present key t ->
   exists st', Delete fuel st key = Done st'
               /\ Size st' = Size st - 1
               /\ Find fuel st' key = Done None)
  /\ (~ present key t -> Delete fuel st key = Done st).
Proof.
  intros Hinv Hfuel Hb. pose proof (height_le_length t) as Hh. split.
  - intros Hp.
    destruct (Delete_present fuel st t key Hinv) as
      (st' & t' & E1 & E2 & a & k & v & Hrun & Hinv' & He & _ & He' & Hsz & Hnp);
      [lia|unfold Size in Hb; lia|done|].
    exists st'. split_and!; [done|done|].
    destruct Hinv' as (H' & _ & _ & _ & Hbst' & _). apply sorted_iff in Hbst'.
    unfold Find. rewrite (getRBNode_models fuel st' t' key H').
    + destruct (find key t') eqn:Hf; [|done].
      exfalso. apply Hnp, find_present; [done|]. by rewrite Hf.
    + pose proof (height_le_length t') as Hh'.
      assert (length (elements t') <= length (elements t))%nat; [|lia].
      rewrite <- (length_fmap snd (elements t')), He', length_fmap, He.
      rewrite !length_app. simpl. lia.
  - intros Hnp. apply (Delete_absent fuel st t key Hinv); [lia|done].
Qed.

End Operations.

(** C5: [Add] of 10, 20 and 30 to the empty tree under the ascending integer
    comparator: the root holds 20 and is Black, its left child holds 10 and
    is Red, its right child holds 30 and is Red, both children are childless,
    the keys in order are 10, 20, 30, the five invariants hold and
    [IsRedBlackTree] accepts the tree. *)
Theorem C5_insert_10_20_30 :
  exists st r l rr,
    run_ops 8 (NewRBTree []) [OpAdd 10 0; OpAdd 20 0; OpAdd 30 0] = Done st
    /\ Root st = Some r
    /\ Key (deref (heap_of st) r) = 20
    /\ color (deref (heap_of st) r) = Black
    /\ left (deref (heap_of st) r) = Some l
    /\ right (deref (heap_of st) r) = Some rr
    /\ Key (deref (heap_of st) l) = 10
    /\ color (deref (heap_of st) l) = Red
    /\ left (deref (heap_of st) l) = None
    /\ right (deref (heap_of st) l) = None
    /\ Key (deref (heap_of st) rr) = 30
    /\ color (deref (heap_of st) rr) = Red
    /\ left (deref (heap_of st) rr) = None
    /\ right (deref (heap_of st) rr) = None
    /\ (exists t, invariants st t /\ keys t = [10; 20; 30])
    /\ IsRedBlackTree 8 (heap_of st) (Root st) = Done true.
Proof.
  exists st_10_20_30, 6%nat, 1%nat, 9%nat.
  split; [by vm_compute|]. split_and!; try done.
  exists t_10_20_30. split; [apply invariants_st_10_20_30|done].
Qed.

Section Validation.

Context {K V : Type} `{!ZeroValue K, !ZeroValue V, !Comparator K}.
Implicit Types (h : list (RBNode (K:=K) (V:=V))) (st : state (K:=K) (V:=V)).
Implicit Types (t l r : tree (K:=K) (V:=V)) (ctx : list (frame (K:=K) (V:=V))).
Implicit Types (a p : addr) (q par d : ptr).

(** C3, as the code has it: [IsRedBlackTree] returns on every tree with
    correct parent back-references.  It returns true whenever the root is
    Black, no Red node has a Red child and every path from the root to an
    absent child holds the same number of Black nodes, whatever the order of
    the keys: the function takes no comparator and compares no keys.  When it
    returns true, the root is Black and no Red node has a Red child. *)
Theorem C3_IsRedBlackTree_checks_colours fuel h t :
  wf h None t -> (height t <= fuel)%nat -> 2 * Z.of_nat (height t) < 2 ^ 63 ->
  exists ok,
    IsRedBlackTree fuel h (ptr_of t) = Done ok
    /\ (root_black t -> no_red_red t -> equal_black_height t -> ok = true)
    /\ (ok = true -> root_black t /\ no_red_red t).
Proof.
  intros Hwf Hfuel Hb.
  destruct (IsRedBlackTree_wf fuel h t Hwf Hfuel Hb) as (ok & Hrun & Hiff).
  exists ok. split_and!; [done| |].
  - intros Hr Hn He. apply Hiff. split_and!; [done|done|].
    apply (rbt_leaves_at t 0). by apply rbt_iff.
  - intros Hok. apply Hiff in Hok as (Hr & Hn & _). done.
Qed.

End Validation.

Section Deletion.

Context {K V : Type} `{!ZeroValue K, !ZeroValue V, !Comparator K}.
Implicit Types (h : list (RBNode (K:=K) (V:=V))) (st : state (K:=K) (V:=V)).
Implicit Types (t l r : tree (K:=K) (V:=V)) (ctx : list (frame (K:=K) (V:=V))).
Implicit Types (a p : addr) (q par d : ptr).

Lemma calls_not_grown (cs evs : list call) c : cs <> evs ++ c :: cs.
Proof.
  intros Heq. apply (f_equal length) in Heq.
  rewrite length_app in Heq. simpl in Heq. lia.
Qed.

Lemma cparent_None ctx : cparent ctx = None <-> ctx = [].
Proof. by destruct ctx. Qed.

(** C6, as the code has it: [deleteNode] on a node of a valid tree calls
    [fixAfterDelete] exactly when the node it splices out is Black and is not
    a childless root; when the spliced-out node is Red, neither the fixup nor
    a rotation is called and every remaining node keeps its colour. *)
Theorem C6_fixAfterDelete_called_iff fuel st t n :
  invariants st t -> n ∈ addrs t -> (height t <= fuel)%nat ->
  exists st' t' sp,
    spliced_node fuel (heap_of st) n = Done (Some sp)
    /\ deleteNode fuel st (Some n) = Done st'
    /\ models st' t'
    /\ ((exists evs q, calls st' = evs ++ CallFixAfterDelete q :: calls st)
        <-> color (deref (heap_of st) sp) = Black
            /\ ~ (left (deref (heap_of st) sp) = None
                  /\ right (deref (heap_of st) sp) = None
                  /\ parent (deref (heap_of st) sp) = None))
    /\ (color (deref (heap_of st) sp) = Red ->
        calls st' = calls st
        /\ forall a, a ∈ addrs t' ->
             color (deref (heap_of st') a) = color (deref (heap_of st) a)).
Proof.
  intros (H & Hrootb & Hnrr & Hebh & _ & _) Hn Hfuel.
  assert (Hrb : rbt None t) by (by apply rbt_iff).
  destruct (addr_zipper t n Hn) as (ctx & c & k & v & l & r & ->).
  pose proof (models_deref _ _ _ _ _ _ _ _ H) as Hd.
  assert (Hcases : (l = E \/ r = E) \/ (l <> E /\ r <> E)).
  { clear. destruct l, r; naive_solver. }
  destruct Hcases as [Hs|[Hl Hr]].
  - destruct (deleteNode_simple fuel st ctx n c k v l r H Hrb Hrootb Hs)
      as (st' & t' & Hrun & H' & _ & _ & _ & _ & Hred & Hblk).
    { pose proof (height_plug ctx (T n c k v l r)) as Hh.
      simpl in Hh. clear -Hh Hfuel. lia. }
    exists st', t', n. split_and!; [|done|done| |].
    + unfold spliced_node. rewrite Hd. cbn [left right].
      replace (bool_decide (ptr_of l <> None) && bool_decide (ptr_of r <> None))
        with false; [done|].
      by destruct Hs as [-> | ->]; simpl; rewrite ?andb_false_r.
    + rewrite Hd. cbn [color left right parent].
      rewrite !ptr_of_None, cparent_None. split.
      * intros (evs & q & Hevs). destruct c.
        -- split; [done|]. intros (-> & -> & ->).
           destruct Hred as [Hc _]; [by right|].
           rewrite Hc in Hevs. by apply calls_not_grown in Hevs.
        -- destruct Hred as [Hc _]; [by left|].
           rewrite Hc in Hevs. by apply calls_not_grown in Hevs.
      * intros (-> & Hnl). apply Hblk; [done|]. intros (-> & -> & ->).
        by apply Hnl.
    + rewrite Hd. cbn [color]. intros ->. apply Hred. by left.
  - destruct (deleteNode_two fuel st ctx n c k v l r H Hrb Hrootb Hl Hr Hfuel)
      as (st' & t' & s & cs & ks & vs & sr & R & _ & Hsucc & Hcell & _ & Hrun
          & H' & _ & _ & _ & _ & Hred & Hblk).
    exists st', t', s. split_and!; [|done|done| |].
    + unfold spliced_node. rewrite Hd. cbn [left right].
      replace (bool_decide (ptr_of l <> None) && bool_decide (ptr_of r <> None))
        with true by (by destruct l, r).
      done.
    + rewrite (deref_lookup _ _ _ Hcell). cbn [color left right parent]. split.
      * intros (evs & q & Hevs). split.
        -- destruct cs; [done|]. destruct Hred as [Hc _]; [done|].
           rewrite Hc in Hevs. by apply calls_not_grown in Hevs.
        -- intros (_ & _ & Hp). by destruct (min_zip r []).1.
      * intros (-> & _). by apply Hblk.
    + rewrite (deref_lookup _ _ _ Hcell). cbn [color]. intros ->. by apply Hred.
Qed.

(** C8: when the node to delete has two children in a valid tree,
    [getSuccessor] returns the node that follows it in order, which has no
    left child; [deleteNode] copies the key and value of that successor into
    the node and removes the successor: the node stays in the tree, at its
    place, with the successor's entry. *)
Theorem C8_deleteNode_two_children fuel st t n :
  invariants st t -> n ∈ addrs t ->
  left (deref (heap_of st) n) <> None ->
  right (deref (heap_of st) n) <> None ->
  (height t <= fuel)%nat ->
  exists st' t' s E1 E2 kv ks vs,
    getSuccessor fuel (heap_of st) (Some n) = Done (Some s)
    /\ left (deref (heap_of st) s) = None
    /\ Key (deref (heap_of st) s) = ks
    /\ Value (deref (heap_of st) s) = vs
    /\ elements t = E1 ++ (n, kv) :: (s, (ks, vs)) :: E2
    /\ deleteNode fuel st (Some n) = Done st'
    /\ models st' t'
    /\ elements t' = E1 ++ (n, (ks, vs)) :: E2
    /\ Key (deref (heap_of st') n) = ks
    /\ Value (deref (heap_of st') n) = vs.
Proof.
  intros (H & Hrootb & Hnrr & Hebh & _ & _) Hn Hleft Hright Hfuel.
  assert (Hrb : rbt None t) by (by apply rbt_iff).
  destruct (addr_zipper t n Hn) as (ctx & c & k & v & l & r & ->).
  rewrite (models_deref _ _ _ _ _ _ _ _ H) in Hleft, Hright.
  cbn [left right] in Hleft, Hright.
  rewrite ptr_of_None in Hleft, Hright.
  destruct (deleteNode_two fuel st ctx n c k v l r H Hrb Hrootb Hleft Hright
              Hfuel)
    as (st' & t' & s & cs & ks & vs & sr & R & _ & Hsucc & Hcell & HR & Hrun
        & H' & _ & _ & Hel' & _).
  exists st', t', s, (cleft ctx ++ elements l), (R ++ cright ctx), (k, v),
    ks, vs.
  rewrite (deref_lookup _ _ _ Hcell). cbn [left Key Value].
  split_and!; try done.
  - rewrite elements_plug. simpl. rewrite HR. by rewrite <- !app_assoc.
  - by rewrite Hel', <- !app_assoc.
  - destruct H' as (_ & Hwf' & _).
    apply (wf_elements _ _ _ n ks vs Hwf'). rewrite Hel'. set_solver.
  - destruct H' as (_ & Hwf' & _).
    apply (wf_elements _ _ _ n ks vs Hwf'). rewrite Hel'. set_solver.
Qed.

End Deletion.

Section Rotations.

Context {K V : Type} `{!ZeroValue K, !ZeroValue V, !Comparator K}.
Context `{!ComparatorLaws K}.
Implicit Types (h : list (RBNode (K:=K) (V:=V))) (st : state (K:=K) (V:=V)).
Implicit Types (t l r : tree (K:=K) (V:=V)) (ctx : list (frame (K:=K) (V:=V))).
Implicit Types (a b p : addr) (q par d : ptr).

Lemma bst_elements t t' : elements t' = elements t -> bst t -> bst t'.
Proof.
  intros He Hb. apply sorted_iff. apply sorted_iff in Hb.
  unfold sorted, keys in *. by rewrite He.
Qed.

Lemma rotateLeft_spec st t a :
  models st t -> a ∈ addrs t ->
  (right (deref (heap_of st) a) = None ->
   heap_of (rotateLeft st (Some a)) = heap_of st
   /\ root (rotateLeft st (Some a)) = root st
   /\ size (rotateLeft st (Some a)) = size st)
  /\ (forall b, right (deref (heap_of st) a) = Some b ->
      exists t',
        models (rotateLeft st (Some a)) t'
        /\ elements t' = elements t
        /\ (bst t -> bst t')
        /\ parent (deref (heap_of (rotateLeft st (Some a))) b)
           = parent (deref (heap_of st) a)
        /\ parent (deref (heap_of (rotateLeft st (Some a))) a) = Some b
        /\ (forall x, left (deref (heap_of st) b) = Some x ->
                      parent (deref (heap_of (rotateLeft st (Some a))) x)
                      = Some a)
        /\ (root st = Some a -> root (rotateLeft st (Some a)) = Some b)).
Proof.
  intros H Ha.
  destruct (addr_zipper t a Ha) as (ctx & c & k & v & l & r & ->).
  pose proof (models_deref _ _ _ _ _ _ _ _ H) as Hd. split.
  - intros Hr. unfold rotateLeft. cbn [log heap_of]. by rewrite Hr.
  - intros b Hr. rewrite Hd in Hr. cbn [right] in Hr.
    destruct r as [|b' cb kb vb rl rr]; [done|]. injection Hr as ->.
    pose proof (rotateLeft_models _ _ _ _ _ _ _ _ _ _ _ _ _ H) as H'.
    assert (He : elements (plug ctx (T b cb kb vb (T a c k v l rl) rr))
                 = elements (plug ctx (T a c k v l (T b cb kb vb rl rr)))).
    { rewrite !elements_plug. simpl.
      repeat (rewrite <- ?app_assoc; simpl). done. }
    eexists. split_and!; [exact H'|exact He|exact (bst_elements _ _ He)| | | |].
    + rewrite Hd, (models_deref _ _ _ _ _ _ _ _ H'). done.
    + by rewrite (models_deref _ (InLeft b cb kb vb rr :: ctx) a c k v l rl H').
    + intros x.
      rewrite (models_deref _ (InRight a c k v l :: ctx) b cb kb vb rl rr H).
      cbn [left]. destruct rl as [|x' cx kx vx xl xr]; [done|].
      intros [= ->].
      by rewrite (models_deref _ (InRight a c k v l :: InLeft b cb kb vb rr
                                   :: ctx) x cx kx vx xl xr H').
    + intros Hroot. apply (root_models _ _ _ _ _ _ _ _ H) in Hroot as ->.
      by destruct H' as (-> & _).
Qed.

Lemma rotateRight_spec st t a :
  models st t -> a ∈ addrs t ->
  (left (deref (heap_of st) a) = None ->
   heap_of (rotateRight st (Some a)) = heap_of st
   /\ root (rotateRight st (Some a)) = root st
   /\ size (rotateRight st (Some a)) = size st)
  /\ (forall b, left (deref (heap_of st) a) = Some b ->
      exists t',
        models (rotateRight st (Some a)) t'
        /\ elements t' = elements t
        /\ (bst t -> bst t')
        /\ parent (deref (heap_of (rotateRight st (Some a))) b)
           = parent (deref (heap_of st) a)
        /\ parent (deref (heap_of (rotateRight st (Some a))) a) = Some b
        /\ (forall x, right (deref (heap_of st) b) = Some x ->
                      parent (deref (heap_of (rotateRight st (Some a))) x)
                      = Some a)
        /\ (root st = Some a -> root (rotateRight st (Some a)) = Some b)).
Proof.
  intros H Ha.
  destruct (addr_zipper t a Ha) as (ctx & c & k & v & l & r & ->).
  pose proof (models_deref _ _ _ _ _ _ _ _ H) as Hd. split.
  - intros Hl. unfold rotateRight. cbn [log heap_of]. by rewrite Hl.
  - intros b Hl. rewrite Hd in Hl. cbn [left] in Hl.
    destruct l as [|b' cb kb vb ll lr]; [done|]. injection Hl as ->.
    pose proof (rotateRight_models _ _ _ _ _ _ _ _ _ _ _ _ _ H) as H'.
    assert (He : elements (plug ctx (T b cb kb vb ll (T a c k v lr r)))
                 = elements (plug ctx (T a c k v (T b cb kb vb ll lr) r))).
    { rewrite !elements_plug. simpl.
      repeat (rewrite <- ?app_assoc; simpl). done. }
    eexists. split_and!; [exact H'|exact He|exact (bst_elements _ _ He)| | | |].
    + rewrite Hd, (models_deref _ _ _ _ _ _ _ _ H'). done.
    + by rewrite (models_deref _ (InRight b cb kb vb ll :: ctx) a c k v lr r H').
    + intros x.
      rewrite (models_deref _ (InLeft a c k v r :: ctx) b cb kb vb ll lr H).
      cbn [right]. destruct lr as [|x' cx kx vx xl xr]; [done|].
      intros [= ->].
      by rewrite (models_deref _ (InLeft a c k v r :: InRight b cb kb vb ll
                                   :: ctx) x cx kx vx xl xr H').
    + intros Hroot. apply (root_models _ _ _ _ _ _ _ _ H) in Hroot as ->.
      by destruct H' as (-> & _).
Qed.

(** C7: for a node [a] of the tree, [rotateLeft] with a right child [b] (and
    [rotateRight] with a left child [b]) keeps the in-order sequence of the
    nodes with their keys and values, hence the BST ordering; [b] takes the
    parent of [a], [a] gets [b] as parent, the subtree that changes sides
    gets [a] as parent, and [b] becomes the root when [a] was the root.
    Without the required child, and on nil, the heap, the root and the size
    are untouched. *)
Theorem C7_rotations st t a :
  models st t -> a ∈ addrs t ->
  ((right (deref (heap_of st) a) = None ->
    heap_of (rotateLeft st (Some a)) = heap_of st
    /\ root (rotateLeft st (Some a)) = root st
    /\ size (rotateLeft st (Some a)) = size st)
   /\ (forall b, right (deref (heap_of st) a) = Some b ->
       exists t',
         models (rotateLeft st (Some a)) t'
         /\ elements t' = elements t
         /\ (bst t -> bst t')
         /\ parent (deref (heap_of (rotateLeft st (Some a))) b)
            = parent (deref (heap_of st) a)
         /\ parent (deref (heap_of (rotateLeft st (Some a))) a) = Some b
         /\ (forall x, left (deref (heap_of st) b) = Some x ->
                       parent (deref (heap_of (rotateLeft st (Some a))) x)
                       = Some a)
         /\ (root st = Some a -> root (rotateLeft st (Some a)) = Some b)))
  /\ ((left (deref (heap_of st) a) = None ->
       heap_of (rotateRight st (Some a)) = heap_of st
       /\ root (rotateRight st (Some a)) = root st
       /\ size (rotateRight st (Some a)) = size st)
      /\ (forall b, left (deref (heap_of st) a) = Some b ->
          exists t',
            models (rotateRight st (Some a)) t'
            /\ elements t' = elements t
            /\ (bst t -> bst t')
            /\ parent (deref (heap_of (rotateRight st (Some a))) b)
               = parent (deref (heap_of st) a)
            /\ parent (deref (heap_of (rotateRight st (Some a))) a) = Some b
            /\ (forall x, right (deref (heap_of st) b) = Some x ->
                          parent (deref (heap_of (rotateRight st (Some a))) x)
                          = Some a)
            /\ (root st = Some a -> root (rotateRight st (Some a)) = Some b)))
  /\ (heap_of (rotateLeft st None) = heap_of st
      /\ root (rotateLeft st None) = root st
      /\ size (rotateLeft st None) = size st)
  /\ (heap_of (rotateRight st None) = heap_of st
      /\ root (rotateRight st None) = root st
      /\ size (rotateRight st None) = size st).
Proof.
  intros H Ha. split_and!; try done.
  - by apply (rotateLeft_spec st t a H Ha).
  - by apply (rotateLeft_spec st t a H Ha).
  - by apply (rotateRight_spec st t a H Ha).
  - by apply (rotateRight_spec st t a H Ha).
Qed.

End Rotations.

Section Insertion.

Context {K V : Type} `{!ZeroValue K, !ZeroValue V, !Comparator K}.
Context `{!ComparatorLaws K}.
Implicit Types (h : list (RBNode (K:=K) (V:=V))) (st : state (K:=K) (V:=V)).
Implicit Types (t l r : tree (K:=K) (V:=V)) (ctx : list (frame (K:=K) (V:=V))).
Implicit Types (a p : addr) (q par d : ptr).

(** The uncle of the focused node is the sibling of its parent. *)
Lemma uncle_color st fp fg ctx2 xa xc xk xv xl xr :
  models st (plug (fp :: fg :: ctx2) (T xa xc xk xv xl xr)) ->
  getColor (heap_of st) (getUncle (heap_of st) (Some xa)) = tcolor (fsib fg).
Proof.
  intros H.
  destruct fp as [pa cp kp vp s|pa cp kp vp s],
           fg as [g cg kg vg u|g cg kg vg u].
  all: cells_nd H.
  all: unfold getUncle, getBrother, getParent, getLeft, getRight.
  all: hread; try done.
  all: try (exfalso; ptr_absurd).
Qed.

Lemma calls_fixAfterAdd_body st q :
  exists evs,
    calls (fixAfterAdd_body st q).1 = evs ++ calls st
    /\ (length evs <= 2)%nat
    /\ (getColor (heap_of st) (getUncle (heap_of st) q) = Red -> evs = []).
Proof.
  unfold fixAfterAdd_body.
  destruct (getColor (heap_of st) (getUncle (heap_of st) q)); cbn [negb].
  - unfold fixAddLeftBlack, fixAddRightBlack. cbv beta zeta.
    repeat (match goal with
            | |- context [if ?b then _ else _] => destruct b
            end; cbv beta iota zeta);
      cbn [fst snd];
      repeat first [ rewrite calls_setColor | rewrite calls_rotateLeft
                   | rewrite calls_rotateRight ];
      first [ exists []; split_and!; [reflexivity|simpl; lia|done]
            | eexists [_]; split_and!; [reflexivity|simpl; lia|done]
            | eexists [_; _]; split_and!; [reflexivity|simpl; lia|done] ].
  - exists []. unfold fixUncleRed. cbn [fst].
    rewrite !calls_setColor. split_and!; [done|simpl; lia|done].
Qed.

(** A new Red leaf at an absent-child position of a valid tree is a state of
    the loop of [fixAfterAdd]. *)
Lemma add_inv_leaf ctx a k v :
  rbt None (plug ctx E) -> tcolor (plug ctx E) = Black ->
  add_inv ctx (T a Red k v E E).
Proof.
  intros Hrb Hc. destruct (cok_of_plug _ _ _ Hrb Hc) as [_ Hcok].
  by split_and!.
Qed.

(** C9: [Add] to a valid tree returns, so the loop of [fixAfterAdd] ends.  A
    new Red leaf at an absent-child position of the tree is a state of that
    loop, and from every state of the loop one iteration leads to a state of
    the loop again: with a Red uncle it calls no rotation and [x] moves two
    levels towards the root; with a Black uncle it calls at most two
    rotations and the loop condition is false afterwards. *)
Theorem C9_fixAfterAdd_terminates fuel st t na nd :
  invariants st t -> heap_of st !! na = Some nd -> (height t < fuel)%nat ->
  (exists res, Add fuel st (Some na) = Done res)
  /\ (forall ctx a k v, plug ctx E = t -> add_inv ctx (T a Red k v E E))
  /\ (forall s ctx x,
        models s (plug ctx x) -> add_inv ctx x ->
        fixAfterAdd_cond s (ptr_of x) = true ->
        exists s1 ctx1 x1,
          fixAfterAdd_body s (ptr_of x) = (s1, ptr_of x1)
          /\ models s1 (plug ctx1 x1) /\ add_inv ctx1 x1
          /\ (if getColor (heap_of s) (getUncle (heap_of s) (ptr_of x))
              then fixAfterAdd_cond s1 (ptr_of x1) = false
                   /\ exists evs, calls s1 = evs ++ calls s
                                  /\ (length evs <= 2)%nat
              else (length ctx1 + 2 = length ctx)%nat
                   /\ calls s1 = calls s)).
Proof.
  intros (H & Hrootb & Hnrr & Hebh & Hbst & _) Hna Hfuel.
  assert (Hrb : rbt None t) by (by apply rbt_iff).
  split_and!.
  - destruct t as [|a c k v l r].
    + destruct fuel as [|fuel]; [lia|].
      destruct H as (Hroot & _).
      destruct (addNode_empty fuel st na nd Hroot Hna) as (st' & Hadd & _).
      by eexists.
    + destruct (ins_path (Key nd) (T a c k v l r) [] 0) as [[ctx' cmp']|]
        eqn:Hins.
      * destruct (addNode_insert fuel st _ na nd ctx' cmp' H ltac:(done) Hna
                    Hfuel Hins Hrb Hrootb) as (st' & t' & Hadd & _).
        by eexists.
      * unfold Add. rewrite (addNode_dup fuel st _ na nd H Hna); [|lia|done].
        by eexists.
  - intros ctx a k v <-. by apply add_inv_leaf.
  - intros s ctx x Hs Hinv Hcond.
    pose proof Hinv as (Hne & _).
    destruct x as [|xa xc xk xv xl xr]; [done|].
    rewrite (fixAfterAdd_cond_models _ _ _ _ _ _ _ _ Hs) in Hcond.
    destruct (add_inv_grandparent _ _ Hinv Hcond)
      as (fp & fg & ctx2 & -> & Hfp & Hfg).
    destruct (fixAfterAdd_body_ok _ _ _ _ _ _ _ _ _ _ Hs) as (s1 & Hb & Hs1 & _).
    destruct (add_step_inv _ _ Hinv Hcond) as [Hinv1 Hlen].
    destruct (calls_fixAfterAdd_body s (Some xa)) as (evs & Hevs & Hlen2 & Hred).
    cbn [ptr_of]. rewrite Hb in Hevs. cbn [fst] in Hevs.
    exists s1, (add_step (fp :: fg :: ctx2) (T xa xc xk xv xl xr)).1,
      (add_step (fp :: fg :: ctx2) (T xa xc xk xv xl xr)).2.
    split_and!; [done..|].
    rewrite (uncle_color _ _ _ _ _ _ _ _ _ _ Hs) in Hred |- *.
    pose proof Hinv1 as (Hne1 & _).
    destruct (tcolor (fsib fg)) eqn:Hu.
    + split; [|by eauto].
      destruct (add_step _ _).2 as [|ya yc yk yv yl yr] eqn:Hy; [done|].
      rewrite (fixAfterAdd_cond_models _ _ _ _ _ _ _ _ Hs1).
      revert Hy. unfold add_step. rewrite Hu. cbn [negb].
      destruct fg, fp; cbn [fst snd]; done.
    + split; [|by rewrite Hevs, (Hred eq_refl)].
      unfold add_step. rewrite Hu. cbn [negb fst length]. lia.
Qed.

(** C10, as the code has it: [Add] of a node that is not a node of the tree
    leaves that node outside the tree, whether it returns nil or the
    duplicate-key error: a new key and its value are copied into the node
    [tn], allocated by the call, and whatever is stored into the argument
    afterwards, the root and every node of the tree are as [Add] left
    them. *)
Theorem C10_Add_copies_the_argument fuel st t na nd :
  invariants st t -> heap_of st !! na = Some nd -> na ∉ addrs t ->
  (height t < fuel)%nat -> Z.of_nat (length (elements t)) + 1 < 2 ^ 63 ->
  exists st' err t',
    Add fuel st (Some na) = Done (st', err)
    /\ invariants st' t'
    /\ na ∉ addrs t'
    /\ (err = None ->
        exists tn, (length (heap_of st) <= tn)%nat
                   /\ (tn, (Key nd, Value nd)) ∈ elements t')
    /\ (forall f,
          root (store st' na f) = root st'
          /\ models (store st' na f) t'
          /\ forall a, a ∈ addrs t' ->
               heap_of (store st' na f) !! a = heap_of st' !! a).
Proof.
  intros Hinv Hna Hnin Hfuel Hb.
  pose proof Hinv as (_ & _ & _ & _ & Hbst & _). apply sorted_iff in Hbst.
  assert (Hfin : forall (st' : state (K:=K) (V:=V)) t',
    models st' t' -> na ∉ addrs t' ->
    forall f,
      root (store st' na f) = root st'
      /\ models (store st' na f) t'
      /\ forall a, a ∈ addrs t' ->
           heap_of (store st' na f) !! a = heap_of st' !! a).
  { intros st' t' H' Hn' f. split_and!; [done|by apply models_store_outside|].
    intros a Ha. simpl. apply list_lookup_alter_ne. by intros ->. }
  destruct (present_dec (Key nd) t Hbst) as [Hp|Hp].
  - rewrite (Add_present fuel st t na nd Hinv Hna) by (done || lia).
    eexists _, _, t. split; [done|].
    pose proof (invariants_alloc st t zeroNode Hinv) as Hinv'.
    split_and!; [done|done|done|].
    apply Hfin; [apply Hinv'|done].
  - destruct (Add_new fuel st t na nd Hinv Hna Hfuel Hb Hp)
      as (st' & t' & E1 & E2 & tn & Hrun & Hinv' & He & He' & Htn).
    exists st', None, t'. split; [done|].
    assert (Hn' : na ∉ addrs t').
    { unfold addrs in *. rewrite He' , fmap_app, fmap_cons.
      rewrite He, fmap_app in Hnin. apply lookup_lt_Some in Hna.
      rewrite not_elem_of_app, not_elem_of_cons.
      apply not_elem_of_app in Hnin as [? ?]. split_and!; [done|simpl; lia|done]. }
    split_and!; [done|done| |].
    + intros _. exists tn. split; [done|]. rewrite He'. set_solver.
    + apply Hfin; [apply Hinv'|done].
Qed.

End Insertion.

(** ** The claims on the example trees *)

(** The first claim on two insertions followed by a deletion. *)
Lemma C1_witness :
  ((length [OpAdd 10 0; OpAdd 20 0; OpDelete 10] <= 8%nat)%nat)
  /\
  (Z.of_nat (length [OpAdd 10 0; OpAdd 20 0; OpDelete 10]) < 2 ^ 63)
  /\
  (exists st t,
      run_ops 8%nat (NewRBTree (@nil (RBNode (K:=Z) (V:=Z)))) [OpAdd 10 0; OpAdd 20 0; OpDelete 10] = Done st
      /\ models st t /\ root_black t /\ no_red_red t /\ equal_black_height t
      /\ bst t /\ size_ok st t).
Proof.
  assert (H1 : (length [OpAdd 10 0; OpAdd 20 0; OpDelete 10] <= 8%nat)%nat).
  { simpl; lia. }
  assert (H2 : Z.of_nat (length [OpAdd 10 0; OpAdd 20 0; OpDelete 10]) < 2 ^ 63).
  { simpl; lia. }
  exact (conj H1 (conj H2 (C1_invariants_after_every_operation 8%nat (@nil (RBNode (K:=Z) (V:=Z))) [OpAdd 10 0; OpAdd 20 0; OpDelete 10] H1 H2))).
Defined.

(** A second [Add] of the key 10 to the tree of 10, 20 and 30. *)
Lemma C2_witness :
  (invariants st_10_20_30 t_10_20_30)
  /\
  (heap_of st_10_20_30 !! 0%nat = Some (mkRBNode Red 10 0 None None None))
  /\
  (present (Key (mkRBNode Red 10 0 None None None)) t_10_20_30)
  /\
  ((height t_10_20_30 <= 8%nat)%nat)
  /\
  (exists st',
      Add 8%nat st_10_20_30 (Some 0%nat) = Done (st', Some ErrRBTreeSameRBNode)
      /\ Root st' = Root st_10_20_30 /\ Size st' = Size st_10_20_30
      /\ (forall a n, heap_of st_10_20_30 !! a = Some n -> heap_of st' !! a = Some n)
      /\ invariants st' t_10_20_30).
Proof.
  assert (H1 : invariants st_10_20_30 t_10_20_30).
  { exact invariants_st_10_20_30. }
  assert (H2 : heap_of st_10_20_30 !! 0%nat = Some (mkRBNode Red 10 0 None None None)).
  { reflexivity. }
  assert (H3 : present (Key (mkRBNode Red 10 0 None None None)) t_10_20_30).
  { exists 10; split; [apply list_elem_of_here|reflexivity]. }
  assert (H4 : (height t_10_20_30 <= 8%nat)%nat).
  { simpl; lia. }
  exact (conj H1 (conj H2 (conj H3 (conj H4 (C2_Add_duplicate_no_mutation 8%nat st_10_20_30 t_10_20_30 0%nat (mkRBNode Red 10 0 None None None) H1 H2 H3 H4))))).
Defined.

(** The validator on the tree with the keys out of order. *)
Lemma C3_witness :
  (wf h_unordered None t_unordered)
  /\
  ((height t_unordered <= 4%nat)%nat)
  /\
  (2 * Z.of_nat (height t_unordered) < 2 ^ 63)
  /\
  (exists ok,
      IsRedBlackTree 4%nat h_unordered (ptr_of t_unordered) = Done ok
      /\ (root_black t_unordered -> no_red_red t_unordered -> equal_black_height t_unordered -> ok = true)
      /\ (ok = true -> root_black t_unordered /\ no_red_red t_unordered)).
Proof.
  assert (H1 : wf h_unordered None t_unordered).
  { cbn; repeat split. }
  assert (H2 : (height t_unordered <= 4%nat)%nat).
  { simpl; lia. }
  assert (H3 : 2 * Z.of_nat (height t_unordered) < 2 ^ 63).
  { simpl; lia. }
  exact (conj H1 (conj H2 (conj H3 (C3_IsRedBlackTree_checks_colours 4%nat h_unordered t_unordered H1 H2 H3)))).
Defined.

(** [Delete] of 20 from the tree of 10, 20 and 30. *)
Lemma C4_witness :
  (invariants st_10_20_30 t_10_20_30)
  /\
  ((length (elements t_10_20_30) <= 8%nat)%nat)
  /\
  (Size st_10_20_30 < 2 ^ 63)
  /\
  ((present 20 t_10_20_30 ->
     exists st', Delete 8%nat st_10_20_30 20 = Done st'
                 /\ Size st' = Size st_10_20_30 - 1
                 /\ Find 8%nat st' 20 = Done None)
    /\ (~ present 20 t_10_20_30 -> Delete 8%nat st_10_20_30 20 = Done st_10_20_30)).
Proof.
  assert (H1 : invariants st_10_20_30 t_10_20_30).
  { exact invariants_st_10_20_30. }
  assert (H2 : (length (elements t_10_20_30) <= 8%nat)%nat).
  { simpl; lia. }
  assert (H3 : Size st_10_20_30 < 2 ^ 63).
  { unfold Size; simpl; lia. }
  exact (conj H1 (conj H2 (conj H3 (C4_Delete_present_absent 8%nat st_10_20_30 t_10_20_30 20 H1 H2 H3)))).
Defined.

(** [deleteNode] of the root of the tree of 10, 20 and 30. *)
Lemma C6_witness :
  (invariants st_10_20_30 t_10_20_30)
  /\
  (6%nat ∈ addrs t_10_20_30)
  /\
  ((height t_10_20_30 <= 8%nat)%nat)
  /\
  (exists st' t' sp,
      spliced_node 8%nat (heap_of st_10_20_30) 6%nat = Done (Some sp)
      /\ deleteNode 8%nat st_10_20_30 (Some 6%nat) = Done st'
      /\ models st' t'
      /\ ((exists evs q, calls st' = evs ++ CallFixAfterDelete q :: calls st_10_20_30)
          <-> color (deref (heap_of st_10_20_30) sp) = Black
              /\ ~ (left (deref (heap_of st_10_20_30) sp) = None
                    /\ right (deref (heap_of st_10_20_30) sp) = None
                    /\ parent (deref (heap_of st_10_20_30) sp) = None))
      /\ (color (deref (heap_of st_10_20_30) sp) = Red ->
          calls st' = calls st_10_20_30
          /\ forall a, a ∈ addrs t' ->
               color (deref (heap_of st') a) = color (deref (heap_of st_10_20_30) a))).
Proof.
  assert (H1 : invariants st_10_20_30 t_10_20_30).
  { exact invariants_st_10_20_30. }
  assert (H2 : 6%nat ∈ addrs t_10_20_30).
  { vm_compute; apply list_elem_of_further, list_elem_of_here. }
  assert (H3 : (height t_10_20_30 <= 8%nat)%nat).
  { simpl; lia. }
  exact (conj H1 (conj H2 (conj H3 (C6_fixAfterDelete_called_iff 8%nat st_10_20_30 t_10_20_30 6%nat H1 H2 H3)))).
Defined.

(** The rotations at the root of the tree of 10, 20 and 30. *)
Lemma C7_witness :
  (models st_10_20_30 t_10_20_30)
  /\
  (6%nat ∈ addrs t_10_20_30)
  /\
  (((right (deref (heap_of st_10_20_30) 6%nat) = None ->
      heap_of (rotateLeft st_10_20_30 (Some 6%nat)) = heap_of st_10_20_30
      /\ root (rotateLeft st_10_20_30 (Some 6%nat)) = root st_10_20_30
      /\ size (rotateLeft st_10_20_30 (Some 6%nat)) = size st_10_20_30)
     /\ (forall b, right (deref (heap_of st_10_20_30) 6%nat) = Some b ->
         exists t',
           models (rotateLeft st_10_20_30 (Some 6%nat)) t'
           /\ elements t' = elements t_10_20_30
           /\ (bst t_10_20_30 -> bst t')
           /\ parent (deref (heap_of (rotateLeft st_10_20_30 (Some 6%nat))) b)
              = parent (deref (heap_of st_10_20_30) 6%nat)
           /\ parent (deref (heap_of (rotateLeft st_10_20_30 (Some 6%nat))) 6%nat) = Some b
           /\ (forall x, left (deref (heap_of st_10_20_30) b) = Some x ->
                         parent (deref (heap_of (rotateLeft st_10_20_30 (Some 6%nat))) x)
                         = Some 6%nat)
           /\ (root st_10_20_30 = Some 6%nat -> root (rotateLeft st_10_20_30 (Some 6%nat)) = Some b)))
    /\ ((left (deref (heap_of st_10_20_30) 6%nat) = None ->
         heap_of (rotateRight st_10_20_30 (Some 6%nat)) = heap_of st_10_20_30
         /\ root (rotateRight st_10_20_30 (Some 6%nat)) = root st_10_20_30
         /\ size (rotateRight st_10_20_30 (Some 6%nat)) = size st_10_20_30)
        /\ (forall b, left (deref (heap_of st_10_20_30) 6%nat) = Some b ->
            exists t',
              models (rotateRight st_10_20_30 (Some 6%nat)) t'
              /\ elements t' = elements t_10_20_30
              /\ (bst t_10_20_30 -> bst t')
              /\ parent (deref (heap_of (rotateRight st_10_20_30 (Some 6%nat))) b)
                 = parent (deref (heap_of st_10_20_30) 6%nat)
              /\ parent (deref (heap_of (rotateRight st_10_20_30 (Some 6%nat))) 6%nat) = Some b
              /\ (forall x, right (deref (heap_of st_10_20_30) b) = Some x ->
                            parent (deref (heap_of (rotateRight st_10_20_30 (Some 6%nat))) x)
                            = Some 6%nat)
              /\ (root st_10_20_30 = Some 6%nat -> root (rotateRight st_10_20_30 (Some 6%nat)) = Some b)))
    /\ (heap_of (rotateLeft st_10_20_30 None) = heap_of st_10_20_30
        /\ root (rotateLeft st_10_20_30 None) = root st_10_20_30
        /\ size (rotateLeft st_10_20_30 None) = size st_10_20_30)
    /\ (heap_of (rotateRight st_10_20_30 None) = heap_of st_10_20_30
        /\ root (rotateRight st_10_20_30 None) = root st_10_20_30
        /\ size (rotateRight st_10_20_30 None) = size st_10_20_30)).
Proof.
  assert (H1 : models st_10_20_30 t_10_20_30).
  { exact (proj1 invariants_st_10_20_30). }
  assert (H2 : 6%nat ∈ addrs t_10_20_30).
  { vm_compute; apply list_elem_of_further, list_elem_of_here. }
  exact (conj H1 (conj H2 (C7_rotations st_10_20_30 t_10_20_30 6%nat H1 H2))).
Defined.

(** The root of the tree of 10, 20 and 30 has two children. *)
Lemma C8_witness :
  (invariants st_10_20_30 t_10_20_30)
  /\
  (6%nat ∈ addrs t_10_20_30)
  /\
  (left (deref (heap_of st_10_20_30) 6%nat) <> None)
  /\
  (right (deref (heap_of st_10_20_30) 6%nat) <> None)
  /\
  ((height t_10_20_30 <= 8%nat)%nat)
  /\
  (exists st' t' s E1 E2 kv ks vs,
      getSuccessor 8%nat (heap_of st_10_20_30) (Some 6%nat) = Done (Some s)
      /\ left (deref (heap_of st_10_20_30) s) = None
      /\ Key (deref (heap_of st_10_20_30) s) = ks
      /\ Value (deref (heap_of st_10_20_30) s) = vs
      /\ elements t_10_20_30 = E1 ++ (6%nat, kv) :: (s, (ks, vs)) :: E2
      /\ deleteNode 8%nat st_10_20_30 (Some 6%nat) = Done st'
      /\ models st' t'
      /\ elements t' = E1 ++ (6%nat, (ks, vs)) :: E2
      /\ Key (deref (heap_of st') 6%nat) = ks
      /\ Value (deref (heap_of st') 6%nat) = vs).
Proof.
  assert (H1 : invariants st_10_20_30 t_10_20_30).
  { exact invariants_st_10_20_30. }
  assert (H2 : 6%nat ∈ addrs t_10_20_30).
  { vm_compute; apply list_elem_of_further, list_elem_of_here. }
  assert (H3 : left (deref (heap_of st_10_20_30) 6%nat) <> None).
  { discriminate. }
  assert (H4 : right (deref (heap_of st_10_20_30) 6%nat) <> None).
  { discriminate. }
  assert (H5 : (height t_10_20_30 <= 8%nat)%nat).
  { simpl; lia. }
  exact (conj H1 (conj H2 (conj H3 (conj H4 (conj H5 (C8_deleteNode_two_children 8%nat st_10_20_30 t_10_20_30 6%nat H1 H2 H3 H4 H5)))))).
Defined.

(** [Add] of the new key 0 to the tree of 10, 20 and 30. *)
Lemma C9_witness :
  (invariants st_10_20_30 t_10_20_30)
  /\
  (heap_of st_10_20_30 !! 5%nat = Some (mkRBNode Red 0 0 None None None))
  /\
  ((height t_10_20_30 < 8%nat)%nat)
  /\
  ((exists res, Add 8%nat st_10_20_30 (Some 5%nat) = Done res)
    /\ (forall ctx a k v, plug ctx E = t_10_20_30 -> add_inv ctx (T a Red k v E E))
    /\ (forall s ctx x,
          models s (plug ctx x) -> add_inv ctx x ->
          fixAfterAdd_cond s (ptr_of x) = true ->
          exists s1 ctx1 x1,
            fixAfterAdd_body s (ptr_of x) = (s1, ptr_of x1)
            /\ models s1 (plug ctx1 x1) /\ add_inv ctx1 x1
            /\ (if getColor (heap_of s) (getUncle (heap_of s) (ptr_of x))
                then fixAfterAdd_cond s1 (ptr_of x1) = false
                     /\ exists evs, calls s1 = evs ++ calls s
                                    /\ (length evs <= 2)%nat
                else (length ctx1 + 2 = length ctx)%nat
                     /\ calls s1 = calls s))).
Proof.
  assert (H1 : invariants st_10_20_30 t_10_20_30).
  { exact invariants_st_10_20_30. }
  assert (H2 : heap_of st_10_20_30 !! 5%nat = Some (mkRBNode Red 0 0 None None None)).
  { reflexivity. }
  assert (H3 : (height t_10_20_30 < 8%nat)%nat).
  { simpl; lia. }
  exact (conj H1 (conj H2 (conj H3 (C9_fixAfterAdd_terminates 8%nat st_10_20_30 t_10_20_30 5%nat (mkRBNode Red 0 0 None None None) H1 H2 H3)))).
Defined.

(** [Add] of the node at address 5, which holds the new key 0 and is not in the tree of 10, 20 and 30. *)
Lemma C10_witness :
  (invariants st_10_20_30 t_10_20_30)
  /\
  (heap_of st_10_20_30 !! 5%nat = Some (mkRBNode Red 0 0 None None None))
  /\
  (5%nat ∉ addrs t_10_20_30)
  /\
  ((height t_10_20_30 < 8%nat)%nat)
  /\
  (Z.of_nat (length (elements t_10_20_30)) + 1 < 2 ^ 63)
  /\
  (exists st' err t',
      Add 8%nat st_10_20_30 (Some 5%nat) = Done (st', err)
      /\ invariants st' t'
      /\ 5%nat ∉ addrs t'
      /\ (err = None ->
          exists tn, (length (heap_of st_10_20_30) <= tn)%nat
                     /\ (tn, (Key (mkRBNode Red 0 0 None None None), Value (mkRBNode Red 0 0 None None None))) ∈ elements t')
      /\ (forall f,
            root (store st' 5%nat f) = root st'
            /\ models (store st' 5%nat f) t'
            /\ forall a, a ∈ addrs t' ->
                 heap_of (store st' 5%nat f) !! a = heap_of st' !! a)).
Proof.
  assert (H1 : invariants st_10_20_30 t_10_20_30).
  { exact invariants_st_10_20_30. }
  assert (H2 : heap_of st_10_20_30 !! 5%nat = Some (mkRBNode Red 0 0 None None None)).
  { reflexivity. }
  assert (H3 : 5%nat ∉ addrs t_10_20_30).
  { apply (bool_decide_unpack _); vm_compute; exact I. }
  assert (H4 : (height t_10_20_30 < 8%nat)%nat).
  { simpl; lia. }
  assert (H5 : Z.of_nat (length (elements t_10_20_30)) + 1 < 2 ^ 63).
  { simpl; lia. }
  exact (conj H1 (conj H2 (conj H3 (conj H4 (conj H5 (C10_Add_copies_the_argument 8%nat st_10_20_30 t_10_20_30 5%nat (mkRBNode Red 0 0 None None None) H1 H2 H3 H4 H5)))))).
Defined.



(** ** Where the specification and the code part *)

(** C3 does not hold as the specification words it.  [IsRedBlackTree] takes
    no comparator and accepts a tree whose keys are out of order: a Black
    root with the key 20 over a Red left child with the key 30. *)
Lemma C3_counterexample :
  wf h_unordered None t_unordered
  /\ root_black t_unordered /\ no_red_red t_unordered
  /\ equal_black_height t_unordered
  /\ IsRedBlackTree 4 h_unordered (ptr_of t_unordered) = Done true
  /\ ~ bst t_unordered.
Proof.
  assert (Hrb : rbt None t_unordered) by (cbn; by repeat split).
  apply rbt_iff in Hrb as [Hn He].
  split_and!; [cbn; by repeat split|done|done|done|by vm_compute|].
  simpl. intros (Hl & _). apply Forall_cons in Hl as [Hl _].
  by vm_compute in Hl.
Qed.

(** [nodeCheck] compares the number of Black nodes only where a node has no
    child at all.  Its comment promises the comparison for every path, yet on
    a Black root with a Black left child and no right child, where the two
    paths to absent children hold two Black nodes and one, [IsRedBlackTree]
    returns true. *)
Lemma IsRedBlackTree_one_child_path_not_compared :
  wf h_lopsided None t_lopsided
  /\ IsRedBlackTree 4 h_lopsided (ptr_of t_lopsided) = Done true
  /\ ~ equal_black_height t_lopsided.
Proof.
  split_and!.
  - cbn. by repeat split.
  - by vm_compute.
  - intros [n Hn].
    assert (H2 : path_blacks t_lopsided 2).
    { apply (path_left 0 Black 20 0 _ E 1).
      apply (path_left 1 Black 10 0 E E 0). constructor. }
    assert (H1 : path_blacks t_lopsided 1).
    { apply (path_right 0 Black 20 0 _ E 0). constructor. }
    apply Hn in H1, H2. lia.
Qed.

(** C6 does not hold as the specification words it.  In the tree that holds
    the single key 10, [deleteNode] of the root splices out the root itself,
    which is Black, and returns without a call of [fixAfterDelete]. *)
Lemma C6_counterexample :
  invariants st_10 t_10
  /\ spliced_node 4 (heap_of st_10) 1 = Done (Some 1%nat)
  /\ color (deref (heap_of st_10) 1) = Black
  /\ exists st',
       deleteNode 4 st_10 (Some 1%nat) = Done st'
       /\ calls st' = calls st_10.
Proof.
  split_and!; [apply invariants_st_10|done|done|].
  eexists. split; [by vm_compute|done].
Qed.

(** C10 does not hold as the specification words it.  The argument of [Add]
    may be a node of the tree: [Add] of the root of the tree that holds the
    key 10 returns the duplicate-key error, and [SetValue] on the argument
    afterwards changes the value held by the root. *)
Lemma C10_counterexample :
  invariants st_10 t_10
  /\ Root st_10 = Some 1%nat
  /\ exists st',
       Add 4 st_10 (Root st_10) = Done (st', Some ErrRBTreeSameRBNode)
       /\ Root st' = Root st_10
       /\ Value (deref (heap_of st') 1) = 0
       /\ Value (deref (heap_of (SetValue st' (Root st_10) 7)) 1) = 7.
Proof.
  split_and!; [apply invariants_st_10|done|].
  eexists. split; [by vm_compute|]. by split_and!.
Qed.

(** ** Further properties of the operations *)

Section Lookup.

Context {K V : Type} `{!ZeroValue K, !ZeroValue V, !Comparator K}.
Context `{!ComparatorLaws K}.
Implicit Types (h : list (RBNode (K:=K) (V:=V))) (st : state (K:=K) (V:=V)).
Implicit Types (t l r : tree (K:=K) (V:=V)) (ctx : list (frame (K:=K) (V:=V))).
Implicit Types (a p : addr) (q par d : ptr).

Lemma compare_refl (k : K) : compare k k = 0.
Proof.
  pose proof (compare_antisym k k) as Ha. clear -Ha.
  destruct (Z.lt_trichotomy (compare k k) 0) as [?|[?|?]]; [|done|]; lia.
Qed.

(** The node found by the descent is an entry of the tree. *)
Lemma find_entry key t a :
  find key t = Some a ->
  exists k v, (a, (k, v)) ∈ elements t /\ compare key k = 0.
Proof.
  intros (ctx & c & k & v & l & r & -> & Hk)%find_zipper.
  exists k, v. split; [|done]. rewrite elements_plug. simpl. set_solver.
Qed.

(** In an ordered sequence of entries, the entry of a key is unique. *)
Lemma sorted_entry_unique (E1 E2 : list (addr * (K * V))) a k v b k' v' key :
  StronglySorted klt (E1 ++ (a, (k, v)) :: E2).*2.*1 ->
  compare key k = 0 -> compare key k' = 0 ->
  (b, (k', v')) ∈ E1 ++ (a, (k, v)) :: E2 ->
  (b, (k', v')) = (a, (k, v)).
Proof.
  rewrite keys_entry. intros Hs Hk Hk' Hin.
  apply elem_of_app in Hin as [Hin|Hin]; [|apply elem_of_cons in Hin as [Hin|Hin]];
    [|done|].
  - exfalso. apply (sorted_absent _ _ _ _ Hs Hk k'); [|done].
    apply elem_of_app. left.
    apply (list_elem_of_fmap_2 snd), (list_elem_of_fmap_2 fst) in Hin.
    exact Hin.
  - exfalso. apply (sorted_absent _ _ _ _ Hs Hk k'); [|done].
    apply elem_of_app. right.
    apply (list_elem_of_fmap_2 snd), (list_elem_of_fmap_2 fst) in Hin.
    exact Hin.
Qed.

(** X1: [Find] on an ordered tree returns, within as many iterations as the
    tree is high: for a present key, the node of the tree whose key the
    comparator reports equal, with the key and the value that the tree holds
    there; for an absent key, nil. *)
Theorem X1_Find_correct fuel st t key :
  models st t -> bst t -> (height t <= fuel)%nat ->
  (present key t ->
   exists a k v,
     Find fuel st key = Done (Some a)
     /\ (a, (k, v)) ∈ elements t /\ compare key k = 0
     /\ Key (deref (heap_of st) a) = k
     /\ Value (deref (heap_of st) a) = v)
  /\ (~ present key t -> Find fuel st key = Done None).
Proof.
  intros H Hbst Hfuel. apply sorted_iff in Hbst.
  unfold Find. rewrite (getRBNode_models fuel st t key H Hfuel). split.
  - intros Hp. apply (find_present key t Hbst) in Hp.
    destruct (find key t) as [a|] eqn:Hf; [|done].
    destruct (find_entry _ _ _ Hf) as (k & v & Hin & Hk).
    exists a, k, v. split_and!; [done..| |].
    + destruct H as (_ & Hwf & _). by apply (wf_elements _ _ _ _ _ _ Hwf Hin).
    + destruct H as (_ & Hwf & _). by apply (wf_elements _ _ _ _ _ _ Hwf Hin).
  - intros Hnp. destruct (find key t) eqn:Hf; [|done].
    exfalso. apply Hnp, find_present; [done|]. by rewrite Hf.
Qed.

End Lookup.

Section Updates.

Context {K V : Type} `{!ZeroValue K, !ZeroValue V, !Comparator K}.
Context `{!ComparatorLaws K}.
Implicit Types (h : list (RBNode (K:=K) (V:=V))) (st : state (K:=K) (V:=V)).
Implicit Types (t l r : tree (K:=K) (V:=V)) (ctx : list (frame (K:=K) (V:=V))).
Implicit Types (a p : addr) (q par d : ptr).

Lemma present_entry key (E1 E2 : list (addr * (K * V))) a k v t :
  elements t = E1 ++ (a, (k, v)) :: E2 -> compare key k = 0 -> present key t.
Proof.
  intros He Hk. exists k. split; [|done]. unfold keys. rewrite He, keys_entry.
  set_solver.
Qed.

(** X2: [Add] of a node with a new key to a valid tree returns nil; the tree
    is valid again, its size is one more, and its entries in order are the
    old ones with the key and the value of the argument at one new place,
    held by a node [tn] that the call allocates: [tn] is no cell of the heap
    before the call, so it is neither the argument nor a node of the old
    tree.  A following [Find] of that key returns [tn], and [tn] holds the key
    and the value of the argument. *)
Theorem X2_Add_inserts_entry fuel st t na nd :
  invariants st t -> heap_of st !! na = Some nd ->
  ~ present (Key nd) t -> (height t < fuel)%nat ->
  Z.of_nat (length (elements t)) + 1 < 2 ^ 63 ->
  exists st' t' E1 E2 tn,
    Add fuel st (Some na) = Done (st', None)
    /\ invariants st' t'
    /\ elements t = E1 ++ E2
    /\ elements t' = E1 ++ (tn, (Key nd, Value nd)) :: E2
    /\ heap_of st !! tn = None /\ tn <> na /\ tn ∉ addrs t
    /\ Size st' = Size st + 1
    /\ (forall fuel', (height t' <= fuel')%nat ->
          Find fuel' st' (Key nd) = Done (Some tn))
    /\ Key (deref (heap_of st') tn) = Key nd
    /\ Value (deref (heap_of st') tn) = Value nd.
Proof.
  intros Hinv Hna Hnp Hfuel Hb.
  destruct (Add_new fuel st t na nd Hinv Hna Hfuel Hb Hnp)
    as (st' & t' & E1 & E2 & tn & Hrun & Hinv' & He & He' & Htn).
  assert (Hfresh : heap_of st !! tn = None) by (by apply lookup_ge_None).
  exists st', t', E1, E2, tn.
  pose proof Hinv as (_ & _ & _ & _ & _ & Hsz).
  pose proof Hinv' as (H' & _ & _ & _ & Hbst' & Hsz').
  apply sorted_iff in Hbst'.
  assert (Hin : (tn, (Key nd, Value nd)) ∈ elements t').
  { rewrite He'. set_solver. }
  split_and!; [done..| | | | | |].
  - intros ->. by rewrite Hna in Hfresh.
  - intros Hin'. destruct Hinv as ((_ & Hwf0 & _) & _).
    apply (wf_lt _ _ _ _ Hwf0) in Hin'. lia.
  - unfold Size, size_ok in *. rewrite Hsz', Hsz, He', He, !length_app.
    simpl. lia.
  - intros fuel' Hfuel'. unfold Find.
    rewrite (getRBNode_models fuel' st' t' _ H' Hfuel').
    assert (Hp : present (Key nd) t').
    { eapply present_entry; [exact He'|apply compare_refl]. }
    apply (find_present _ t' Hbst') in Hp.
    destruct (find (Key nd) t') as [a|] eqn:Hf; [|done].
    destruct (find_entry _ _ _ Hf) as (k & v & Hin' & Hk).
    unfold sorted, keys in Hbst'. rewrite He' in Hbst', Hin'.
    pose proof (sorted_entry_unique _ _ _ _ _ _ _ _ _ Hbst'
                  (compare_refl (Key nd)) Hk Hin') as Heq.
    by injection Heq as -> _ _.
  - destruct H' as (_ & Hwf & _). by apply (wf_elements _ _ _ _ _ _ Hwf Hin).
  - destruct H' as (_ & Hwf & _). by apply (wf_elements _ _ _ _ _ _ Hwf Hin).
Qed.

(** X3: [Delete] of a present key from a valid tree leaves a valid tree
    whose keys with their values, in order, are the old ones without the one
    entry whose key the comparator reports equal. *)
Theorem X3_Delete_removes_entry fuel st t key :
  invariants st t -> present key t -> (height t <= fuel)%nat ->
  Size st < 2 ^ 63 ->
  exists st' t' E1 E2 a k v,
    Delete fuel st key = Done st'
    /\ invariants st' t'
    /\ elements t = E1 ++ (a, (k, v)) :: E2
    /\ compare key k = 0
    /\ (elements t').*2 = (E1 ++ E2).*2.
Proof.
  intros Hinv Hp Hfuel Hb.
  destruct (Delete_present fuel st t key Hinv Hfuel) as
    (st' & t' & E1 & E2 & a & k & v & Hrun & Hinv' & He & Hk & He' & _);
    [unfold Size in Hb; lia|done|].
  by exists st', t', E1, E2, a, k, v.
Qed.

(** X4: [Add] of a new key followed by [Delete] of that key gives back a
    valid tree with the keys and values it had, in order, and the size it
    had. *)
Theorem X4_Add_then_Delete fuel st t na nd :
  invariants st t -> heap_of st !! na = Some nd ->
  ~ present (Key nd) t -> (length (elements t) < fuel)%nat ->
  Z.of_nat (length (elements t)) + 1 < 2 ^ 63 ->
  exists st1 st2 t2,
    Add fuel st (Some na) = Done (st1, None)
    /\ Delete fuel st1 (Key nd) = Done st2
    /\ invariants st2 t2
    /\ (elements t2).*2 = (elements t).*2
    /\ Size st2 = Size st.
Proof.
  intros Hinv Hna Hnp Hfuel Hb.
  pose proof (height_le_length t) as Hh.
  destruct (Add_new fuel st t na nd Hinv Hna) as
    (st1 & t1 & E1 & E2 & tn & Hrun & Hinv1 & He & He1 & _); [lia|done|done|].
  pose proof Hinv as (_ & _ & _ & _ & _ & Hsz).
  pose proof Hinv1 as (H1 & _ & _ & _ & Hbst1 & Hsz1).
  apply sorted_iff in Hbst1.
  assert (Hlen1 : length (elements t1) = S (length (elements t))).
  { rewrite He1, He, !length_app. simpl. lia. }
  assert (Hp : present (Key nd) t1).
  { eapply present_entry; [exact He1|apply compare_refl]. }
  pose proof (height_le_length t1) as Hh1.
  destruct (Delete_present fuel st1 t1 (Key nd) Hinv1) as
    (st2 & t2 & E1' & E2' & a & k & v & Hrun2 & Hinv2 & He1' & Hk & He2 & Hsz2
     & _); [lia|unfold size_ok in Hsz1; lia|done|].
  exists st1, st2, t2. split_and!; [done..| |].
  - assert (Hin : (a, (k, v)) ∈ elements t1) by (rewrite He1'; set_solver).
    unfold sorted, keys in Hbst1. rewrite He1 in Hbst1, Hin.
    pose proof (sorted_entry_unique _ _ _ _ _ _ _ _ _ Hbst1
                  (compare_refl (Key nd)) Hk Hin) as Heq.
    injection Heq as -> -> ->.
    destruct H1 as (_ & _ & Hnd). unfold addrs in Hnd. rewrite He1 in Hnd.
    rewrite He1 in He1'.
    destruct (app_cons_unique _ _ _ _ _ _ _ Hnd He1') as (-> & _ & ->).
    by rewrite He2, He.
  - unfold Size, size_ok in *. rewrite Hsz2, Hsz1, Hsz, Hlen1. lia.
Qed.

(** X5: [SetValue] on a node of a valid tree stores the value in that node
    and nothing else: the tree is valid as before, with the same nodes, keys
    and size, and the other values. *)
Theorem X5_SetValue_updates_value st t a (w : V) :
  invariants st t -> a ∈ addrs t ->
  exists t' E1 E2 k v,
    invariants (SetValue st (Some a) w) t'
    /\ elements t = E1 ++ (a, (k, v)) :: E2
    /\ elements t' = E1 ++ (a, (k, w)) :: E2
    /\ Value (deref (heap_of (SetValue st (Some a) w)) a) = w
    /\ Root (SetValue st (Some a) w) = Root st
    /\ Size (SetValue st (Some a) w) = Size st.
Proof.
  intros (H & Hrootb & Hnrr & Hebh & Hbst & Hsz) Ha.
  assert (Hrb : rbt None t) by (by apply rbt_iff).
  apply sorted_iff in Hbst.
  destruct (addr_zipper t a Ha) as (ctx & c & k & v & l & r & ->).
  pose proof (SetValue_models _ _ _ _ _ _ _ _ w H) as H'.
  destruct (rbt_plug_data None ctx a c k v k w l r Hrb Hrootb) as [Hrb' Hc'].
  apply rbt_iff in Hrb' as [? ?].
  exists (plug ctx (T a c k w l r)), (cleft ctx ++ elements l),
    (elements r ++ cright ctx), k, v.
  assert (He : forall x, elements (plug ctx (T a c k x l r))
                         = (cleft ctx ++ elements l) ++ (a, (k, x))
                           :: elements r ++ cright ctx).
  { intros x. rewrite elements_plug. simpl. by rewrite <- !app_assoc. }
  split_and!; [|apply He|apply He| |done|done].
  - split_and!; [done..| |].
    + apply sorted_iff. unfold sorted, keys in *.
      rewrite He, keys_entry. by rewrite He, keys_entry in Hbst.
    + unfold size_ok in *. rewrite He, length_app. simpl.
      rewrite He, length_app in Hsz. simpl in Hsz. exact Hsz.
  - by rewrite (models_deref _ _ _ _ _ _ _ _ H').
Qed.

End Updates.

Section Height.

Context {K V : Type} `{!ZeroValue K, !ZeroValue V, !Comparator K}.
Context `{!ComparatorLaws K}.
Implicit Types (h : list (RBNode (K:=K) (V:=V))) (st : state (K:=K) (V:=V)).
Implicit Types (t l r : tree (K:=K) (V:=V)) (ctx : list (frame (K:=K) (V:=V))).
Implicit Types (a p : addr) (q par d : ptr).

(** A valid subtree is at most twice as high as its paths are Black. *)
Lemma rbt_height t :
  rbt None t ->
  (height t <= 2 * bhd None t + (if tcolor t then 0 else 1))%nat.
Proof.
  induction t as [|a c k v l IHl r IHr]; simpl; [lia|].
  rewrite blk_None. intros (Hl & Hr & Hb & Hc).
  specialize (IHl Hl). specialize (IHr Hr). rewrite <- Hb in IHr.
  destruct c.
  - destruct (tcolor l), (tcolor r); lia.
  - destruct Hc as [Hcl Hcr]; [done|]. rewrite Hcl in IHl. rewrite Hcr in IHr.
    lia.
Qed.

(** It has at least [2 ^ bhd - 1] nodes. *)
Lemma rbt_size t :
  rbt None t -> (2 ^ bhd None t <= length (elements t) + 1)%nat.
Proof.
  induction t as [|a c k v l IHl r IHr]; simpl; [lia|].
  rewrite blk_None. intros (Hl & Hr & Hb & _).
  specialize (IHl Hl). specialize (IHr Hr). rewrite <- Hb in IHr.
  rewrite length_app. simpl. destruct c; simpl; lia.
Qed.

Lemma invariants_height st t :
  invariants st t -> (2 ^ height t <= (length (elements t) + 1) ^ 2)%nat.
Proof.
  intros (_ & Hrootb & Hnrr & Hebh & _).
  assert (Hrb : rbt None t) by (by apply rbt_iff).
  pose proof (rbt_height t Hrb) as Hh. rewrite Hrootb in Hh.
  pose proof (rbt_size t Hrb) as Hs.
  transitivity (2 ^ (2 * bhd None t))%nat.
  - apply Nat.pow_le_mono_r; lia.
  - rewrite Nat.mul_comm, Nat.pow_mul_r. apply Nat.pow_le_mono_l. exact Hs.
Qed.

(** X6: a valid tree is at most [2 * log2 (Size + 1)] high, and that many
    iterations are enough for [Find]: with a fuel [f] such that
    [(Size + 1) ^ 2 <= 2 ^ f] the search returns. *)
Theorem X6_Find_logarithmic fuel st t key :
  invariants st t -> (Size st + 1) ^ 2 <= 2 ^ Z.of_nat fuel ->
  (height t <= fuel)%nat
  /\ 2 ^ Z.of_nat (height t) <= (Size st + 1) ^ 2
  /\ exists res, Find fuel st key = Done res.
Proof.
  intros Hinv Hb. pose proof (invariants_height st t Hinv) as Hh.
  pose proof Hinv as (H & _ & _ & _ & _ & Hsz).
  unfold Size, size_ok in *. rewrite Hsz in Hb |- *.
  assert (Hz : 2 ^ Z.of_nat (height t)
               <= (Z.of_nat (length (elements t)) + 1) ^ 2).
  { apply Nat2Z.inj_le in Hh. rewrite !Nat2Z.inj_pow, Nat2Z.inj_add in Hh.
    exact Hh. }
  assert (Hle : (height t <= fuel)%nat).
  { apply Nat2Z.inj_le. apply (Z.pow_le_mono_r_iff 2); lia. }
  split_and!; [done|done|].
  unfold Find. rewrite (getRBNode_models fuel st t key H Hle). by eexists.
Qed.

(** The trees that the operations build, with the number of their nodes. *)
Lemma run_ops_size fuel (ops : list (op (K:=K) (V:=V))) : forall st t,
  invariants st t ->
  (length (elements t) + length ops < S fuel)%nat ->
  Z.of_nat (length (elements t) + length ops) < 2 ^ 63 ->
  exists st' t',
    run_ops fuel st ops = Done st' /\ invariants st' t'
    /\ (length (elements t') <= length (elements t) + length ops)%nat.
Proof.
  induction ops as [|o ops IH]; intros st t Hinv Hfuel Hb.
  - exists st, t. split_and!; [done..|lia].
  - simpl in Hfuel, Hb.
    destruct (run_op_invariants fuel st t o Hinv)
      as (st1 & t1 & Hrun & Hinv1 & Hlen); [lia|lia|].
    cbn [run_ops]. rewrite Hrun. cbn [rbind].
    destruct (IH st1 t1 Hinv1) as (st' & t' & Hrun' & Hinv' & Hlen');
      [lia|lia|].
    exists st', t'. split_and!; [done..|]. simpl. lia.
Qed.

(** X7: [IsRedBlackTree] accepts the tree that any sequence of [Add] and
    [Delete] operations builds from the empty tree. *)
Theorem X7_validator_accepts_built_trees fuel h
    (ops : list (op (K:=K) (V:=V))) :
  (length ops <= fuel)%nat -> 2 * Z.of_nat (length ops) < 2 ^ 63 ->
  exists st,
    run_ops fuel (NewRBTree h) ops = Done st
    /\ IsRedBlackTree fuel (heap_of st) (Root st) = Done true.
Proof.
  intros Hfuel Hb.
  destruct (run_ops_size fuel ops (NewRBTree h) E (invariants_empty h))
    as (st & t & Hrun & Hinv & Hlen); [simpl; lia|simpl; lia|].
  exists st. split; [done|]. simpl in Hlen.
  destruct Hinv as ((Hroot & Hwf & _) & Hrootb & Hnrr & Hebh & _).
  pose proof (height_le_length t) as Hh.
  destruct (IsRedBlackTree_wf fuel (heap_of st) t Hwf) as (ok & Hrun' & Hiff);
    [lia|lia|].
  unfold Root. rewrite Hroot, Hrun'. f_equal. apply Hiff.
  split_and!; [done..|]. apply (rbt_leaves_at t 0). by apply rbt_iff.
Qed.

End Height.

Section Navigation.

Context {K V : Type} `{!ZeroValue K, !ZeroValue V, !Comparator K}.
Implicit Types (h : list (RBNode (K:=K) (V:=V))) (st : state (K:=K) (V:=V)).
Implicit Types (t l r : tree (K:=K) (V:=V)) (ctx : list (frame (K:=K) (V:=V))).
Implicit Types (a p : addr) (q par d : ptr).

(** The climb of [getSuccessor] stops at the first ancestor that is entered
    from its left child: the first node to the right of the context. *)
Lemma climb_loop_wfc h ctx : forall fuel ch,
  wfc h ctx (Some ch) -> NoDup (ch :: caddrs ctx) ->
  (length ctx <= fuel)%nat ->
  climb_loop fuel h (cparent ctx) (Some ch) = Done (fst <$> head (cright ctx)).
Proof.
  induction ctx as [|f ctx IH]; intros fuel ch Hwfc Hnd Hfuel.
  - by destruct fuel.
  - simpl in Hwfc. destruct Hwfc as (Hf & Hs & Hc).
    simpl in Hnd. rewrite !nd_cons, !ni_cons, !ni_app in Hnd.
    destruct Hnd as ((Hne & Hns & Hnc) & (Hfs & Hfc) & Hnd').
    destruct f as [a c k v r|a c k v l]; simpl in *.
    + destruct fuel as [|fuel]; simpl; rewrite (deref_lookup _ _ _ Hf); simpl.
      * destruct (decide (Some ch = ptr_of r)) as [Heq|_]; [|done].
        exfalso. apply Hns. by apply ptr_of_addrs.
      * destruct (decide (Some ch = ptr_of r)) as [Heq|_]; [|done].
        exfalso. apply Hns. by apply ptr_of_addrs.
    + destruct fuel as [|fuel]; [lia|]. simpl.
      rewrite (deref_lookup _ _ _ Hf). simpl.
      destruct (decide (Some ch = Some ch)); [|done].
      apply IH; [done| |lia].
      apply nd_cons. split; [done|].
      apply nd_app in Hnd' as (_ & _ & Hnd'). done.
Qed.

(** X8: [getSuccessor] of a node of a tree returns the node that follows it
    in order, and nil for the last node. *)
Theorem X8_getSuccessor_in_order fuel st t n kv
    (E1 E2 : list (addr * (K * V))) :
  models st t -> elements t = E1 ++ (n, kv) :: E2 ->
  (height t <= fuel)%nat ->
  getSuccessor fuel (heap_of st) (Some n) = Done (fst <$> head E2).
Proof.
  intros H He Hfuel.
  assert (Hn : n ∈ addrs t).
  { unfold addrs. rewrite He, fmap_app, fmap_cons. set_solver. }
  destruct (addr_zipper t n Hn) as (ctx & c & k & v & l & r & ->).
  assert (HE2 : E2 = elements r ++ cright ctx).
  { pose proof H as (_ & _ & Hnd). unfold addrs in Hnd. rewrite He in Hnd.
    rewrite elements_plug in He. simpl in He.
    rewrite <- app_assoc in He. simpl in He. rewrite app_assoc in He.
    destruct kv as [k' v'].
    by destruct (app_cons_unique _ _ _ _ _ _ _ Hnd (eq_sym He))
      as (_ & _ & ->). }
  subst E2. clear He.
  pose proof (height_plug ctx (T n c k v l r)) as Hh. simpl in Hh.
  unfold getSuccessor. rewrite (models_deref _ _ _ _ _ _ _ _ H).
  cbn [right parent].
  destruct r as [|ra rc rk rv rl rr].
  - cbn [ptr_of elements app].
    pose proof H as (_ & Hwfc & _ & Hnd)%models_plug.
    apply climb_loop_wfc; [done| |lia].
    rewrite addrs_T, addrs_E, <- app_assoc in Hnd. simpl in Hnd.
    apply nd_app in Hnd as (_ & _ & Hnd). done.
  - cbn [ptr_of].
    pose proof H as (_ & _ & Hwf & _)%models_plug.
    destruct Hwf as (_ & _ & Hwr).
    destruct (leftmost_loop_wf fuel _ _ _ _ _ _ _ _ [] Hwr) as (s & -> & Hp);
      [lia|].
    destruct (min_zip_shape (T ra rc rk rv rl rr) [] ltac:(done))
      as (s' & cs & ks & vs & sr & Hm).
    rewrite Hm in Hp. injection Hp as ->.
    rewrite (min_zip_elements _ _ _ _ _ _ Hm). done.
Qed.

(** The parent and the sibling of the focused node. *)
Lemma brother_models st f ctx xa xc xk xv xl xr :
  models st (plug (f :: ctx) (T xa xc xk xv xl xr)) ->
  getParent (heap_of st) (Some xa) = Some (faddr f)
  /\ getBrother (heap_of st) (Some xa) = ptr_of (fsib f).
Proof.
  intros H.
  destruct f as [pa cp kp vp s|pa cp kp vp s].
  all: cells_nd H.
  all: unfold getBrother, getParent, getLeft, getRight.
  all: split; hread; try done.
  all: try (exfalso; ptr_absurd).
Qed.

(** X9: for a node [x] below a parent and a grandparent in a tree,
    [getParent] and [getGrandParent] return them, [getBrother] returns the
    other child of the parent and [getUncle] the other child of the
    grandparent, nil when that child is absent. *)
Theorem X9_family_accessors st fp fg ctx xa xc xk xv xl xr :
  models st (plug (fp :: fg :: ctx) (T xa xc xk xv xl xr)) ->
  getParent (heap_of st) (Some xa) = Some (faddr fp)
  /\ getBrother (heap_of st) (Some xa) = ptr_of (fsib fp)
  /\ getGrandParent (heap_of st) (Some xa) = Some (faddr fg)
  /\ getUncle (heap_of st) (Some xa) = ptr_of (fsib fg).
Proof.
  intros H.
  destruct (brother_models _ _ _ _ _ _ _ _ _ H) as [Hp Hb].
  assert (H' : exists pc pk pv pl pr,
             models st (plug (fg :: ctx) (T (faddr fp) pc pk pv pl pr))).
  { destruct fp; simpl in *; by eauto 10. }
  destruct H' as (pc & pk & pv & pl & pr & H').
  destruct (brother_models _ _ _ _ _ _ _ _ _ H') as [Hg Hu].
  split_and!; [done|done| |].
  - unfold getGrandParent. by rewrite Hp.
  - unfold getUncle. by rewrite Hp.
Qed.

(** X10: in a tree, the brother of a node is another node with the same
    parent, and the brother of the brother is the node again. *)
Theorem X10_getBrother_involution st t x y :
  models st t -> x ∈ addrs t ->
  getBrother (heap_of st) (Some x) = Some y ->
  y <> x
  /\ y ∈ addrs t
  /\ getParent (heap_of st) (Some y) = getParent (heap_of st) (Some x)
  /\ getBrother (heap_of st) (Some y) = Some x.
Proof.
  intros H Hx Hy.
  destruct (addr_zipper t x Hx) as (ctx & c & k & v & l & r & ->).
  destruct ctx as [|f ctx].
  - exfalso. revert Hy. unfold getBrother, getParent, getLeft, getRight.
    rewrite (models_deref _ [] _ _ _ _ _ _ H). simpl.
    by repeat case_decide.
  - destruct (brother_models _ _ _ _ _ _ _ _ _ H) as [Hp Hb].
    rewrite Hb in Hy.
    pose proof (models_nodup _ _ _ H) as Hnd.
    destruct f as [pa cp kp vp s|pa cp kp vp s]; cbn [fsib] in Hy;
      (destruct s as [|sa sc sk sv sl sr]; [done|]); injection Hy as ->.
    + destruct (brother_models st (InRight pa cp kp vp (T x c k v l r)) ctx
                  y sc sk sv sl sr H) as [Hp' Hb'].
      split_and!; [| |by rewrite Hp, Hp'|done].
      * intros ->. apply NoDup_app in Hnd as (_ & Hd & _). apply (Hd x).
        { rewrite addrs_T. set_solver. }
        { simpl. rewrite addrs_T. set_solver. }
      * rewrite addrs_plug_perm. apply elem_of_app. right. simpl.
        apply elem_of_cons. right. apply elem_of_app. left.
        rewrite addrs_T. apply elem_of_app. right. apply elem_of_cons.
        by left.
    + destruct (brother_models st (InLeft pa cp kp vp (T x c k v l r)) ctx
                  y sc sk sv sl sr H) as [Hp' Hb'].
      split_and!; [| |by rewrite Hp, Hp'|done].
      * intros ->. apply NoDup_app in Hnd as (_ & Hd & _). apply (Hd x).
        { rewrite addrs_T. set_solver. }
        { simpl. rewrite addrs_T. set_solver. }
      * rewrite addrs_plug_perm. apply elem_of_app. right. simpl.
        apply elem_of_cons. right. apply elem_of_app. left.
        rewrite addrs_T. apply elem_of_app. right. apply elem_of_cons.
        by left.
Qed.

End Navigation.

Section Links.

Context {K V : Type} `{!ZeroValue K, !ZeroValue V, !Comparator K}.
Context `{!ComparatorLaws K}.
Implicit Types (h : list (RBNode (K:=K) (V:=V))) (st : state (K:=K) (V:=V)).
Implicit Types (t l r : tree (K:=K) (V:=V)) (ctx : list (frame (K:=K) (V:=V))).
Implicit Types (a b p : addr) (q par d : ptr).

Lemma addrs_focus ctx t a : a ∈ addrs t -> a ∈ addrs (plug ctx t).
Proof. intros Ha. rewrite addrs_plug_perm. apply elem_of_app. by left. Qed.

Lemma addrs_top f ctx t : faddr f ∈ addrs (plug (f :: ctx) t).
Proof.
  rewrite addrs_plug_perm. apply elem_of_app. right. simpl.
  apply elem_of_cons. by left.
Qed.

(** X11: the exported accessors agree in every tree: a child returned by
    [Left] or [Right] is a node of the tree whose [Parent] is the node
    itself, the [Parent] of a node is nil exactly for the root, and a node is
    the [Left] or the [Right] of its [Parent]. *)
Theorem X11_accessors_round_trip st t a :
  models st t -> a ∈ addrs t ->
  (forall b, Left (heap_of st) (Some a) = Some b ->
             b ∈ addrs t /\ Parent (heap_of st) (Some b) = Some a)
  /\ (forall b, Right (heap_of st) (Some a) = Some b ->
                b ∈ addrs t /\ Parent (heap_of st) (Some b) = Some a)
  /\ (Parent (heap_of st) (Some a) = None <-> Root st = Some a)
  /\ (forall p, Parent (heap_of st) (Some a) = Some p ->
                p ∈ addrs t
                /\ (Left (heap_of st) (Some p) = Some a
                    \/ Right (heap_of st) (Some p) = Some a)).
Proof.
  intros H Ha. unfold Left, Right, Parent, Root.
  destruct (addr_zipper t a Ha) as (ctx & c & k & v & l & r & ->).
  rewrite (getLeft_models _ _ _ _ _ _ _ _ H),
    (getRight_models _ _ _ _ _ _ _ _ H), (getParent_models _ _ _ _ _ _ _ _ H).
  split_and!.
  - intros b Hb. destruct l as [|b' cb kb vb bl br]; [done|].
    injection Hb as ->. split.
    + apply addrs_focus. rewrite !addrs_T. set_solver.
    + apply (getParent_models st (InLeft a c k v r :: ctx) b cb kb vb bl br H).
  - intros b Hb. destruct r as [|b' cb kb vb bl br]; [done|].
    injection Hb as ->. split.
    + apply addrs_focus. rewrite !addrs_T. set_solver.
    + apply (getParent_models st (InRight a c k v l :: ctx) b cb kb vb bl br H).
  - rewrite (root_models _ _ _ _ _ _ _ _ H). by destruct ctx.
  - intros p Hp. destruct ctx as [|f ctx]; [done|]. injection Hp as <-.
    split; [apply addrs_top|].
    destruct f as [pa cp kp vp s|pa cp kp vp s]; simpl.
    + left. by rewrite (models_deref st ctx pa cp kp vp (T a c k v l r) s H).
    + right. by rewrite (models_deref st ctx pa cp kp vp s (T a c k v l r) H).
Qed.

(** Two states that hold the same tree agree on its root and its nodes. *)
Lemma wf_cells h h' par t x :
  wf h par t -> wf h' par t -> x ∈ addrs t -> h' !! x = h !! x.
Proof.
  revert par. induction t as [|a c k v l IHl r IHr]; intros par.
  - rewrite addrs_E. by intros _ _ ?%elem_of_nil.
  - rewrite addrs_T. simpl. intros (Ha & Hl & Hr) (Ha' & Hl' & Hr').
    rewrite elem_of_app, elem_of_cons. intros [?|[->|?]]; [by eauto| |by eauto].
    by rewrite Ha, Ha'.
Qed.

(** X12: [rotateRight] at the node that a [rotateLeft] has promoted undoes
    the rotation, and conversely: the root is as before and so is every node
    of the tree, with all its fields. *)
Theorem X12_rotations_inverse st t a :
  models st t -> a ∈ addrs t ->
  (forall b, right (deref (heap_of st) a) = Some b ->
     let st' := rotateRight (rotateLeft st (Some a)) (Some b) in
     models st' t /\ root st' = root st /\ size st' = size st
     /\ forall x, x ∈ addrs t -> heap_of st' !! x = heap_of st !! x)
  /\ (forall b, left (deref (heap_of st) a) = Some b ->
        let st' := rotateLeft (rotateRight st (Some a)) (Some b) in
        models st' t /\ root st' = root st /\ size st' = size st
        /\ forall x, x ∈ addrs t -> heap_of st' !! x = heap_of st !! x).
Proof.
  intros H Ha.
  destruct (addr_zipper t a Ha) as (ctx & c & k & v & l & r & ->).
  pose proof (models_deref _ _ _ _ _ _ _ _ H) as Hd.
  split.
  - intros b Hb st'. subst st'. rewrite Hd in Hb. cbn [right] in Hb.
    destruct r as [|b' cb kb vb rl rr]; [done|]. injection Hb as ->.
    pose proof (rotateLeft_models _ _ _ _ _ _ _ _ _ _ _ _ _ H) as H1.
    pose proof (rotateRight_models _ _ _ _ _ _ _ _ _ _ _ _ _ H1) as H2.
    split_and!; [done| | |].
    + destruct H2 as (-> & _). by destruct H as (-> & _).
    + by rewrite size_rotateRight, size_rotateLeft.
    + intros x Hx. destruct H2 as (_ & Hw2 & _). destruct H as (_ & Hw & _).
      by apply (wf_cells _ _ _ _ _ Hw Hw2).
  - intros b Hb st'. subst st'. rewrite Hd in Hb. cbn [left] in Hb.
    destruct l as [|b' cb kb vb ll lr]; [done|]. injection Hb as ->.
    pose proof (rotateRight_models _ _ _ _ _ _ _ _ _ _ _ _ _ H) as H1.
    pose proof (rotateLeft_models _ _ _ _ _ _ _ _ _ _ _ _ _ H1) as H2.
    split_and!; [done| | |].
    + destruct H2 as (-> & _). by destruct H as (-> & _).
    + by rewrite size_rotateLeft, size_rotateRight.
    + intros x Hx. destruct H2 as (_ & Hw2 & _). destruct H as (_ & Hw & _).
      by apply (wf_cells _ _ _ _ _ Hw Hw2).
Qed.

Lemma elements_nil t : elements t = [] -> t = E.
Proof.
  destruct t as [|a c k v l r]; [done|]. simpl. intros He.
  symmetry in He. by apply app_cons_not_nil in He.
Qed.

(** X13: [Delete] of the key of the only node of a valid tree leaves the
    empty tree: [Root] is nil and [Size] is 0. *)
Theorem X13_Delete_last_key fuel st t key a k v :
  invariants st t -> elements t = [(a, (k, v))] -> compare key k = 0 ->
  (1 <= fuel)%nat ->
  exists st',
    Delete fuel st key = Done st'
    /\ Root st' = None /\ Size st' = 0 /\ invariants st' E.
Proof.
  intros Hinv He Hk Hfuel.
  pose proof (height_le_length t) as Hh. rewrite He in Hh. simpl in Hh.
  pose proof Hinv as (_ & _ & _ & _ & _ & Hsz).
  unfold size_ok in Hsz. rewrite He in Hsz. simpl in Hsz.
  assert (Hp : present key t).
  { eapply (present_entry key [] []); [exact He|done]. }
  destruct (Delete_present fuel st t key Hinv) as
    (st' & t' & E1 & E2 & a' & k' & v' & Hrun & Hinv' & He1 & _ & He' & Hsz'
     & _); [lia|lia|done|].
  rewrite He in He1.
  assert (E1 = [] /\ E2 = []) as [-> ->].
  { destruct E1 as [|e1 E1]; simpl in He1.
    - injection He1 as _ <-. done.
    - injection He1 as _ He1. by apply app_cons_not_nil in He1. }
  assert (t' = E) as ->.
  { apply elements_nil. destruct (elements t'); [done|]. done. }
  exists st'. split_and!; [done| |unfold Size; lia|done].
  unfold Root. by destruct Hinv' as ((-> & _) & _).
Qed.

End Links.

(** ** The further properties on the example trees *)

Lemma models_st_10_20_30_40 : models st_10_20_30_40 t_10_20_30_40.
Proof.
  split_and!; [done|by simpl|]. apply (bool_decide_unpack _). by vm_compute.
Qed.

(** [Find] of 20 in the tree of 10, 20 and 30. *)
Lemma X1_witness :
  (models st_10_20_30 t_10_20_30)
  /\
  (bst t_10_20_30)
  /\
  ((height t_10_20_30 <= 8%nat)%nat)
  /\
  ((present 20 t_10_20_30 ->
     exists a k v,
       Find 8%nat st_10_20_30 20 = Done (Some a)
       /\ (a, (k, v)) ∈ elements t_10_20_30 /\ compare 20 k = 0
       /\ Key (deref (heap_of st_10_20_30) a) = k
       /\ Value (deref (heap_of st_10_20_30) a) = v)
    /\ (~ present 20 t_10_20_30 -> Find 8%nat st_10_20_30 20 = Done None)).
Proof.
  assert (H1 : models st_10_20_30 t_10_20_30).
  { apply invariants_st_10_20_30. }
  assert (H2 : bst t_10_20_30).
  { apply invariants_st_10_20_30. }
  assert (H3 : (height t_10_20_30 <= 8%nat)%nat).
  { simpl; lia. }
  exact (conj H1 (conj H2 (conj H3 (X1_Find_correct 8%nat st_10_20_30 t_10_20_30 20 H1 H2 H3)))).
Defined.

(** [Add] of the key 0 to the tree of 10, 20 and 30. *)
Lemma X2_witness :
  (invariants st_10_20_30 t_10_20_30)
  /\
  (heap_of st_10_20_30 !! 5%nat = Some (mkRBNode Red 0 0 None None None))
  /\
  (~ present (Key (mkRBNode Red 0 0 None None None)) t_10_20_30)
  /\
  ((height t_10_20_30 < 8%nat)%nat)
  /\
  (Z.of_nat (length (elements t_10_20_30)) + 1 < 2 ^ 63)
  /\
  (exists st' t' E1 E2 tn,
      Add 8%nat st_10_20_30 (Some 5%nat) = Done (st', None)
      /\ invariants st' t'
      /\ elements t_10_20_30 = E1 ++ E2
      /\ elements t' = E1 ++ (tn, (Key (mkRBNode Red 0 0 None None None), Value (mkRBNode Red 0 0 None None None))) :: E2
      /\ heap_of st_10_20_30 !! tn = None /\ tn <> 5%nat /\ tn ∉ addrs t_10_20_30
      /\ Size st' = Size st_10_20_30 + 1
      /\ (forall fuel', (height t' <= fuel')%nat ->
            Find fuel' st' (Key (mkRBNode Red 0 0 None None None)) = Done (Some tn))
      /\ Key (deref (heap_of st') tn) = Key (mkRBNode Red 0 0 None None None)
      /\ Value (deref (heap_of st') tn) = Value (mkRBNode Red 0 0 None None None)).
Proof.
  assert (H1 : invariants st_10_20_30 t_10_20_30).
  { exact invariants_st_10_20_30. }
  assert (H2 : heap_of st_10_20_30 !! 5%nat = Some (mkRBNode Red 0 0 None None None)).
  { reflexivity. }
  assert (H3 : ~ present (Key (mkRBNode Red 0 0 None None None)) t_10_20_30).
  { intros (k0 & Hk0 & Hc0); vm_compute in Hk0; repeat (apply elem_of_cons in Hk0 as [->|Hk0]; [by vm_compute in Hc0|]); by apply elem_of_nil in Hk0. }
  assert (H4 : (height t_10_20_30 < 8%nat)%nat).
  { simpl; lia. }
  assert (H5 : Z.of_nat (length (elements t_10_20_30)) + 1 < 2 ^ 63).
  { simpl; lia. }
  exact (conj H1 (conj H2 (conj H3 (conj H4 (conj H5 (X2_Add_inserts_entry 8%nat st_10_20_30 t_10_20_30 5%nat (mkRBNode Red 0 0 None None None) H1 H2 H3 H4 H5)))))).
Defined.

(** [Delete] of 20 from the tree of 10, 20 and 30. *)
Lemma X3_witness :
  (invariants st_10_20_30 t_10_20_30)
  /\
  (present 20 t_10_20_30)
  /\
  ((height t_10_20_30 <= 8%nat)%nat)
  /\
  (Size st_10_20_30 < 2 ^ 63)
  /\
  (exists st' t' E1 E2 a k v,
      Delete 8%nat st_10_20_30 20 = Done st'
      /\ invariants st' t'
      /\ elements t_10_20_30 = E1 ++ (a, (k, v)) :: E2
      /\ compare 20 k = 0
      /\ (elements t').*2 = (E1 ++ E2).*2).
Proof.
  assert (H1 : invariants st_10_20_30 t_10_20_30).
  { exact invariants_st_10_20_30. }
  assert (H2 : present 20 t_10_20_30).
  { exists 20; split; [apply list_elem_of_further, list_elem_of_here|reflexivity]. }
  assert (H3 : (height t_10_20_30 <= 8%nat)%nat).
  { simpl; lia. }
  assert (H4 : Size st_10_20_30 < 2 ^ 63).
  { unfold Size; simpl; lia. }
  exact (conj H1 (conj H2 (conj H3 (conj H4 (X3_Delete_removes_entry 8%nat st_10_20_30 t_10_20_30 20 H1 H2 H3 H4))))).
Defined.

(** [Add] and [Delete] of the key 0 on the tree of 10, 20 and 30. *)
Lemma X4_witness :
  (invariants st_10_20_30 t_10_20_30)
  /\
  (heap_of st_10_20_30 !! 5%nat = Some (mkRBNode Red 0 0 None None None))
  /\
  (~ present (Key (mkRBNode Red 0 0 None None None)) t_10_20_30)
  /\
  ((length (elements t_10_20_30) < 8%nat)%nat)
  /\
  (Z.of_nat (length (elements t_10_20_30)) + 1 < 2 ^ 63)
  /\
  (exists st1 st2 t2,
      Add 8%nat st_10_20_30 (Some 5%nat) = Done (st1, None)
      /\ Delete 8%nat st1 (Key (mkRBNode Red 0 0 None None None)) = Done st2
      /\ invariants st2 t2
      /\ (elements t2).*2 = (elements t_10_20_30).*2
      /\ Size st2 = Size st_10_20_30).
Proof.
  assert (H1 : invariants st_10_20_30 t_10_20_30).
  { exact invariants_st_10_20_30. }
  assert (H2 : heap_of st_10_20_30 !! 5%nat = Some (mkRBNode Red 0 0 None None None)).
  { reflexivity. }
  assert (H3 : ~ present (Key (mkRBNode Red 0 0 None None None)) t_10_20_30).
  { intros (k0 & Hk0 & Hc0); vm_compute in Hk0; repeat (apply elem_of_cons in Hk0 as [->|Hk0]; [by vm_compute in Hc0|]); by apply elem_of_nil in Hk0. }
  assert (H4 : (length (elements t_10_20_30) < 8%nat)%nat).
  { simpl; lia. }
  assert (H5 : Z.of_nat (length (elements t_10_20_30)) + 1 < 2 ^ 63).
  { simpl; lia. }
  exact (conj H1 (conj H2 (conj H3 (conj H4 (conj H5 (X4_Add_then_Delete 8%nat st_10_20_30 t_10_20_30 5%nat (mkRBNode Red 0 0 None None None) H1 H2 H3 H4 H5)))))).
Defined.

(** [SetValue] on the root of the tree of 10, 20 and 30. *)
Lemma X5_witness :
  (invariants st_10_20_30 t_10_20_30)
  /\
  (6%nat ∈ addrs t_10_20_30)
  /\
  (exists t' E1 E2 k v,
      invariants (SetValue st_10_20_30 (Some 6%nat) 7) t'
      /\ elements t_10_20_30 = E1 ++ (6%nat, (k, v)) :: E2
      /\ elements t' = E1 ++ (6%nat, (k, 7)) :: E2
      /\ Value (deref (heap_of (SetValue st_10_20_30 (Some 6%nat) 7)) 6%nat) = 7
      /\ Root (SetValue st_10_20_30 (Some 6%nat) 7) = Root st_10_20_30
      /\ Size (SetValue st_10_20_30 (Some 6%nat) 7) = Size st_10_20_30).
Proof.
  assert (H1 : invariants st_10_20_30 t_10_20_30).
  { exact invariants_st_10_20_30. }
  assert (H2 : 6%nat ∈ addrs t_10_20_30).
  { vm_compute; apply list_elem_of_further, list_elem_of_here. }
  exact (conj H1 (conj H2 (X5_SetValue_updates_value st_10_20_30 t_10_20_30 6%nat 7 H1 H2))).
Defined.

(** The tree of 10, 20 and 30 and eight iterations. *)
Lemma X6_witness :
  (invariants st_10_20_30 t_10_20_30)
  /\
  ((Size st_10_20_30 + 1) ^ 2 <= 2 ^ Z.of_nat 8%nat)
  /\
  ((height t_10_20_30 <= 8%nat)%nat
    /\ 2 ^ Z.of_nat (height t_10_20_30) <= (Size st_10_20_30 + 1) ^ 2
    /\ exists res, Find 8%nat st_10_20_30 20 = Done res).
Proof.
  assert (H1 : invariants st_10_20_30 t_10_20_30).
  { exact invariants_st_10_20_30. }
  assert (H2 : (Size st_10_20_30 + 1) ^ 2 <= 2 ^ Z.of_nat 8%nat).
  { by vm_compute. }
  exact (conj H1 (conj H2 (X6_Find_logarithmic 8%nat st_10_20_30 t_10_20_30 20 H1 H2))).
Defined.

(** Two insertions followed by a deletion. *)
Lemma X7_witness :
  ((length [OpAdd 10 0; OpAdd 20 0; OpDelete 10] <= 8%nat)%nat)
  /\
  (2 * Z.of_nat (length [OpAdd 10 0; OpAdd 20 0; OpDelete 10]) < 2 ^ 63)
  /\
  (exists st,
      run_ops 8%nat (NewRBTree (@nil (RBNode (K:=Z) (V:=Z)))) [OpAdd 10 0; OpAdd 20 0; OpDelete 10] = Done st
      /\ IsRedBlackTree 8%nat (heap_of st) (Root st) = Done true).
Proof.
  assert (H1 : (length [OpAdd 10 0; OpAdd 20 0; OpDelete 10] <= 8%nat)%nat).
  { simpl; lia. }
  assert (H2 : 2 * Z.of_nat (length [OpAdd 10 0; OpAdd 20 0; OpDelete 10]) < 2 ^ 63).
  { simpl; lia. }
  exact (conj H1 (conj H2 (X7_validator_accepts_built_trees 8%nat (@nil (RBNode (K:=Z) (V:=Z))) [OpAdd 10 0; OpAdd 20 0; OpDelete 10] H1 H2))).
Defined.

(** The successor of the root of the tree of 10, 20 and 30. *)
Lemma X8_witness :
  (models st_10_20_30 t_10_20_30)
  /\
  (elements t_10_20_30 = [(1%nat, (10, 0))] ++ (6%nat, (20, 0)) :: [(9%nat, (30, 0))])
  /\
  ((height t_10_20_30 <= 8%nat)%nat)
  /\
  (getSuccessor 8%nat (heap_of st_10_20_30) (Some 6%nat) = Done (fst <$> head [(9%nat, (30, 0))])).
Proof.
  assert (H1 : models st_10_20_30 t_10_20_30).
  { apply invariants_st_10_20_30. }
  assert (H2 : elements t_10_20_30 = [(1%nat, (10, 0))] ++ (6%nat, (20, 0)) :: [(9%nat, (30, 0))]).
  { reflexivity. }
  assert (H3 : (height t_10_20_30 <= 8%nat)%nat).
  { simpl; lia. }
  exact (conj H1 (conj H2 (conj H3 (X8_getSuccessor_in_order 8%nat st_10_20_30 t_10_20_30 6%nat (20, 0) [(1%nat, (10, 0))] [(9%nat, (30, 0))] H1 H2 H3)))).
Defined.

(** The node of 40 below 30 and 20 in the tree of 10, 20, 30 and 40. *)
Lemma X9_witness :
  (models st_10_20_30_40 (plug ((InRight 9%nat Black 30 0 E) :: (InRight 6%nat Black 20 0 (T 1%nat Black 10 0 E E)) :: []) (T 12%nat Red 40 0 E E)))
  /\
  (getParent (heap_of st_10_20_30_40) (Some 12%nat) = Some (faddr (InRight 9%nat Black 30 0 E))
    /\ getBrother (heap_of st_10_20_30_40) (Some 12%nat) = ptr_of (fsib (InRight 9%nat Black 30 0 E))
    /\ getGrandParent (heap_of st_10_20_30_40) (Some 12%nat) = Some (faddr (InRight 6%nat Black 20 0 (T 1%nat Black 10 0 E E)))
    /\ getUncle (heap_of st_10_20_30_40) (Some 12%nat) = ptr_of (fsib (InRight 6%nat Black 20 0 (T 1%nat Black 10 0 E E)))).
Proof.
  assert (H1 : models st_10_20_30_40 (plug ((InRight 9%nat Black 30 0 E) :: (InRight 6%nat Black 20 0 (T 1%nat Black 10 0 E E)) :: []) (T 12%nat Red 40 0 E E))).
  { exact models_st_10_20_30_40. }
  exact (conj H1 (X9_family_accessors st_10_20_30_40 (InRight 9%nat Black 30 0 E) (InRight 6%nat Black 20 0 (T 1%nat Black 10 0 E E)) [] 12%nat Red 40 0 E E H1)).
Defined.

(** The two children of the root of the tree of 10, 20 and 30. *)
Lemma X10_witness :
  (models st_10_20_30 t_10_20_30)
  /\
  (1%nat ∈ addrs t_10_20_30)
  /\
  (getBrother (heap_of st_10_20_30) (Some 1%nat) = Some 9%nat)
  /\
  (9%nat <> 1%nat
    /\ 9%nat ∈ addrs t_10_20_30
    /\ getParent (heap_of st_10_20_30) (Some 9%nat) = getParent (heap_of st_10_20_30) (Some 1%nat)
    /\ getBrother (heap_of st_10_20_30) (Some 9%nat) = Some 1%nat).
Proof.
  assert (H1 : models st_10_20_30 t_10_20_30).
  { apply invariants_st_10_20_30. }
  assert (H2 : 1%nat ∈ addrs t_10_20_30).
  { vm_compute; apply list_elem_of_here. }
  assert (H3 : getBrother (heap_of st_10_20_30) (Some 1%nat) = Some 9%nat).
  { reflexivity. }
  exact (conj H1 (conj H2 (conj H3 (X10_getBrother_involution st_10_20_30 t_10_20_30 1%nat 9%nat H1 H2 H3)))).
Defined.

(** The root of the tree of 10, 20 and 30. *)
Lemma X11_witness :
  (models st_10_20_30 t_10_20_30)
  /\
  (6%nat ∈ addrs t_10_20_30)
  /\
  ((forall b, Left (heap_of st_10_20_30) (Some 6%nat) = Some b ->
               b ∈ addrs t_10_20_30 /\ Parent (heap_of st_10_20_30) (Some b) = Some 6%nat)
    /\ (forall b, Right (heap_of st_10_20_30) (Some 6%nat) = Some b ->
                  b ∈ addrs t_10_20_30 /\ Parent (heap_of st_10_20_30) (Some b) = Some 6%nat)
    /\ (Parent (heap_of st_10_20_30) (Some 6%nat) = None <-> Root st_10_20_30 = Some 6%nat)
    /\ (forall p, Parent (heap_of st_10_20_30) (Some 6%nat) = Some p ->
                  p ∈ addrs t_10_20_30
                  /\ (Left (heap_of st_10_20_30) (Some p) = Some 6%nat
                      \/ Right (heap_of st_10_20_30) (Some p) = Some 6%nat))).
Proof.
  assert (H1 : models st_10_20_30 t_10_20_30).
  { apply invariants_st_10_20_30. }
  assert (H2 : 6%nat ∈ addrs t_10_20_30).
  { vm_compute; apply list_elem_of_further, list_elem_of_here. }
  exact (conj H1 (conj H2 (X11_accessors_round_trip st_10_20_30 t_10_20_30 6%nat H1 H2))).
Defined.

(** The rotations at the root of the tree of 10, 20 and 30. *)
Lemma X12_witness :
  (models st_10_20_30 t_10_20_30)
  /\
  (6%nat ∈ addrs t_10_20_30)
  /\
  ((forall b, right (deref (heap_of st_10_20_30) 6%nat) = Some b ->
       let st' := rotateRight (rotateLeft st_10_20_30 (Some 6%nat)) (Some b) in
       models st' t_10_20_30 /\ root st' = root st_10_20_30 /\ size st' = size st_10_20_30
       /\ forall x, x ∈ addrs t_10_20_30 -> heap_of st' !! x = heap_of st_10_20_30 !! x)
    /\ (forall b, left (deref (heap_of st_10_20_30) 6%nat) = Some b ->
          let st' := rotateLeft (rotateRight st_10_20_30 (Some 6%nat)) (Some b) in
          models st' t_10_20_30 /\ root st' = root st_10_20_30 /\ size st' = size st_10_20_30
          /\ forall x, x ∈ addrs t_10_20_30 -> heap_of st' !! x = heap_of st_10_20_30 !! x)).
Proof.
  assert (H1 : models st_10_20_30 t_10_20_30).
  { apply invariants_st_10_20_30. }
  assert (H2 : 6%nat ∈ addrs t_10_20_30).
  { vm_compute; apply list_elem_of_further, list_elem_of_here. }
  exact (conj H1 (conj H2 (X12_rotations_inverse st_10_20_30 t_10_20_30 6%nat H1 H2))).
Defined.

(** [Delete] of 10 from the tree that holds 10 only. *)
Lemma X13_witness :
  (invariants st_10 t_10)
  /\
  (elements t_10 = [(1%nat, (10, 0))])
  /\
  (compare 10 10 = 0)
  /\
  ((1 <= 8%nat)%nat)
  /\
  (exists st',
      Delete 8%nat st_10 10 = Done st'
      /\ Root st' = None /\ Size st' = 0 /\ invariants st' E).
Proof.
  assert (H1 : invariants st_10 t_10).
  { exact invariants_st_10. }
  assert (H2 : elements t_10 = [(1%nat, (10, 0))]).
  { reflexivity. }
  assert (H3 : compare 10 10 = 0).
  { reflexivity. }
  assert (H4 : (1 <= 8%nat)%nat).
  { lia. }
  exact (conj H1 (conj H2 (conj H3 (conj H4 (X13_Delete_last_key 8%nat st_10 t_10 10 1%nat 10 0 H1 H2 H3 H4))))).
Defined.


(** ** How much the fixups restructure *)

Section AddRotations.

Context {K V : Type} `{!ZeroValue K, !ZeroValue V, !Comparator K}.
Context `{!ComparatorLaws K}.
Implicit Types (h : list (RBNode (K:=K) (V:=V))) (st : state (K:=K) (V:=V)).
Implicit Types (t l r : tree (K:=K) (V:=V)) (ctx : list (frame (K:=K) (V:=V))).
Implicit Types (a p : addr) (q par d : ptr).

(** One iteration of the loop of [fixAfterAdd] calls at most two rotations,
    and none when the uncle is Red. *)
Lemma calls_fixAfterAdd_body_rot st q :
  exists evs,
    calls (fixAfterAdd_body st q).1 = evs ++ calls st
    /\ (length evs <= 2)%nat
    /\ forallb is_rotation evs = true
    /\ (getColor (heap_of st) (getUncle (heap_of st) q) = Red -> evs = []).
Proof.
  unfold fixAfterAdd_body.
  destruct (getColor (heap_of st) (getUncle (heap_of st) q)); cbn [negb].
  - unfold fixAddLeftBlack, fixAddRightBlack. cbv beta zeta.
    repeat (match goal with
            | |- context [if ?b then _ else _] => destruct b
            end; cbv beta iota zeta);
      cbn [fst snd];
      repeat first [ rewrite calls_setColor | rewrite calls_rotateLeft
                   | rewrite calls_rotateRight ];
      first [ exists []; split_and!; [reflexivity|simpl; lia|done|done]
            | eexists [_]; split_and!; [reflexivity|simpl; lia|done|done]
            | eexists [_; _]; split_and!; [reflexivity|simpl; lia|done|done] ].
  - exists []. unfold fixUncleRed. cbn [fst].
    rewrite !calls_setColor. split_and!; [done|simpl; lia|done|done].
Qed.

(** The loop of [fixAfterAdd] rotates in its last iteration only. *)
Lemma fixAfterAdd_loop_calls fuel : forall st ctx t,
  (length ctx < fuel)%nat ->
  models st (plug ctx t) -> add_inv ctx t ->
  exists st' evs,
    fixAfterAdd_loop fuel st (ptr_of t) = Done st'
    /\ calls st' = evs ++ calls st /\ (length evs <= 2)%nat
    /\ forallb is_rotation evs = true.
Proof.
  induction fuel as [|fuel IH]; intros st ctx t Hlen H Hinv; [lia|].
  pose proof Hinv as (Hne & _).
  destruct t as [|xa xc xk xv xl xr]; [done|].
  simpl. rewrite (fixAfterAdd_cond_models _ _ _ _ _ _ _ _ H).
  destruct (parent_red ctx) eqn:Hp;
    [|exists st, []; split_and!; [done|done|simpl; lia|done]].
  destruct (add_inv_grandparent _ _ Hinv Hp) as (fp & fg & ctx2 & -> & _).
  destruct (fixAfterAdd_body_ok _ _ _ _ _ _ _ _ _ _ H) as (st1 & Hb & H1 & Hs1).
  destruct (add_step_inv _ _ Hinv Hp) as (Hinv1 & Hlen1).
  destruct (calls_fixAfterAdd_body_rot st (Some xa))
    as (evs1 & Hevs1 & Hl1 & Hr1 & Hred).
  rewrite Hb in Hevs1. cbn [fst] in Hevs1. rewrite Hb.
  rewrite (uncle_color _ _ _ _ _ _ _ _ _ _ H) in Hred.
  pose proof Hinv1 as (Hne1 & _).
  destruct (tcolor (fsib fg)) eqn:Hu.
  - exists st1, evs1. split_and!; [|done|done|done].
    apply fixAfterAdd_loop_exit.
    destruct (add_step _ _).2 as [|ya yc yk yv yl yr] eqn:Hy; [done|].
    rewrite (fixAfterAdd_cond_models _ _ _ _ _ _ _ _ H1).
    revert Hy. unfold add_step. rewrite Hu. cbn [negb].
    destruct fg, fp; cbn [fst snd]; done.
  - destruct (IH st1 _ _ (Nat.lt_le_trans _ _ _ Hlen1
                            (proj1 (Nat.lt_succ_r _ _) Hlen)) H1 Hinv1)
      as (st' & evs & Hl & Hevs & Hlen2 & Hrot).
    exists st', evs. split_and!; [done| |done|done].
    by rewrite Hevs, Hevs1, (Hred eq_refl).
Qed.

Lemma fixAfterAdd_calls fuel st ctx xa c k v l r :
  (length ctx < fuel)%nat ->
  models st (plug ctx (T xa c k v l r)) ->
  add_inv ctx (T xa Red k v l r) ->
  exists st' evs,
    fixAfterAdd fuel st (Some xa) = Done st'
    /\ calls st' = evs ++ CallFixAfterAdd (Some xa) :: calls st
    /\ (length evs <= 2)%nat
    /\ forallb is_rotation evs = true.
Proof.
  intros Hlen H Hinv. unfold fixAfterAdd.
  assert (H0 : models (store (log st (CallFixAfterAdd (Some xa))) xa
                             (with_color Red))
                      (plug ctx (T xa Red k v l r))).
  { apply (store_data_models (log st _) ctx xa c k v l r _ Red k v); [done|].
    exact H. }
  destruct (fixAfterAdd_loop_calls fuel _ _ _ Hlen H0 Hinv)
    as (st' & evs & Hl & Hevs & Hlen2 & Hrot).
  simpl ptr_of in Hl. rewrite Hl. simpl.
  eexists _, evs. split_and!; [done| |done|done].
  by rewrite calls_setColor, Hevs.
Qed.

Lemma fixAfterAdd_first_calls fuel st a0 dm tn k v kd vd :
  root st = Some a0 ->
  heap_of st !! a0 = Some (mkRBNode Red k v None None None) ->
  heap_of st !! dm = Some (mkRBNode false kd vd None (Some tn) None) ->
  heap_of st !! tn = Some (mkRBNode Red k v None None (Some dm)) ->
  a0 <> dm -> a0 <> tn -> dm <> tn ->
  exists st',
    fixAfterAdd (S fuel) st (Some tn) = Done st'
    /\ calls st'
       = [CallRotateLeft None] ++ CallFixAfterAdd (Some tn) :: calls st.
Proof.
  intros Hroot H0 H1 H2 ? ? ?.
  unfold fixAfterAdd. rewrite fixAfterAdd_loop_S.
  assert (Hcond : fixAfterAdd_cond
                    (store (log st (CallFixAfterAdd (Some tn))) tn
                           (with_color Red)) (Some tn) = true).
  { unfold fixAfterAdd_cond, getParent, getColor, deref.
    cbn -[lookup alter]. hlook. rewrite Hroot.
    by rewrite bool_decide_eq_true_2 by congruence. }
  rewrite Hcond.
  unfold fixAfterAdd_body, fixAddRightBlack, fixAddLeftBlack, fixUncleRed,
    getUncle, getGrandParent, getBrother, getParent, getLeft, getRight,
    getColor, setColor, rotateLeft, rotateRight, deref.
  cbn -[lookup alter fixAfterAdd_loop]. hlook.
  repeat (match goal with
          | |- context [decide (?x = ?y)] => ptr_decide x y
          end; cbn -[lookup alter fixAfterAdd_loop]; hlook).
  rewrite fixAfterAdd_loop_exit.
  - cbn -[lookup alter]. rewrite Hroot. eexists. split; [done|]. done.
  - unfold fixAfterAdd_cond, getParent, getColor, deref.
    cbn -[lookup alter]. hlook. by rewrite andb_false_r.
Qed.

Lemma addNode_empty_calls fuel st na nd :
  root st = None -> heap_of st !! na = Some nd ->
  exists st' x,
    addNode (S fuel) st (Some na) = Done (st', None)
    /\ calls st' = [CallRotateLeft None] ++ CallFixAfterAdd x :: calls st.
Proof.
  intros Hroot Hna. unfold addNode. rewrite Hroot.
  cbn -[fixAfterAdd length app lookup].
  rewrite !length_app. cbn [length]. rewrite !Nat.add_1_r.
  rewrite (deref_lookup _ _ _ Hna).
  set (a0 := length (heap_of st)).
  set (n0 := mkRBNode Red (Key nd) (Value nd) None None None).
  rewrite (deref_lookup ((heap_of st ++ [n0]) ++ [zeroNode]) na nd)
    by (by do 2 apply lookup_app_l_Some).
  set (tc := mkRBNode Red (Key nd) (Value nd) None None (Some (S a0))).
  remember (((heap_of st ++ [n0]) ++ [zeroNode]) ++ [tc]) as h3 eqn:Hh3.
  assert (H0 : h3 !! a0 = Some n0).
  { subst h3. do 2 apply lookup_app_l_Some. by apply list_lookup_middle. }
  assert (H1 : h3 !! S a0 = Some zeroNode).
  { subst h3. apply lookup_app_l_Some. apply list_lookup_middle.
    rewrite length_app. simpl. lia. }
  assert (H2 : h3 !! S (S a0) = Some tc).
  { subst h3. apply list_lookup_middle. rewrite !length_app. simpl. lia. }
  assert (a0 <> S a0) by lia. assert (a0 <> S (S a0)) by lia.
  assert (S a0 <> S (S a0)) by lia.
  clear Hh3. subst n0 tc. unfold zeroNode in H1.
  match goal with
  | |- context [fixAfterAdd _ ?s _] =>
      destruct (fixAfterAdd_first_calls fuel s a0 (S a0) (S (S a0)) (Key nd)
                  (Value nd) zero_value zero_value)
        as (st' & Hfix & Hc)
  end; try done.
  - cbn -[lookup alter]. by hlook.
  - cbn -[lookup alter]. by hlook.
  - cbn -[lookup alter]. by hlook.
  - rewrite Hfix. exists st', (Some (S (S a0))). split; [done|].
    rewrite Hc. done.
Qed.

Lemma addNode_insert_calls fuel st t na nd ctx' cmp' :
  models st t -> t <> E -> heap_of st !! na = Some nd ->
  (height t < fuel)%nat ->
  ins_path (Key nd) t [] 0 = Some (ctx', cmp') ->
  rbt None t -> tcolor t = Black ->
  exists st' evs x,
    addNode fuel st (Some na) = Done (st', None)
    /\ calls st' = evs ++ CallFixAfterAdd x :: calls st
    /\ (length evs <= 2)%nat
    /\ forallb is_rotation evs = true.
Proof.
  intros H Hne Hna Hh Hins Hrb Hcol. pose proof H as (Hroot & Hwf & _).
  destruct (ins_path_plug _ _ _ _ _ _ Hins) as (Hp & Hlen & Hside & Htop & Hlen').
  destruct t as [|a c k v l r]; [done|].
  destruct ctx' as [|f ctx'']; [simpl in Hlen'; lia|].
  specialize (Hside ltac:(constructor)). specialize (Htop I).
  apply Forall_cons in Hside as [Hf _]. simpl in Htop.
  unfold addNode. rewrite Hroot.
  cbn -[fixAfterAdd length app lookup addNode_loop].
  rewrite (deref_lookup (heap_of st ++ [zeroNode]) na nd)
    by (by apply lookup_app_l_Some).
  rewrite (addNode_loop_wf fuel (heap_of st ++ [zeroNode])
             (T a c k v l r) [] (Key nd) (length (heap_of st)) 0);
    [|by apply (wf_alloc _ _ _ zeroNode)|lia].
  rewrite Hins. cbn -[fixAfterAdd length app lookup].
  rewrite length_app. cbn [length]. rewrite Nat.add_1_r.
  assert (Hd : models (set_heap st (heap_of st ++ [zeroNode]))
                      (plug (f :: ctx'') E)).
  { rewrite Hp. by apply (models_alloc _ _ zeroNode). }
  pose proof (link_leaf _ _ _ (Key nd) (Value nd) Hd) as Hl.
  cbn -[length app] in Hl. rewrite length_app in Hl. cbn [length] in Hl.
  rewrite Nat.add_1_r in Hl.
  set (st2 := set_size _ _).
  assert (H2 : models st2 (plug (f :: ctx'')
                 (T (S (length (heap_of st))) Red (Key nd) (Value nd) E E))).
  { subst st2. destruct f; simpl in Hf, Htop; subst cmp'.
    - rewrite (proj2 (Z.ltb_lt _ _)) by (clear -Hf; lia). exact Hl.
    - rewrite (proj2 (Z.ltb_ge _ _)) by (clear -Hf; lia). exact Hl. }
  assert (Hinv : add_inv (f :: ctx'')
                   (T (S (length (heap_of st))) Red (Key nd) (Value nd) E E)).
  { split_and!; [done|done|by simpl|].
    change (T a c k v l r) with (plug [] (T a c k v l r)) in Hrb, Hcol.
    rewrite <- Hp in Hrb, Hcol.
    by destruct (cok_of_plug _ _ _ Hrb Hcol) as [_ Hc]. }
  assert (Hfuel : (length (f :: ctx'') < fuel)%nat)
    by (clear -Hlen Hh; simpl in *; lia).
  destruct (fixAfterAdd_calls fuel st2 _ _ _ _ _ _ _ Hfuel H2 Hinv)
    as (st' & evs & Hfix & Hc & Hl2 & Hrot).
  rewrite Hfix. exists st', evs, (Some (S (length (heap_of st)))).
  split_and!; [done| |done|done].
  rewrite Hc. subst st2. by destruct (cmp' <? 0).
Qed.

(** X14: [Add] of a new key to a valid tree calls [fixAfterAdd] once and,
    after that call has begun, nothing but rotations, at most two of them. *)
Theorem X14_Add_rotates_at_most_twice fuel st t na nd :
  invariants st t -> heap_of st !! na = Some nd ->
  ~ present (Key nd) t -> (height t < fuel)%nat ->
  exists st' evs x,
    Add fuel st (Some na) = Done (st', None)
    /\ calls st' = evs ++ CallFixAfterAdd x :: calls st
    /\ (length evs <= 2)%nat
    /\ forallb is_rotation evs = true.
Proof.
  intros (H & Hrootb & Hnrr & Hebh & Hbst & _) Hna Hnp Hfuel.
  assert (Hrb : rbt None t) by (by apply rbt_iff).
  apply sorted_iff in Hbst. unfold Add.
  destruct t as [|a c k v l r].
  - destruct fuel as [|fuel]; [lia|]. destruct H as (Hroot & _).
    destruct (addNode_empty_calls fuel st na nd Hroot Hna)
      as (st' & x & Hrun & Hc).
    exists st', [CallRotateLeft None], x. split_and!; [done|done|simpl; lia|done].
  - destruct (ins_path (Key nd) (T a c k v l r) [] 0) as [[ctx' cmp']|]
      eqn:Hins; [|by apply ins_path_None in Hins].
    destruct (addNode_insert_calls fuel st _ na nd ctx' cmp' H ltac:(done) Hna
                Hfuel Hins Hrb Hrootb)
      as (st' & evs & x & Hrun & Hc & Hl & Hrot).
    by exists st', evs, x.
Qed.

End AddRotations.

Section DeleteRotations.

Context {K V : Type} `{!ZeroValue K, !ZeroValue V, !Comparator K}.
Implicit Types (h : list (RBNode (K:=K) (V:=V))) (st : state (K:=K) (V:=V)).
Implicit Types (t l r : tree (K:=K) (V:=V)) (ctx : list (frame (K:=K) (V:=V))).
Implicit Types (a p : addr) (q par d : ptr).

Ltac calls_count :=
  repeat (match goal with
          | |- context [if ?b then _ else _] => destruct b
          end; cbv beta iota zeta);
  cbn [fst snd];
  repeat first [ rewrite calls_setColor | rewrite calls_rotateLeft
               | rewrite calls_rotateRight ];
  first [ exists []; split_and!; [reflexivity|simpl; lia|done|done]
        | eexists [_]; split_and!; [reflexivity|simpl; lia|done|done]
        | eexists [_; _]; split_and!; [reflexivity|simpl; lia|done|done]
        | eexists [_; _; _]; split_and!; [reflexivity|simpl; lia|done|done] ].

(** One iteration of the loop of [fixAfterDelete] calls at most three
    rotations, and none when the sibling and its children are Black. *)
Lemma calls_fixAfterDeleteLeft_rot st q :
  exists evs,
    calls (fixAfterDeleteLeft st q).1 = evs ++ calls st
    /\ (length evs <= 3)%nat
    /\ forallb is_rotation evs = true
    /\ (getColor (heap_of st)
          (getRight (heap_of st) (getParent (heap_of st) q))
        && (getColor (heap_of st)
              (getLeft (heap_of st)
                 (getRight (heap_of st) (getParent (heap_of st) q)))
            && getColor (heap_of st)
                 (getRight (heap_of st)
                    (getRight (heap_of st) (getParent (heap_of st) q))))
        = true -> evs = []).
Proof.
  unfold fixAfterDeleteLeft. cbv beta zeta.
  destruct (getColor (heap_of st)
              (getRight (heap_of st) (getParent (heap_of st) q)));
    cbn [negb andb]; cbv beta iota zeta.
  - destruct (getColor (heap_of st)
                (getLeft (heap_of st)
                   (getRight (heap_of st) (getParent (heap_of st) q)))
              && getColor (heap_of st)
                   (getRight (heap_of st)
                      (getRight (heap_of st) (getParent (heap_of st) q))));
      cbv beta iota zeta; calls_count.
  - calls_count.
Qed.

Lemma calls_fixAfterDeleteRight_rot st q :
  exists evs,
    calls (fixAfterDeleteRight st q).1 = evs ++ calls st
    /\ (length evs <= 3)%nat
    /\ forallb is_rotation evs = true
    /\ (getColor (heap_of st)
          (getLeft (heap_of st) (getParent (heap_of st) q))
        && (getColor (heap_of st)
              (getRight (heap_of st)
                 (getLeft (heap_of st) (getParent (heap_of st) q)))
            && getColor (heap_of st)
                 (getLeft (heap_of st)
                    (getLeft (heap_of st) (getParent (heap_of st) q))))
        = true -> evs = []).
Proof.
  unfold fixAfterDeleteRight. cbv beta zeta.
  destruct (getColor (heap_of st)
              (getLeft (heap_of st) (getParent (heap_of st) q)));
    cbn [negb andb]; cbv beta iota zeta.
  - destruct (getColor (heap_of st)
                (getRight (heap_of st)
                   (getLeft (heap_of st) (getParent (heap_of st) q)))
              && getColor (heap_of st)
                   (getLeft (heap_of st)
                      (getLeft (heap_of st) (getParent (heap_of st) q))));
      cbv beta iota zeta; calls_count.
  - calls_count.
Qed.

(** The colours that the iteration tests, read from the tree. *)
Lemma sibling_colors_left st p cp kp vp s ctx xa xc xk xv xl xr :
  models st (plug (InLeft p cp kp vp s :: ctx) (T xa xc xk xv xl xr)) ->
  fixAfterDelete_body st (Some xa) = Done (fixAfterDeleteLeft st (Some xa))
  /\ getColor (heap_of st)
       (getRight (heap_of st) (getParent (heap_of st) (Some xa)))
     && (getColor (heap_of st)
           (getLeft (heap_of st)
              (getRight (heap_of st) (getParent (heap_of st) (Some xa))))
         && getColor (heap_of st)
              (getRight (heap_of st)
                 (getRight (heap_of st) (getParent (heap_of st) (Some xa)))))
     = del_continues (InLeft p cp kp vp s :: ctx).
Proof.
  intros H. split.
  - unfold fixAfterDelete_body.
    assert (Hleft : Some xa = getLeft (heap_of st)
                                (parent (deref (heap_of st) xa))).
    { cells H. by hread. }
    by destruct (decide _).
  - unfold del_continues. cbn [fsib].
    destruct s as [|sa sc sk sv sl sr]; cells H;
      unfold getParent, getLeft, getRight; hread; done.
Qed.

Lemma sibling_colors_right st p cp kp vp s ctx xa xc xk xv xl xr :
  models st (plug (InRight p cp kp vp s :: ctx) (T xa xc xk xv xl xr)) ->
  fixAfterDelete_body st (Some xa) = Done (fixAfterDeleteRight st (Some xa))
  /\ getColor (heap_of st)
       (getLeft (heap_of st) (getParent (heap_of st) (Some xa)))
     && (getColor (heap_of st)
           (getRight (heap_of st)
              (getLeft (heap_of st) (getParent (heap_of st) (Some xa))))
         && getColor (heap_of st)
              (getLeft (heap_of st)
                 (getLeft (heap_of st) (getParent (heap_of st) (Some xa)))))
     = del_continues (InRight p cp kp vp s :: ctx).
Proof.
  intros H. split.
  - unfold fixAfterDelete_body.
    assert (Hleft : Some xa <> getLeft (heap_of st)
                                 (parent (deref (heap_of st) xa))).
    { cells_nd H. hread. intros ?. ptr_absurd. }
    by destruct (decide _).
  - unfold del_continues. cbn [fsib].
    destruct s as [|sa sc sk sv sl sr]; cells H;
      unfold getParent, getLeft, getRight; hread;
      rewrite 1?(andb_comm (tcolor sr)); done.
Qed.

(** Unless it only recolours and moves up, the iteration is the last one. *)
Lemma del_step_exit f ctx t :
  del_continues (f :: ctx) = false ->
  deficient (del_step (f :: ctx) t).1 (del_step (f :: ctx) t).2 = false.
Proof.
  unfold del_continues.
  destruct f as [p cp kp vp s|p cp kp vp s]; simpl.
  - destruct s as [|sa [|] ks vs sl sr]; simpl; [done| |];
      unfold del_rest_left.
    + intros ->. destruct (tcolor sr); [destruct sl|]; simpl; done.
    + intros _. destruct sl as [|sa1 c1 k1 v1 n1 n2]; [done|].
      destruct (tcolor n1 && tcolor n2); [done|].
      destruct (tcolor n2); [destruct n1|]; simpl; done.
  - destruct s as [|sa [|] ks vs sl sr]; simpl; [done| |];
      unfold del_rest_right.
    + rewrite andb_comm. intros ->.
      destruct (tcolor sl); [destruct sr|]; simpl; done.
    + intros _. destruct sr as [|sa1 c1 k1 v1 n1 n2]; [done|].
      destruct (tcolor n2 && tcolor n1); [done|].
      destruct (tcolor n1); [destruct n2|]; simpl; done.
Qed.

Lemma fixAfterDelete_body_calls st f ctx xa xc xk xv xl xr st1 x1 :
  models st (plug (f :: ctx) (T xa xc xk xv xl xr)) ->
  fixAfterDelete_body st (Some xa) = Done (st1, x1) ->
  exists evs,
    calls st1 = evs ++ calls st /\ (length evs <= 3)%nat
    /\ forallb is_rotation evs = true
    /\ (del_continues (f :: ctx) = true -> evs = []).
Proof.
  intros H Hb. destruct f as [p cp kp vp s|p cp kp vp s].
  - destruct (sibling_colors_left _ _ _ _ _ _ _ _ _ _ _ _ _ H) as [Hl Hc].
    rewrite Hl in Hb. injection Hb as Hb.
    destruct (calls_fixAfterDeleteLeft_rot st (Some xa))
      as (evs & Hevs & Hlen & Hrot & Hnil).
    rewrite Hb in Hevs. cbn [fst] in Hevs. rewrite Hc in Hnil. by exists evs.
  - destruct (sibling_colors_right _ _ _ _ _ _ _ _ _ _ _ _ _ H) as [Hl Hc].
    rewrite Hl in Hb. injection Hb as Hb.
    destruct (calls_fixAfterDeleteRight_rot st (Some xa))
      as (evs & Hevs & Hlen & Hrot & Hnil).
    rewrite Hb in Hevs. cbn [fst] in Hevs. rewrite Hc in Hnil. by exists evs.
Qed.

Lemma fixAfterDelete_loop_stop fuel st ctx t :
  models st (plug ctx t) -> t <> E -> deficient ctx t = false ->
  fixAfterDelete_loop fuel st (ptr_of t) = Done (st, ptr_of t).
Proof.
  intros H Hne Hd. destruct fuel; simpl;
    by rewrite (fixAfterDelete_cond_models _ _ _ H Hne), Hd.
Qed.

(** The loop of [fixAfterDelete] rotates in its last iteration only. *)
Lemma fixAfterDelete_loop_calls d fuel : forall st ctx t,
  (deficient ctx t = true -> (length ctx < fuel)%nat) ->
  models st (plug ctx t) -> del_inv d ctx t ->
  exists st' x' evs,
    fixAfterDelete_loop fuel st (ptr_of t) = Done (st', x')
    /\ calls st' = evs ++ calls st /\ (length evs <= 3)%nat
    /\ forallb is_rotation evs = true.
Proof.
  induction fuel as [|fuel IH]; intros st ctx t Hlen H Hinv;
    pose proof Hinv as (Hne & _).
  - exists st, (ptr_of t), []. simpl.
    rewrite (fixAfterDelete_cond_models _ _ _ H Hne).
    destruct (deficient ctx t); [specialize (Hlen eq_refl); lia|].
    split_and!; [done|done|simpl; lia|done].
  - simpl. rewrite (fixAfterDelete_cond_models _ _ _ H Hne).
    destruct (deficient ctx t) eqn:Hdef;
      [|exists st, (ptr_of t), []; split_and!; [done|done|simpl; lia|done]].
    specialize (Hlen eq_refl).
    destruct ctx as [|f ctx0]; [done|].
    destruct t as [|xa xc xk xv xl xr]; [done|].
    destruct (fixAfterDelete_body_ok _ _ _ _ _ _ _ _ _ H) as (st1 & Hb & H1 & Hs1).
    destruct (fixAfterDelete_body_calls _ _ _ _ _ _ _ _ _ _ _ H Hb)
      as (evs1 & Hevs1 & Hlen1 & Hrot1 & Hnil).
    cbn [ptr_of]. rewrite Hb. cbn [rbind fst snd].
    pose proof (del_step_inv _ _ _ Hinv Hdef) as Hinv1.
    pose proof Hinv1 as (Hne1 & _).
    destruct (del_continues (f :: ctx0)) eqn:Hcont.
    + assert (Hl1 : deficient (del_step (f :: ctx0) (T xa xc xk xv xl xr)).1
                      (del_step (f :: ctx0) (T xa xc xk xv xl xr)).2 = true ->
                    (length (del_step (f :: ctx0) (T xa xc xk xv xl xr)).1
                     < fuel)%nat).
      { intros Hd1.
        destruct (del_step_measure (f :: ctx0) (T xa xc xk xv xl xr))
          as [Hm|Hm]; [done|congruence|]. clear -Hlen Hm. lia. }
      destruct (IH st1 _ _ Hl1 H1 Hinv1)
        as (st' & x' & evs & Hl & Hevs & Hlen2 & Hrot).
      exists st', x', evs. split_and!; [done| |done|done].
      by rewrite Hevs, Hevs1, (Hnil eq_refl).
    + rewrite (fixAfterDelete_loop_stop fuel _ _ _ H1 Hne1
                 (del_step_exit _ _ _ Hcont)).
      by exists st1, (ptr_of (del_step (f :: ctx0) (T xa xc xk xv xl xr)).2),
        evs1.
Qed.

Lemma fixAfterDelete_calls_bound d fuel st ctx t :
  (length ctx < fuel)%nat ->
  models st (plug ctx t) -> del_inv d ctx t ->
  exists st' evs,
    fixAfterDelete fuel st (ptr_of t) = Done st'
    /\ calls st' = evs ++ CallFixAfterDelete (ptr_of t) :: calls st
    /\ (length evs <= 3)%nat
    /\ forallb is_rotation evs = true.
Proof.
  intros Hlen H Hinv. unfold fixAfterDelete.
  destruct (fixAfterDelete_loop_calls d fuel
              (log st (CallFixAfterDelete (ptr_of t))) ctx t ltac:(done) H Hinv)
    as (st' & x' & evs & Hl & Hevs & Hlen' & Hrot).
  rewrite Hl. cbn [rbind fst snd].
  eexists _, evs. split_and!; [done| |done|done].
  by rewrite calls_setColor, Hevs.
Qed.

Lemma calls_unlink_node st a : calls (unlink_node st a) = calls st.
Proof. unfold unlink_node. by repeat case_match. Qed.

Lemma calls_splice_child st a b : calls (splice_child st a b) = calls st.
Proof. unfold splice_child. by repeat case_match. Qed.

(** The calls of the removal of a node with at most one child. *)
Lemma deleteNode_splice_calls fuel st ctx dn dc dk dv dl dr :
  let t0 := plug ctx (T dn dc dk dv dl dr) in
  models st t0 -> rbt None t0 -> tcolor t0 = Black ->
  dl = E \/ dr = E -> (length ctx < fuel)%nat ->
  exists st',
    deleteNode_splice fuel st dn = Done st'
    /\ (calls st' = calls st
        \/ exists evs q,
             calls st' = evs ++ CallFixAfterDelete q :: calls st
             /\ (length evs <= 3)%nat
             /\ forallb is_rotation evs = true).
Proof.
  intros t0 H Hrb Hroot Hshape Hfuel. subst t0.
  pose proof (models_deref _ _ _ _ _ _ _ _ H) as Hd.
  destruct (cok_of_plug _ _ _ Hrb Hroot) as [HrbD Hcok].
  assert (Hcases : (dl = E /\ dr = E)
                   \/ ((dl = E /\ dr <> E) \/ (dl <> E /\ dr = E))).
  { clear -Hshape. destruct dl, dr; naive_solver. }
  clear Hshape. destruct Hcases as [[-> ->]|Hone].
  - unfold deleteNode_splice. rewrite Hd. cbn [left right parent color ptr_of].
    destruct ctx as [|f ctx'].
    + cbn [cparent rbind]. eexists. split; [done|]. by left.
    + cbn [cparent]. destruct dc.
      * assert (Hnd0 : dn ∉ caddrs (f :: ctx')).
        { pose proof (models_nodup _ _ _ H) as Hnd.
          rewrite addrs_T, addrs_E in Hnd. simpl in Hnd.
          by apply NoDup_cons in Hnd as [Hfresh _]. }
        assert (Hinv : del_inv (Some dn) (f :: ctx') (T dn Black dk dv E E)).
        { split_and!.
          - done.
          - done.
          - apply cok_fresh; [done|]. simpl bhd. unfold blk.
            rewrite bool_decide_eq_true_2 by done. exact Hcok.
          - by intros a [= <-].
          - intros a [= <-]. simpl. by left. }
        destruct (fixAfterDelete_calls_bound (Some dn) fuel st (f :: ctx') _
                    Hfuel H Hinv) as (st1 & evs & Hfix & Hevs & Hlen & Hrot).
        cbn [ptr_of] in Hfix, Hevs. rewrite Hfix. cbn [rbind].
        eexists. split; [done|]. right. exists evs, (Some dn).
        cbn [calls set_size]. by rewrite calls_unlink_node.
      * cbn [rbind]. eexists. split; [done|]. left.
        cbn [calls set_size]. by rewrite calls_unlink_node.
  - destruct (rbt_one_child _ _ _ _ _ _ HrbD Hone) as (-> & ra & rk & rv & Hsh).
    destruct (splice_child_models st ctx dn Black dk dv dl dr ra Red rk rv Hsh H)
      as (H1 & Hcol & Hs1 & Hc1).
    unfold deleteNode_splice. rewrite Hd. cbn [left right parent color].
    assert (Hrep : match ptr_of dl with Some l => Some l | None => ptr_of dr end
                   = Some ra).
    { by destruct Hsh as [[-> ->]|[-> ->]]. }
    rewrite Hrep. cbv zeta. rewrite Hcol.
    assert (Hinv : del_inv None ctx (T ra Red rk rv E E)).
    { split_and!; try done.
      replace (bhd None (T ra Red rk rv E E)) with O by done.
      replace 1%nat with (bhd None (T dn Black dk dv dl dr)); [exact Hcok|].
      by destruct Hsh as [[-> ->]|[-> ->]]. }
    destruct (fixAfterDelete_calls_bound None fuel _ ctx _ Hfuel H1 Hinv)
      as (st1 & evs & Hfix & Hevs & Hlen & Hrot).
    cbn [ptr_of] in Hfix, Hevs. rewrite Hfix. cbn [rbind].
    eexists. split; [done|]. right. exists evs, (Some ra).
    cbn [calls set_size]. by rewrite Hevs, Hc1.
Qed.

(** The calls of [deleteNode] on a node of a valid tree. *)
Lemma deleteNode_calls fuel st ctx n c k v l r :
  let t0 := plug ctx (T n c k v l r) in
  models st t0 -> rbt None t0 -> tcolor t0 = Black ->
  (height t0 <= fuel)%nat ->
  exists st',
    deleteNode fuel st (Some n) = Done st'
    /\ (calls st' = calls st
        \/ exists evs q,
             calls st' = evs ++ CallFixAfterDelete q :: calls st
             /\ (length evs <= 3)%nat
             /\ forallb is_rotation evs = true).
Proof.
  intros t0 H Hrb Hroot Hfuel. subst t0.
  pose proof (height_plug ctx (T n c k v l r)) as Hh.
  assert (Hcases : (l = E \/ r = E) \/ (l <> E /\ r <> E)).
  { clear. destruct l, r; naive_solver. }
  destruct Hcases as [Hs|[Hl Hr]].
  - destruct (deleteNode_splice_calls fuel st ctx n c k v l r H Hrb Hroot Hs)
      as (st' & Hrun & Hc).
    { simpl in Hh. clear -Hh Hfuel. lia. }
    exists st'. split; [|done].
    rewrite deleteNode_split, (models_deref _ _ _ _ _ _ _ _ H).
    cbn [left right].
    replace (bool_decide (ptr_of l <> None) && bool_decide (ptr_of r <> None))
      with false; [done|].
    by destruct Hs as [-> | ->]; simpl; rewrite ?andb_false_r.
  - destruct (min_zip_shape r [] Hr) as (s & cs & ks & vs & sr & Hm).
    assert (Hhr : (S (length ctx) + height r <= fuel)%nat).
    { clear -Hh Hfuel. simpl in Hh. lia. }
    pose proof H as Hs0.
    change (plug ctx (T n c k v l r))
      with (plug (InRight n c k v l :: ctx) r) in Hs0.
    rewrite <- (min_zip_plug r), (min_zip_app r), Hm in Hs0.
    cbn [fst snd] in Hs0.
    pose proof (models_read _ _ _ _ _ _ _ _ Hs0) as Hcell.
    assert (Hsucc : getSuccessor fuel (heap_of st) (Some n) = Done (Some s)).
    { unfold getSuccessor. rewrite (models_deref _ _ _ _ _ _ _ _ H).
      cbn [right]. destruct r as [|ra rc rk rv rl rr]; [done|]. cbn [ptr_of].
      pose proof H as (_ & _ & Hwf & _)%models_plug.
      destruct Hwf as (_ & _ & Hwr).
      destruct (leftmost_loop_wf fuel _ _ _ _ _ _ _ _ [] Hwr) as (s' & -> & Hp).
      { clear -Hhr. lia. }
      rewrite Hm in Hp. by injection Hp as ->. }
    pose proof (store_data_models st ctx n c k v l r (with_Key ks) c ks v
                  ltac:(done) H) as H1.
    pose proof H1 as Hs1.
    change (plug ctx (T n c ks v l r))
      with (plug (InRight n c ks v l :: ctx) r) in Hs1.
    rewrite <- (min_zip_plug r), (min_zip_app r), Hm in Hs1.
    cbn [fst snd] in Hs1.
    pose proof (store_data_models _ ctx n c ks v l r (with_Value vs) c ks vs
                  ltac:(done) H1) as H2.
    pose proof H2 as Hs2.
    change (plug ctx (T n c ks vs l r))
      with (plug (InRight n c ks vs l :: ctx) r) in Hs2.
    rewrite <- (min_zip_plug r), (min_zip_app r), Hm in Hs2.
    cbn [fst snd] in Hs2.
    destruct (rbt_plug_data None ctx n c k v ks vs l r Hrb Hroot)
      as [Hrb2 Hroot2].
    change (plug ctx (T n c ks vs l r))
      with (plug (InRight n c ks vs l :: ctx) r) in Hrb2, Hroot2.
    rewrite <- (min_zip_plug r), (min_zip_app r), Hm in Hrb2, Hroot2.
    cbn [fst snd] in Hrb2, Hroot2.
    destruct (deleteNode_splice_calls fuel _ _ s cs ks vs E sr Hs2 Hrb2 Hroot2)
      as (st' & Hrun & Hc).
    { by left. }
    { pose proof (min_zip_length r (InRight n c ks vs l :: ctx) Hr) as Hlen.
      rewrite min_zip_app in Hlen. cbn [fst length] in Hlen.
      clear -Hlen Hhr. lia. }
    exists st'. split; [|exact Hc].
    rewrite deleteNode_split, (models_deref _ _ _ _ _ _ _ _ H).
    cbn [left right].
    replace (bool_decide (ptr_of l <> None) && bool_decide (ptr_of r <> None))
      with true by (by destruct l, r).
    rewrite Hsucc. cbn [rbind fst snd].
    rewrite (deref_lookup _ _ _ Hcell).
    rewrite (models_deref _ _ _ _ _ _ _ _ Hs1). cbn [Key Value]. exact Hrun.
Qed.

End DeleteRotations.

Section DeleteRotationsOrdered.

Context {K V : Type} `{!ZeroValue K, !ZeroValue V, !Comparator K}.
Context `{!ComparatorLaws K}.
Implicit Types (h : list (RBNode (K:=K) (V:=V))) (st : state (K:=K) (V:=V)).
Implicit Types (t l r : tree (K:=K) (V:=V)) (ctx : list (frame (K:=K) (V:=V))).
Implicit Types (a p : addr) (q par d : ptr).

(** X15: [Delete] of a present key from a valid tree calls [fixAfterDelete]
    at most once and, after that call has begun, nothing but rotations, at
    most three of them; without the fixup it calls no rotation at all. *)
Theorem X15_Delete_rotates_at_most_three_times fuel st t key :
  invariants st t -> present key t -> (height t <= fuel)%nat ->
  exists st',
    Delete fuel st key = Done st'
    /\ (calls st' = calls st
        \/ exists evs q,
             calls st' = evs ++ CallFixAfterDelete q :: calls st
             /\ (length evs <= 3)%nat
             /\ forallb is_rotation evs = true).
Proof.
  intros (H & Hrootb & Hnrr & Hebh & Hbst & _) Hp Hfuel.
  assert (Hrb : rbt None t) by (by apply rbt_iff).
  apply sorted_iff in Hbst.
  destruct (find key t) as [n|] eqn:Hfind;
    [|by apply (find_present key t Hbst) in Hp].
  destruct (find_zipper _ _ _ Hfind) as (ctx & c & k & v & l & r & -> & Hk).
  destruct (deleteNode_calls fuel st ctx n c k v l r H Hrb Hrootb Hfuel)
    as (st' & Hrun & Hc).
  exists st'. split; [|exact Hc].
  unfold Delete. rewrite (getRBNode_models _ _ _ _ H Hfuel), Hfind.
  cbn [rbind]. done.
Qed.

End DeleteRotationsOrdered.

(** [Add] of the key 0 to the tree of 10, 20 and 30. *)
Lemma X14_witness :
  (invariants st_10_20_30 t_10_20_30)
  /\
  (heap_of st_10_20_30 !! 5%nat = Some (mkRBNode Red 0 0 None None None))
  /\
  (~ present (Key (mkRBNode Red 0 0 None None None)) t_10_20_30)
  /\
  ((height t_10_20_30 < 8%nat)%nat)
  /\
  (exists st' evs x,
      Add 8%nat st_10_20_30 (Some 5%nat) = Done (st', None)
      /\ calls st' = evs ++ CallFixAfterAdd x :: calls st_10_20_30
      /\ (length evs <= 2)%nat
      /\ forallb is_rotation evs = true).
Proof.
  assert (H1 : invariants st_10_20_30 t_10_20_30).
  { exact invariants_st_10_20_30. }
  assert (H2 : heap_of st_10_20_30 !! 5%nat = Some (mkRBNode Red 0 0 None None None)).
  { reflexivity. }
  assert (H3 : ~ present (Key (mkRBNode Red 0 0 None None None)) t_10_20_30).
  { intros (k0 & Hk0 & Hc0); vm_compute in Hk0; repeat (apply elem_of_cons in Hk0 as [->|Hk0]; [by vm_compute in Hc0|]); by apply elem_of_nil in Hk0. }
  assert (H4 : (height t_10_20_30 < 8%nat)%nat).
  { simpl; lia. }
  exact (conj H1 (conj H2 (conj H3 (conj H4 (X14_Add_rotates_at_most_twice 8%nat st_10_20_30 t_10_20_30 5%nat (mkRBNode Red 0 0 None None None) H1 H2 H3 H4))))).
Defined.

(** [Delete] of 20 from the tree of 10, 20 and 30. *)
Lemma X15_witness :
  (invariants st_10_20_30 t_10_20_30)
  /\
  (present 20 t_10_20_30)
  /\
  ((height t_10_20_30 <= 8%nat)%nat)
  /\
  (exists st',
      Delete 8%nat st_10_20_30 20 = Done st'
      /\ (calls st' = calls st_10_20_30
          \/ exists evs q,
               calls st' = evs ++ CallFixAfterDelete q :: calls st_10_20_30
               /\ (length evs <= 3)%nat
               /\ forallb is_rotation evs = true)).
Proof.
  assert (H1 : invariants st_10_20_30 t_10_20_30).
  { exact invariants_st_10_20_30. }
  assert (H2 : present 20 t_10_20_30).
  { exists 20; split; [apply list_elem_of_further, list_elem_of_here|reflexivity]. }
  assert (H3 : (height t_10_20_30 <= 8%nat)%nat).
  { simpl; lia. }
  exact (conj H1 (conj H2 (conj H3 (X15_Delete_rotates_at_most_three_times 8%nat st_10_20_30 t_10_20_30 20 H1 H2 H3)))).
Defined.

